(** * Inkora content-acquisition core: transport, extraction, cache, registry

    A shallow embedding of the JavaScript services of the repository
    (networkUtils.js, batoService, cacheManager, sourceManager.js,
    xbatoService, the routing test of mangaService.js) and the properties
    of its specification.

    Conventions of the embedding:
    - a JavaScript string is the list of its UTF-16 code units ([jsstring]);
    - a JavaScript number that the code uses as a count, a status, a
      timestamp or a duration in milliseconds is an integer ([Z] or [nat]);
    - [Date.now()] is an explicit argument, one reading per synchronous call;
    - asynchronous code runs in the monad [M]: it reads the environment
      (what the remote hosts answer, what the host functions [JSON.parse] and
      [encodeURIComponent] return) and threads the world (the trace of
      requests and sleeps, and the module variable [CURRENT_BATO_URL]);
    - a computation ends in [Returns v], [Throws e] or [Diverges]. *)

From Stdlib Require Import ZArith NArith Lia String Ascii List Bool.
From stdpp Require Import gmap strings list fin_maps.

Open Scope Z_scope.
Set Warnings "-register-all".

(** ** JavaScript strings *)

Module JsString.

Definition jsstring := list N.

(** A literal of the source, as code units. *)
Definition js (s : string) : jsstring :=
  List.map N_of_ascii (list_ascii_of_string s).

Definition dquote : N := 34%N.

Definition code_eqb (a b : N) : bool := N.eqb a b.

Fixpoint str_eqb (a b : jsstring) : bool :=
  match a, b with
  | [], [] => true
  | x :: a', y :: b' => code_eqb x y && str_eqb a' b'
  | _, _ => false
  end.

(** [s.startsWith(p)] *)
Fixpoint startsWith (s p : jsstring) : bool :=
  match p, s with
  | [], _ => true
  | c :: p', x :: s' => code_eqb c x && startsWith s' p'
  | _ :: _, [] => false
  end.

(** [s.includes(p)] *)
Fixpoint includes (s p : jsstring) : bool :=
  startsWith s p ||
  match s with
  | [] => false
  | _ :: s' => includes s' p
  end.

(** WhiteSpace and LineTerminator code units: what [trim] strips and what
    the class [\s] matches. *)
Definition is_space (c : N) : bool :=
  ((9 <=? c) && (c <=? 13) || (c =? 32) || (c =? 160) || (c =? 5760)
   || ((8192 <=? c) && (c <=? 8202)) || (c =? 8232) || (c =? 8233)
   || (c =? 8239) || (c =? 8287) || (c =? 12288) || (c =? 65279))%N.

Definition is_digit (c : N) : bool := ((48 <=? c) && (c <=? 57))%N.

Fixpoint trimStart (s : jsstring) : jsstring :=
  match s with
  | c :: s' => if is_space c then trimStart s' else s
  | [] => []
  end.

Definition trimEnd (s : jsstring) : jsstring := rev (trimStart (rev s)).

(** [s.trim()] *)
Definition trim (s : jsstring) : jsstring := trimEnd (trimStart s).

(** ASCII letters and the Latin-1 capitals; other code units are kept.
    The source lower-cases a [server] header and a source name. *)
Definition lower_code (c : N) : N :=
  (if (65 <=? c) && (c <=? 90) then c + 32
   else if (192 <=? c) && (c <=? 222) && negb (c =? 215) then c + 32
   else c)%N.

(** [s.toLowerCase()] *)
Definition toLowerCase (s : jsstring) : jsstring := List.map lower_code s.

(** [s.split(sep)] for a separator of one code unit. *)
Fixpoint split_on (sep : N) (cur : jsstring) (s : jsstring) : list jsstring :=
  match s with
  | [] => [rev cur]
  | c :: s' =>
      if code_eqb c sep then rev cur :: split_on sep [] s'
      else split_on sep (c :: cur) s'
  end.

Definition split (s : jsstring) (sep : N) : list jsstring := split_on sep [] s.

(** A string is truthy when it is not empty. *)
Definition str_truthy (s : jsstring) : bool :=
  match s with [] => false | _ :: _ => true end.

(** [parts.filter(Boolean).pop()]: the last non-empty part, or undefined. *)
Definition last_nonempty (parts : list jsstring) : option jsstring :=
  last (List.filter str_truthy parts).

(** The decimal digits of a non-negative integer, for [toString]. *)
Fixpoint digits_fuel (fuel : nat) (n : N) (acc : jsstring) : jsstring :=
  match fuel with
  | O => acc
  | S f =>
      let acc' := (48 + N.modulo n 10)%N :: acc in
      if (n <? 10)%N then acc' else digits_fuel f (N.div n 10) acc'
  end.

Definition N_toString (n : N) : jsstring :=
  digits_fuel (S (N.to_nat (N.log2 n))) n [].

End JsString.
Export JsString.

(** ** Outcomes of a computation *)

Inductive error :=
| FetchError (code : N)        (* what [fetch] itself rejects with *)
| AbortError                   (* the AbortController fired *)
| BodyError                    (* [response.text()] rejected *)
| TimeoutMessage               (* Error('Request timeout after ...') *)
| CloudflareNotBypassed        (* Error('Cloudflare challenge could not be bypassed') *)
| AllAttemptsFailed            (* Error('All N attempts failed for URL') *)
| HttpError (status : Z)       (* Error('HTTP error! status: ...') and Error('HTTP N: ...') *)
| AllDomainsFailed             (* Error('All Bato domains failed') *)
| JsonError                    (* SyntaxError of JSON.parse and its rewrapping *)
| URIError
| TypeError.

Inductive outcome (A : Type) :=
| Returns (a : A)
| Throws (e : error)
| Diverges.
Arguments Returns {A} a.
Arguments Throws {A} e.
Arguments Diverges {A}.


(** ** Regular expressions of the source

    The constructs the modelled patterns use, with the backtracking
    semantics of ECMAScript: alternatives left to right, greedy and lazy
    repetition, capture groups, positive lookahead and [$]. Patterns are
    transcribed construct by construct. No modelled pattern has a capture
    group inside a repetition, a backreference, [^], [\b] or a lookbehind. *)

Module Regex.

Inductive citem :=
| CChar (c : N)      (* one code unit *)
| CSpace             (* \s *)
| CNonSpace          (* \S *)
| CDigit.            (* \d *)

Inductive regex :=
| Eps
| Lit (c : N)
| Class (neg : bool) (items : list citem)
| Cat (r1 r2 : regex)
| Alt (r1 r2 : regex)
| Star (greedy : bool) (r : regex)
| Group (i : nat) (r : regex)
| Look (r : regex)
| Eol.

(** Canonicalize of the [i] flag without the [u] flag: upper case, and a
    code unit from 128 on never folds to an ASCII one; the patterns of the
    source are ASCII, so folding the ASCII letters is all that can match. *)
Definition canon (c : N) : N :=
  (if (97 <=? c) && (c <=? 122) then c - 32 else c)%N.

Definition code_match (icase : bool) (c x : N) : bool :=
  if icase then N.eqb (canon c) (canon x) else N.eqb c x.

Definition item_match (icase : bool) (x : N) (it : citem) : bool :=
  match it with
  | CChar c => code_match icase c x
  | CSpace => is_space x
  | CNonSpace => negb (is_space x)
  | CDigit => is_digit x
  end.

Definition caps := list (nat * jsstring).
Definition mstate := (jsstring * caps)%type.
Definition cont := jsstring -> caps -> option mstate.

Definition or_else (a : option mstate) (b : unit -> option mstate) : option mstate :=
  match a with
  | Some res => Some res
  | None => b tt
  end.

(** The repetition of [body] with continuation [k], at most [n] more
    times: a greedy one tries another iteration first, a lazy one tries
    [k] first. An iteration that consumes nothing is rejected, as
    RepeatMatcher does; [n] starts as the length of the input, which no
    sequence of consuming iterations can exceed. *)
Fixpoint star_loop (body : jsstring -> caps -> cont -> option mstate)
  (greedy : bool) (k : cont) (n : nat) (s : jsstring) (c : caps) {struct n}
  : option mstate :=
  let more (_ : unit) :=
    match n with
    | O => None
    | S n' =>
        body s c
          (fun s1 c1 =>
             if (length s1 <? length s)%nat
             then star_loop body greedy k n' s1 c1
             else None)
    end in
  if greedy then or_else (more tt) (fun _ => k s c)
  else or_else (k s c) more.

(** [m icase r s c k]: match [r] at the front of [s] with captures [c],
    then continue with [k] on the rest; [None] is failure, which makes the
    caller try its next choice. *)
Fixpoint m (icase : bool) (r : regex) (s : jsstring) (c : caps) (k : cont)
  {struct r} : option mstate :=
  match r with
  | Eps => k s c
  | Lit a =>
      match s with
      | x :: s' => if code_match icase a x then k s' c else None
      | [] => None
      end
  | Class neg items =>
      match s with
      | x :: s' =>
          if xorb neg (existsb (item_match icase x) items) then k s' c else None
      | [] => None
      end
  | Cat r1 r2 => m icase r1 s c (fun s1 c1 => m icase r2 s1 c1 k)
  | Alt r1 r2 => or_else (m icase r1 s c k) (fun _ => m icase r2 s c k)
  | Star greedy r1 => star_loop (m icase r1) greedy k (length s) s c
  | Group i r1 =>
      m icase r1 s c
        (fun s1 c1 => k s1 ((i, firstn (length s - length s1) s) :: c1))
  | Look r1 =>
      match m icase r1 s c (fun s1 c1 => Some (s1, c1)) with
      | Some (_, c1) => k s c1
      | None => None
      end
  | Eol =>
      match s with
      | [] => k s c
      | _ :: _ => None
      end
  end.

(** The result of a successful match: [m_text] is [match[0]], [m_caps]
    the groups, [m_rest] the input from [lastIndex] on. *)
Record match_result := {
  m_before : jsstring;
  m_text : jsstring;
  m_caps : caps;
  m_rest : jsstring
}.

Definition exec_at (icase : bool) (r : regex) (skipped s : jsstring) : option match_result :=
  match m icase r s [] (fun s1 c1 => Some (s1, c1)) with
  | Some (s1, c1) =>
      Some {| m_before := rev skipped;
              m_text := firstn (length s - length s1) s;
              m_caps := c1;
              m_rest := s1 |}
  | None => None
  end.

(** The leftmost match in [s], as [RegExp.prototype.exec] finds it;
    [skipped] is the input before [s], last code unit first. *)
Fixpoint search_from (icase : bool) (r : regex) (skipped s : jsstring) : option match_result :=
  match exec_at icase r skipped s with
  | Some mr => Some mr
  | None =>
      match s with
      | [] => None
      | x :: s' => search_from icase r (x :: skipped) s'
      end
  end.

Definition search (icase : bool) (r : regex) (s : jsstring) : option match_result :=
  search_from icase r [] s.

(** [match[i]] for a group: the text of its last participation. *)
Fixpoint group_lookup (i : nat) (c : caps) : option jsstring :=
  match c with
  | [] => None
  | (j, t) :: c' => if Nat.eqb i j then Some t else group_lookup i c'
  end.

Definition group (i : nat) (mr : match_result) : option jsstring :=
  group_lookup i (m_caps mr).

(** [match[1]] where group 1 takes part in every match of the pattern. *)
Definition group1 (mr : match_result) : jsstring :=
  match group 1 mr with
  | Some t => t
  | None => []
  end.

(** [str.match(re)] for a pattern without the [g] flag. *)
Definition str_match (icase : bool) (r : regex) (s : jsstring) : option match_result :=
  search icase r s.

(** [re.test(str)] *)
Definition test (icase : bool) (r : regex) (s : jsstring) : bool :=
  match search icase r s with Some _ => true | None => false end.

(** Building blocks of the transcriptions. *)
Fixpoint lits (l : jsstring) : regex :=
  match l with
  | [] => Eps
  | [a] => Lit a
  | a :: l' => Cat (Lit a) (lits l')
  end.

Definition str (s : string) : regex := lits (js s).

Fixpoint cat (l : list regex) : regex :=
  match l with
  | [] => Eps
  | [r] => r
  | r :: l' => Cat r (cat l')
  end.

Fixpoint alt (l : list regex) : regex :=
  match l with
  | [] => Eps
  | [r] => r
  | r :: l' => Alt r (alt l')
  end.

Definition star (r : regex) : regex := Star true r.          (* r*  *)
Definition lazy_star (r : regex) : regex := Star false r.    (* r*? *)
Definition plus (r : regex) : regex := Cat r (Star true r).  (* r+  *)
Definition opt (r : regex) : regex := Alt r Eps.             (* r?  *)

Definition quote : regex := Class false [CChar dquote; CChar 39%N].      (* a double or single quote *)
Definition not_quote : regex := Class true [CChar dquote; CChar 39%N].   (* any code unit but a quote *)
Definition not_gt : regex := Class true [CChar 62%N].                    (* any but > *)
Definition not_lt : regex := Class true [CChar 60%N].                    (* any but < *)
Definition any : regex := Class false [CSpace; CNonSpace].               (* [\s\S] *)
Definition space : regex := Class false [CSpace].                        (* \s     *)
Definition digit : regex := Class false [CDigit].                        (* \d     *)

(** [str.replace(re, replacement)] for a pattern with the [g] flag and a
    replacement without [$]: after an empty match the next code unit is
    copied and the search goes on behind it. *)
Fixpoint replace_loop (fuel : nat) (icase : bool) (r : regex) (replacement s : jsstring)
  : jsstring :=
  match fuel with
  | O => s
  | S f =>
      match search icase r s with
      | None => s
      | Some mr =>
          m_before mr ++ replacement ++
          match m_text mr, m_rest mr with
          | [], x :: rest => x :: replace_loop f icase r replacement rest
          | _, rest => replace_loop f icase r replacement rest
          end
      end
  end.

Definition replace_all (icase : bool) (r : regex) (replacement s : jsstring) : jsstring :=
  replace_loop (S (length s)) icase r replacement s.

(** A pattern that cannot match the empty string. *)
Fixpoint consumes (r : regex) : bool :=
  match r with
  | Eps | Star _ _ | Look _ | Eol => false
  | Lit _ | Class _ _ => true
  | Cat r1 r2 => consumes r1 || consumes r2
  | Alt r1 r2 => consumes r1 && consumes r2
  | Group _ r1 => consumes r1
  end.

End Regex.

(** ** JavaScript values: what [JSON.parse] yields, [undefined], and the
    one native method a property read of the model can reach. *)

Inductive jsvalue :=
| VUndefined
| VNull
| VBool (b : bool)
| VNum (z : Z)
| VStr (s : jsstring)
| VArr (l : list jsvalue)
| VObj (fields : list (jsstring * jsvalue))
| VFunction.

Definition truthy (v : jsvalue) : bool :=
  match v with
  | VUndefined | VNull => false
  | VBool b => b
  | VNum z => negb (z =? 0)
  | VStr s => str_truthy s
  | VArr _ | VObj _ | VFunction => true
  end.

(** [a || b] *)
Definition js_or (a b : jsvalue) : jsvalue := if truthy a then a else b.

Fixpoint field_lookup (name : jsstring) (fields : list (jsstring * jsvalue)) : jsvalue :=
  match fields with
  | [] => VUndefined
  | (k, v) :: rest =>
      (* a later duplicate key wins in JSON.parse *)
      match field_lookup name rest with
      | VUndefined => if str_eqb k name then v else VUndefined
      | found => found
      end
  end.

(** [v.name] for the property names the services read (url, link, title,
    ...): a TypeError on null and undefined; an own property of an object;
    [String.prototype.link] on a string; undefined otherwise. *)
Definition get_prop (v : jsvalue) (name : jsstring) : outcome jsvalue :=
  match v with
  | VUndefined | VNull => Throws TypeError
  | VObj fields => Returns (field_lookup name fields)
  | VStr _ => Returns (if str_eqb name (js "link") then VFunction else VUndefined)
  | _ => Returns VUndefined
  end.

(** ** The world of the asynchronous code *)

Record response := {
  status : Z;
  server : option jsstring;     (* response.headers.get('server') *)
  text : option jsstring        (* what response.text() resolves to, if it does *)
}.

(** [response.ok] *)
Definition ok (r : response) : bool := (200 <=? status r) && (status r <=? 299).

Inductive fetch_result :=
| Resolves (r : response)
| Rejects (code : N)      (* connection or transport failure *)
| Aborts.                 (* no answer before the timeout *)

Inductive event :=
| EvFetch (url : jsstring)
| EvSleep (ms : Z).

Definition is_fetch (ev : event) : bool :=
  match ev with EvFetch _ => true | EvSleep _ => false end.

Definition fetch_count (t : list event) : nat := length (List.filter is_fetch t).

(** The environment: [remote n url] is what the [n]-th request of the run
    (counted from 0) gets for [url]; the two host functions that can throw. *)
Record env := {
  remote : nat -> jsstring -> fetch_result;
  JSON_parse : jsstring -> option jsvalue;
  encodeURIComponent : jsstring -> option jsstring
}.

Record world := {
  trace : list event;
  CURRENT_BATO_URL : jsstring
}.

Definition M (A : Type) : Type := env -> world -> outcome A * world.

Definition ret {A} (a : A) : M A := fun _ w => (Returns a, w).

Definition throw {A} (e : error) : M A := fun _ w => (Throws e, w).

Definition bind {A B} (c : M A) (f : A -> M B) : M B :=
  fun e w =>
    match c e w with
    | (Returns a, w') => f a e w'
    | (Throws err, w') => (Throws err, w')
    | (Diverges, w') => (Diverges, w')
    end.

Notation "x <- c ;; k" := (bind c (fun x => k))
  (at level 100, c at next level, right associativity).
Notation "c ;;; k" := (bind c (fun _ => k))
  (at level 100, right associativity).

(** [try { body } catch (error) { handler }] *)
Definition try_catch {A} (body : M A) (handler : error -> M A) : M A :=
  fun e w =>
    match body e w with
    | (Throws err, w') => handler err e w'
    | other => other
    end.

(** A synchronous result inside asynchronous code. *)
Definition lift {A} (o : outcome A) : M A := fun _ w => (o, w).

Definition log (ev : event) (w : world) : world :=
  {| trace := trace w ++ [ev]; CURRENT_BATO_URL := CURRENT_BATO_URL w |}.

(** [await fetch(url, options)] with an abort signal. *)
Definition fetch (url : jsstring) : M response :=
  fun e w =>
    let w' := log (EvFetch url) w in
    match remote e (fetch_count (trace w)) url with
    | Resolves r => (Returns r, w')
    | Rejects c => (Throws (FetchError c), w')
    | Aborts => (Throws AbortError, w')
    end.

(** [await new Promise(resolve => setTimeout(resolve, ms))] *)
Definition sleep (ms : Z) : M unit := fun _ w => (Returns tt, log (EvSleep ms) w).

(** [await response.text()] *)
Definition response_text (r : response) : M jsstring :=
  match text r with
  | Some t => ret t
  | None => throw BodyError
  end.

Definition read_current : M jsstring := fun _ w => (Returns (CURRENT_BATO_URL w), w).

Definition write_current (d : jsstring) : M unit :=
  fun _ w => (Returns tt, {| trace := trace w; CURRENT_BATO_URL := d |}).

Definition ask_env : M env := fun e w => (Returns e, w).

(** [encodeURIComponent(s)], which throws on a lone surrogate. *)
Definition encode (s : jsstring) : M jsstring :=
  e <- ask_env ;;
  match encodeURIComponent e s with
  | Some t => ret t
  | None => throw URIError
  end.

(** The sleeps of a trace, in order, and the requested URLs. *)
Definition sleeps (t : list event) : list Z :=
  flat_map (fun ev => match ev with EvSleep ms => [ms] | EvFetch _ => [] end) t.

Definition fetched (t : list event) : list jsstring :=
  flat_map (fun ev => match ev with EvFetch u => [u] | EvSleep _ => [] end) t.

(** How one turn of a retry loop ends. *)
Inductive turn :=
| TReturn (r : response)       (* return *)
| TContinue                    (* continue, lastError untouched *)
| TCaught (e : error).         (* the catch block ran: lastError = e *)

(** The loop [for (attempt = ...; attempt < maxRetries; attempt++)] with
    [n] turns left, and the final [throw lastError || new Error(...)]. *)
Fixpoint for_attempts (body : nat -> M turn) (n attempt : nat)
  (lastError : option error) : M response :=
  match n with
  | O => throw (default AllAttemptsFailed lastError)
  | S n' =>
      t <- body attempt ;;
      match t with
      | TReturn r => ret r
      | TContinue => for_attempts body n' (S attempt) lastError
      | TCaught e => for_attempts body n' (S attempt) (Some e)
      end
  end.

(** What a request that does not resolve makes [fetchWithTimeout] throw. *)
Definition failure_of (fr : fetch_result) : option error :=
  match fr with
  | Resolves _ => None
  | Rejects c => Some (FetchError c)
  | Aborts => Some TimeoutMessage
  end.

(** What it makes a bare [fetch] throw. *)
Definition raw_failure_of (fr : fetch_result) : option error :=
  match fr with
  | Resolves _ => None
  | Rejects c => Some (FetchError c)
  | Aborts => Some AbortError
  end.

(** The backoffs of [n] consecutive attempts from attempt [first] on:
    [2^first] seconds, [2^(first+1)] seconds, ..., in milliseconds. *)
Definition backoffs (first n : nat) : list Z :=
  List.map (fun attempt => 2 ^ Z.of_nat attempt * 1000) (seq first n).

(** ** networkUtils.js *)

Module NetworkUtils.

Definition isCloudflareChallenge (r : response) (responseText : jsstring) : bool :=
  let serverHeader := toLowerCase (default [] (server r)) in
  if ((status r =? 403) || (status r =? 503))
     && (includes serverHeader (js "cloudflare")
         || includes serverHeader (js "cloudflare-nginx"))
  then includes responseText (js "cloudflare")
       || includes responseText (js "cf-browser-verification")
       || includes responseText (js "window._cf_chl_opt")
       || includes responseText (js "challenge-platform")
       || includes responseText (js "cf_clearance")
  else false.

(** An AbortError becomes the timeout message, any other error is rethrown. *)
Definition fetchWithTimeout (url : jsstring) : M response :=
  try_catch (fetch url)
    (fun error =>
       match error with
       | AbortError => throw TimeoutMessage
       | _ => throw error
       end).

(** The [config] argument; [onRetry] is null at every call of the
    repository and [timeoutMs] only sets when the environment aborts. *)
Record config := {
  maxRetries : nat;
  checkCloudflare : bool
}.

Definition default_config : config := {| maxRetries := 3; checkCloudflare := true |}.

Definition attempt_turn (cfg : config) (url : jsstring) (attempt : nat) : M turn :=
  try_catch
    (response <- fetchWithTimeout url ;;
     if checkCloudflare cfg && ((status response =? 403) || (status response =? 503))
     then
       text <- response_text response ;;
       if isCloudflareChallenge response text then
         if (attempt <? maxRetries cfg - 1)%nat then
           sleep (2 ^ (Z.of_nat attempt + 1) * 1000) ;;;
           ret TContinue
         else throw CloudflareNotBypassed
       else
         ret (TReturn {| status := status response;
                         server := server response;
                         text := Some text |})
     else ret (TReturn response))
    (fun error =>
       (if (attempt <? maxRetries cfg - 1)%nat
        then sleep (2 ^ Z.of_nat attempt * 1000)
        else ret tt) ;;;
       ret (TCaught error)).

Definition fetchWithRetry (url : jsstring) (cfg : config) : M response :=
  for_attempts (attempt_turn cfg url) (maxRetries cfg) 0 None.

(** [GET]: the default headers and the options do not change the control
    flow; they are not part of the model. *)
Definition GET (url : jsstring) (cfg : config) : M response := fetchWithRetry url cfg.

Definition parseJSON (r : response) : M jsvalue :=
  if negb (ok r) then throw (HttpError (status r))
  else
    text <- response_text r ;;
    if negb (str_truthy text) || (length (trim text) =? 0)%nat then ret VNull
    else
      e <- ask_env ;;
      match JSON_parse e text with
      | Some v => ret v
      | None => throw JsonError
      end.

(** The answer is not taken for a challenge: the check is off, or the
    status is neither 403 nor 503, or the body was read and
    [isCloudflareChallenge] is false. *)
Definition plain_answer (cfg : config) (r : response) : Prop :=
  checkCloudflare cfg = false
  \/ (status r =? 403) || (status r =? 503) = false
  \/ exists t, text r = Some t /\ isCloudflareChallenge r t = false.

(** No request for [url] is ever answered. *)
Definition unreachable (e : env) (url : jsstring) : Prop :=
  forall k, exists err, failure_of (remote e k url) = Some err.

(** Every request for [url] is answered by a challenge page. *)
Definition always_blocked (e : env) (url : jsstring) : Prop :=
  forall k, exists r t,
    remote e k url = Resolves r /\ text r = Some t /\ isCloudflareChallenge r t = true.

(** No request at all is ever answered. *)
Definition offline (e : env) : Prop := forall url, unreachable e url.

(** The pause after attempt [i]: [2^i] seconds after a thrown error,
    [2^(i+1)] seconds after a challenge. *)
Definition backoff_of (i : nat) (ms : Z) : Prop :=
  ms = 2 ^ Z.of_nat i * 1000 \/ ms = 2 ^ (Z.of_nat i + 1) * 1000.

(** *** RateLimiter *)

Record RateLimiter := {
  permits : Z;
  periodMs : Z;
  requestQueue : list Z
}.

Inductive acquired :=
| Granted                  (* the timestamp was pushed *)
| Wait (waitTime : Z).     (* the caller sleeps, then calls acquire again *)

(** The synchronous part of [acquire()] at clock reading [now]. On an
    empty queue [requestQueue[0]] is undefined, [waitTime] is NaN and
    [waitTime > 0] is false. *)
Definition acquire_once (now : Z) (l : RateLimiter) : acquired * RateLimiter :=
  let queue := List.filter (fun timestamp => now - timestamp <? periodMs l) (requestQueue l) in
  let pushed := {| permits := permits l; periodMs := periodMs l;
                   requestQueue := queue ++ [now] |} in
  let pruned := {| permits := permits l; periodMs := periodMs l;
                   requestQueue := queue |} in
  if Z.of_nat (length queue) >=? permits l then
    match queue with
    | oldestRequest :: _ =>
        let waitTime := periodMs l - (now - oldestRequest) in
        if waitTime >? 0 then (Wait waitTime, pruned) else (Granted, pushed)
    | [] => (Granted, pushed)
    end
  else (Granted, pushed).

(** [acquire()] of a single caller whose timer fires after exactly
    [waitTime]: the recursion, with [fuel] calls allowed. The result is the
    timestamp that was recorded. *)
Fixpoint acquire (fuel : nat) (now : Z) (l : RateLimiter) : option (Z * RateLimiter) :=
  match fuel with
  | O => None
  | S f =>
      match acquire_once now l with
      | (Granted, l') => Some (now, l')
      | (Wait waitTime, l') => acquire f (now + waitTime) l'
      end
  end.

(** Any number of callers: the calls of [acquire_once] happen one after
    the other at the given clock readings; the result is the list of
    recorded timestamps, oldest first. *)
Fixpoint run_acquires (times : list Z) (l : RateLimiter) : list Z * RateLimiter :=
  match times with
  | [] => ([], l)
  | now :: rest =>
      match acquire_once now l with
      | (Granted, l') => let (g, l'') := run_acquires rest l' in (now :: g, l'')
      | (Wait _, l') => run_acquires rest l'
      end
  end.

(** The test of the filter in [acquire]: [ts] is less than [period] old. *)
Definition fresh (period now ts : Z) : bool := now - ts <? period.

(** The clock readings of a schedule never go back. *)
Fixpoint nondecreasing (times : list Z) : bool :=
  match times with
  | a :: (b :: _) as rest => (a <=? b) && nondecreasing rest
  | _ => true
  end.

(** How many of the recorded timestamps lie in the window of length
    [period] that ends at [T], i.e. in (T - period, T]. *)
Definition in_window (period T : Z) (history : list Z) : nat :=
  length (List.filter (fun ts => (T - period <? ts) && (ts <=? T)) history).

(** A limiter with an empty queue, as the constructor builds it. *)
Definition new_limiter (permits periodMs : Z) : RateLimiter :=
  {| permits := permits; periodMs := periodMs; requestQueue := [] |}.

(** Callers that are served one after the other, as by a loop that awaits
    each [acquire()]: a caller arrives at its clock reading, its call
    starts at that reading or when the call before it has returned,
    whichever is later, and returns at the timestamp it recorded. The
    result is the list of recorded timestamps, one for each caller. *)
Fixpoint acquire_each (fuel : nat) (arrivals : list Z) (clock : Z) (l : RateLimiter)
  : option (list Z * RateLimiter) :=
  match arrivals with
  | [] => Some ([], l)
  | arrival :: rest =>
      match acquire fuel (Z.max arrival clock) l with
      | Some (t, l') =>
          match acquire_each fuel rest t l' with
          | Some (ts, l'') => Some (t :: ts, l'')
          | None => None
          end
      | None => None
      end
  end.

End NetworkUtils.

(** ** batoService *)

Module Bato.
Import Regex.

Definition BATO_DOMAINS : list jsstring :=
  [js "https://bato.to"; js "https://battwo.com"; js "https://mto.to"].

(** The value of [CURRENT_BATO_URL] when the module is loaded. *)
Definition initial_world : world :=
  {| trace := []; CURRENT_BATO_URL := js "https://bato.to" |}.

(** [extractAll(html, pattern)]: the pattern gets the flags [gi]; the loop
    calls [exec] until it answers null. A match of the empty string leaves
    [lastIndex] where it is, and the loop then never ends: this is what
    running out of [fuel] stands for. *)
Fixpoint extractAll_loop (fuel : nat) (pattern : regex) (s : jsstring)
  : outcome (list match_result) :=
  match fuel with
  | O => Diverges
  | S f =>
      match search true pattern s with
      | None => Returns []
      | Some mr =>
          match extractAll_loop f pattern (m_rest mr) with
          | Returns matches => Returns (mr :: matches)
          | other => other
          end
      end
  end.

Definition extractAll (html : jsstring) (pattern : regex) : outcome (list match_result) :=
  extractAll_loop (S (length html)) pattern html.

(** *** cloudflareBypassFetch and tryBatoDomains *)

(** The status and [server] header of the anti-bot edge. *)
Definition edge_answer (r : response) : bool :=
  let serverHeader := default [] (server r) in
  ((status r =? 403) || (status r =? 503))
  && (includes (toLowerCase serverHeader) (js "cloudflare")
      || includes (toLowerCase serverHeader) (js "cloudflare-nginx")).

Definition challenge_markers (text : jsstring) : bool :=
  includes text (js "cloudflare")
  || includes text (js "cf-browser-verification")
  || includes text (js "window._cf_chl_opt")
  || includes text (js "challenge-platform").

Definition cloudflare_turn (url : jsstring) (attempt : nat) : M turn :=
  try_catch
    (response <- fetch url ;;
     blocked <-
       (if edge_answer response
        then
          text <- response_text response ;;
          ret (challenge_markers text)
        else ret false) ;;
     if blocked then
       sleep (2000 * (Z.of_nat attempt + 1)) ;;;
       ret TContinue
     else if negb (ok response) && negb (status response =? 404)
     then throw (HttpError (status response))
     else ret (TReturn response))
    (fun error =>
       (if (attempt <? 3 - 1)%nat
        then sleep (2 ^ Z.of_nat attempt * 1000)
        else ret tt) ;;;
       ret (TCaught error)).

Definition cloudflareBypassFetch (url : jsstring) : M response :=
  for_attempts (cloudflare_turn url) 3 0 None.

(** Every request for [url] is answered by a challenge page of the edge. *)
Definition challenged (e : env) (url : jsstring) : Prop :=
  forall k, exists r t,
    remote e k url = Resolves r /\ edge_answer r = true
    /\ text r = Some t /\ challenge_markers t = true.

(** [for (const domain of BATO_DOMAINS)] over the domains still to try. *)
Fixpoint try_domains (domains : list jsstring) (path : jsstring) : M response :=
  match domains with
  | [] => throw AllDomainsFailed
  | domain :: rest =>
      r <- try_catch
             (response <- cloudflareBypassFetch (domain ++ path) ;;
              if ok response then
                write_current domain ;;;
                ret (Some response)
              else ret None)
             (fun _ => ret None) ;;
      match r with
      | Some response => ret response
      | None => try_domains rest path
      end
  end.

Definition tryBatoDomains (path : jsstring) : M response :=
  try_domains BATO_DOMAINS path.

(** The requests of one call of [tryBatoDomains]: [counts] attempts on
    each domain that was tried, in the order of the list. *)
Fixpoint attempts_on (path : jsstring) (domains : list jsstring) (counts : list nat)
  : list jsstring :=
  match domains, counts with
  | domain :: ds, k :: ks => repeat (domain ++ path) k ++ attempts_on path ds ks
  | _, _ => []
  end.

(** *** parseMangaCard *)

Definition not_quote_slash : regex :=
  Class true [CChar dquote; CChar 39%N; CChar 47%N].

(* href= quote /series/ (group 1: not quote or slash, once or more) ... quote *)
Definition re_href_series_id : regex :=
  cat [str "href="; quote; str "/series/"; Group 1 (plus not_quote_slash);
       star not_quote; quote].

(* href= quote (group 1: ... /title/ ...) quote *)
Definition re_href_title : regex :=
  cat [str "href="; quote;
       Group 1 (cat [star not_quote; str "/title/"; plus not_quote]); quote].

Definition re_href_series : regex :=
  cat [str "href="; quote;
       Group 1 (cat [star not_quote; str "/series/"; plus not_quote]); quote].

(* class= quote ... (title or name) ... quote ... > (group 1: text) < *)
Definition re_class_title : regex :=
  cat [str "class="; quote; star not_quote; alt [str "title"; str "name"];
       star not_quote; quote; star not_gt; str ">"; Group 1 (plus not_lt); str "<"].

Definition re_alt : regex :=
  cat [str "alt="; quote; Group 1 (plus not_quote); quote].

Definition re_title_attr : regex :=
  cat [str "title="; quote; Group 1 (plus not_quote); quote].

Definition re_src_cover : regex :=
  cat [str "src="; quote;
       Group 1 (cat [star not_quote; alt [str "cover"; str "thumb"; str "image"];
                     star not_quote]);
       quote].

Definition re_img_data_src : regex :=
  cat [str "<img"; star not_gt; str "data-src="; quote; Group 1 (plus not_quote); quote].

Definition re_img_src : regex :=
  cat [str "<img"; star not_gt; str "src="; quote; Group 1 (plus not_quote); quote].

(* (digits) spaces (ch or chapter or chapters) *)
Definition re_chapter_count : regex :=
  cat [Group 1 (plus digit); star space;
       alt [str "ch"; cat [str "chapter"; opt (str "s")]]].

(** [a || b || c] over the results of [match]. *)
Fixpoint first_match (patterns : list regex) (s : jsstring) : option match_result :=
  match patterns with
  | [] => None
  | p :: rest =>
      match str_match true p s with
      | Some mr => Some mr
      | None => first_match rest s
      end
  end.

(** [parseInt] of a run of decimal digits. *)
Definition parseInt_digits (s : jsstring) : N :=
  fold_left (fun acc c => (acc * 10 + (c - 48))%N) s 0%N.

Record MangaCard := {
  card_id : option jsstring;        (* null or undefined when absent *)
  card_url : option jsstring;
  card_title : jsstring;
  card_coverUrl : option jsstring;
  card_chapters : option N
}.

(** [current] is [CURRENT_BATO_URL] at the time of the call. No statement
    of the [try] block throws on a string, so the result is never null. *)
Definition parseMangaCard (current html : jsstring) : option MangaCard :=
  let urlMatch := first_match [re_href_series_id; re_href_title; re_href_series] html in
  let '(id, url) :=
    match urlMatch with
    | Some um =>
        let g := group1 um in
        if startsWith g (js "/") then
          (last_nonempty (split g 47%N), Some g)
        else if includes g (js "/series/") || includes g (js "/title/") then
          (last_nonempty (split g 47%N), Some g)
        else (Some g, Some (js "/series/" ++ g))
    | None => (None, None)
    end in
  let titleMatch := first_match [re_class_title; re_alt; re_title_attr] html in
  let title :=
    match titleMatch with
    | Some tm => trim (group1 tm)
    | None => js "Unknown Title"
    end in
  let coverMatch := first_match [re_src_cover; re_img_data_src; re_img_src] html in
  let coverUrl :=
    match coverMatch with
    | Some cm =>
        let c := group1 cm in
        if str_truthy c && negb (startsWith c (js "http")) then
          Some (if startsWith c (js "/") then current ++ c
                else current ++ js "/" ++ c)
        else Some c
    | None => None
    end in
  let chaptersMatch := str_match true re_chapter_count html in
  let chapters := option_map (fun cm => parseInt_digits (group1 cm)) chaptersMatch in
  Some {| card_id := id;
          card_url :=
            match url with
            | Some u =>
                if str_truthy u
                then Some (if startsWith u (js "http") then u else current ++ u)
                else None
            | None => None
            end;
          card_title := title;
          card_coverUrl := coverUrl;
          card_chapters := chapters |}.

(** *** searchBatoManga *)

Definition item_class : regex := alt [str "item-"; str "manga-"; str "series-"].

(* <div ... class= quote ... (item-|manga-|series-) *)
Definition re_item_div_open : regex :=
  cat [str "<div"; star not_gt; str "class="; quote; star not_quote; item_class].

Definition re_item_div : regex :=
  cat [re_item_div_open; star not_quote; quote; star not_gt; str ">";
       lazy_star any; Look (Alt re_item_div_open Eol)].

Definition re_item_anchor : regex :=
  cat [str "<a"; star not_gt; str "class="; quote; star not_quote;
       alt [str "item"; str "card"]; star not_quote; quote; star not_gt; str ">";
       lazy_star any; str "</a>"].

Definition re_article : regex :=
  cat [str "<article"; star not_gt; str ">"; lazy_star any; str "</article>"].

Definition mangaPatterns : list regex := [re_item_div; re_item_anchor; re_article].

(** The loop over the patterns: the first one with a match wins. *)
Fixpoint first_matches (patterns : list regex) (html : jsstring)
  : outcome (list match_result) :=
  match patterns with
  | [] => Returns []
  | pattern :: rest =>
      match extractAll html pattern with
      | Returns [] => first_matches rest html
      | other => other
      end
  end.

Record SearchResult := {
  r_id : jsstring;
  r_title : jsstring;
  r_coverUrl : option jsstring;
  r_description : jsstring;
  r_author : option jsstring;
  r_status : jsstring
}.


(** The body of [for (const cardMatch of mangaCards)]. *)
Definition card_result (current : jsstring) (cardMatch : match_result) : option SearchResult :=
  let card := m_text cardMatch in
  match parseMangaCard current card with
  | Some manga =>
      match card_id manga with
      | Some id =>
          if str_truthy id then
            Some {| r_id := id;
                    r_title := card_title manga;
                    r_coverUrl := card_coverUrl manga;
                    r_description := [];
                    r_author := None;
                    r_status := js "unknown" |}
          else None
      | None => None
      end
  | None => None
  end.


(** What [searchBatoManga] does with the markup it fetched. *)
Definition listing_records (current html : jsstring) : outcome (list SearchResult) :=
  match first_matches mangaPatterns html with
  | Returns mangaCards => Returns (firstn 20 (omap (card_result current) mangaCards))
  | Throws e => Throws e
  | Diverges => Diverges
  end.

Definition searchBatoManga (query : jsstring) : M (list SearchResult) :=
  try_catch
    (q <- encode query ;;
     let searchPath := js "/search?word=" ++ q in
     response <- tryBatoDomains searchPath ;;
     html <- response_text response ;;
     current <- read_current ;;
     lift (listing_records current html))
    (fun _ => ret []).

(** *** getBatoPopularManga and getBatoLatestUpdates *)

(** The loop over [paths] of the listing and page functions: [html] keeps
    the last text that was read; a text of more than 1000 code units ends
    the loop. *)
Fixpoint fetch_paths (paths : list jsstring) (html : jsstring) : M jsstring :=
  match paths with
  | [] => ret html
  | path :: rest =>
      r <- try_catch
             (response <- tryBatoDomains path ;;
              t <- response_text response ;;
              ret (Some t))
             (fun _ => ret None) ;;
      match r with
      | Some t => if (1000 <? length t)%nat then ret t else fetch_paths rest t
      | None => fetch_paths rest html
      end
  end.

Definition getBatoPopularManga : M (list SearchResult) :=
  try_catch
    (let paths := [js "/browse"; js "/browse?sort=views"; js "/browse?sort=popular";
                   js "/popular"; js "/"] in
     html <- fetch_paths paths [] ;;
     if negb (str_truthy html) then ret []
     else
       current <- read_current ;;
       lift (listing_records current html))
    (fun _ => ret []).

(** The latest updates use the first two patterns only. *)
Definition latest_records (current html : jsstring) : outcome (list SearchResult) :=
  match first_matches [re_item_div; re_item_anchor] html with
  | Returns mangaCards => Returns (firstn 20 (omap (card_result current) mangaCards))
  | Throws e => Throws e
  | Diverges => Diverges
  end.

Definition getBatoLatestUpdates : M (list SearchResult) :=
  try_catch
    (let paths := [js "/browse?sort=update"; js "/latest"; js "/recent"] in
     html <- fetch_paths paths [] ;;
     current <- read_current ;;
     lift (latest_records current html))
    (fun _ => ret []).

(** *** getBatoChapterPages *)

Definition array_body : regex := cat [str "["; lazy_star any; str "]"].

(* const images = [...]; *)
Definition re_const_images : regex :=
  cat [str "const"; plus space; str "images"; star space; str "="; star space;
       Group 1 array_body; str ";"].

Definition re_var_images : regex :=
  cat [str "var"; plus space; str "images"; star space; str "="; star space;
       Group 1 array_body; str ";"].

Definition re_images_colon : regex :=
  cat [str "images:"; star space; Group 1 array_body].

Definition re_pageList : regex :=
  cat [str "pageList"; star space; str "="; star space; Group 1 array_body].

(* the key images between double quotes, a colon, the array *)
Definition re_images_key : regex :=
  cat [Lit dquote; str "images"; Lit dquote; str ":"; star space; Group 1 array_body].

Definition jsPatterns : list regex :=
  [re_const_images; re_var_images; re_images_colon; re_pageList; re_images_key].

(* a comma, spaces, a closing bracket; and the same before a closing brace *)
Definition re_trailing_comma_bracket : regex := cat [str ","; star space; str "]"].
Definition re_trailing_comma_brace : regex := cat [str ","; star space; str "}"].

Definition re_img_class_page : regex :=
  cat [str "<img"; star not_gt; str "class="; quote; star not_quote; str "page";
       star not_quote; quote; star not_gt; str "src="; quote;
       Group 1 (plus not_quote); quote].

Definition re_img_id_image : regex :=
  cat [str "<img"; star not_gt; str "id="; quote; star not_quote; str "image";
       star not_quote; quote; star not_gt; str "src="; quote;
       Group 1 (plus not_quote); quote].

Definition re_img_data_src_page : regex :=
  cat [str "<img"; star not_gt; str "data-src="; quote; Group 1 (plus not_quote);
       quote; star not_gt; str "class="; quote; star not_quote; str "page"].

Definition imgPatterns : list regex :=
  [re_img_class_page; re_img_id_image; re_img_data_src_page].

(* digits . (jpg|jpeg|png|webp) *)
Definition re_numbered_image : regex :=
  cat [plus digit; str "."; Group 1 (alt [str "jpg"; str "jpeg"; str "png"; str "webp"])].

Record PageRecord := {
  p_url : jsstring;
  p_page : nat
}.

Definition absolute (current u : jsstring) : jsstring :=
  if startsWith u (js "http") then u else current ++ u.

(** The callback of [images.map]: [item.url] throws on null, and
    [url.startsWith] is not a function unless [url] is a string. *)
Definition image_page (current : jsstring) (item : jsvalue) (index : nat)
  : outcome PageRecord :=
  let url :=
    match item with
    | VStr _ => Returns item
    | _ =>
        match get_prop item (js "url") with
        | Returns a =>
            if truthy a then Returns a
            else
              match get_prop item (js "src") with
              | Returns b => Returns (js_or b item)
              | other => other
              end
        | other => other
        end
    end in
  match url with
  | Returns (VStr u) => Returns {| p_url := absolute current u; p_page := index + 1 |}
  | Returns _ => Throws TypeError
  | Throws e => Throws e
  | Diverges => Diverges
  end.

(** [images.map(callback)], the first throw ends it. *)
Fixpoint image_pages (current : jsstring) (items : list jsvalue) (index : nat)
  : outcome (list PageRecord) :=
  match items with
  | [] => Returns []
  | item :: rest =>
      match image_page current item index with
      | Returns p =>
          match image_pages current rest (S index) with
          | Returns ps => Returns (p :: ps)
          | other => other
          end
      | Throws e => Throws e
      | Diverges => Diverges
      end
  end.

(** Method 1, one turn of [for (const pattern of jsPatterns)]: [Some] is
    the [return] inside the inner [try], [None] goes on to the next
    pattern (no match, not a non-empty array, or the catch block). *)
Definition js_data_pages (parse : jsstring -> option jsvalue) (current html : jsstring)
  (pattern : regex) : option (list PageRecord) :=
  match str_match true pattern html with
  | Some dataMatch =>
      let imagesJson :=
        replace_all false re_trailing_comma_brace (js "}")
          (replace_all false re_trailing_comma_bracket (js "]") (group1 dataMatch)) in
      match parse imagesJson with
      | Some (VArr (item :: items)) =>
          match image_pages current (item :: items) 0 with
          | Returns pages => Some pages
          | _ => None
          end
      | _ => None
      end
  | None => None
  end.

Fixpoint method1 (parse : jsstring -> option jsvalue) (current html : jsstring)
  (patterns : list regex) : option (list PageRecord) :=
  match patterns with
  | [] => None
  | pattern :: rest =>
      match js_data_pages parse current html pattern with
      | Some pages => Some pages
      | None => method1 parse current html rest
      end
  end.

(** [matches.map((match, index) => ...)] of methods 2 and 3. *)
Definition match_pages (current : jsstring) (matches : list match_result) : list PageRecord :=
  imap (fun index mr => {| p_url := absolute current (group1 mr); p_page := index + 1 |})
       matches.

(** Method 2: the first pattern of [imgPatterns] with a match. *)
Fixpoint method2 (current html : jsstring) (patterns : list regex)
  : outcome (option (list PageRecord)) :=
  match patterns with
  | [] => Returns None
  | pattern :: rest =>
      match extractAll html pattern with
      | Returns [] => method2 current html rest
      | Returns imgMatches => Returns (Some (match_pages current imgMatches))
      | Throws e => Throws e
      | Diverges => Diverges
      end
  end.

Definition looks_like_page (mr : match_result) : bool :=
  let url := group1 mr in
  includes url (js "/pages/") || includes url (js "/images/")
  || test true re_numbered_image url.

(** Method 3 and the final [return []]. *)
Definition method3 (current html : jsstring) : outcome (list PageRecord) :=
  match extractAll html re_img_src with
  | Returns allImgMatches =>
      let pageImages := List.filter looks_like_page allImgMatches in
      Returns (match_pages current pageImages)
  | Throws e => Throws e
  | Diverges => Diverges
  end.

(** What [getBatoChapterPages] does with the markup it holds. *)
Definition page_records (parse : jsstring -> option jsvalue) (current html : jsstring)
  : outcome (list PageRecord) :=
  match method1 parse current html jsPatterns with
  | Some pages => Returns pages
  | None =>
      match method2 current html imgPatterns with
      | Returns (Some pages) => Returns pages
      | Returns None => method3 current html
      | Throws e => Throws e
      | Diverges => Diverges
      end
  end.

(** The page numbers are 1, 2, 3, ... in the order of the list, and the
    page URLs are absolute when [current] is. *)
Definition numbered_pages (current : jsstring) (pages : list PageRecord) : Prop :=
  List.map p_page pages = seq 1 (length pages)
  /\ (startsWith current (js "http") = true ->
      Forall (fun p => startsWith (p_url p) (js "http") = true) pages).

Definition getBatoChapterPages (chapterId : jsstring) : M (list PageRecord) :=
  try_catch
    (let paths := [js "/chapter/" ++ chapterId; js "/read/" ++ chapterId] in
     html <- fetch_paths paths [] ;;
     e <- ask_env ;;
     current <- read_current ;;
     lift (page_records (JSON_parse e) current html))
    (fun _ => ret []).

(** *** testBatoConnection *)

Definition testBatoConnection : M bool :=
  try_catch
    (response <- tryBatoDomains (js "/") ;;
     ret (ok response))
    (fun _ => ret false).

(** *** What the service asks of the network *)

(** A request for one of [paths] on one of the mirror domains. *)
Definition mirror_request (paths : list jsstring) (url : jsstring) : Prop :=
  exists domain path, domain ∈ BATO_DOMAINS /\ path ∈ paths /\ url = domain ++ path.

(** The call [c] either leaves [CURRENT_BATO_URL] as it was or sets it to
    a mirror domain, and all it requests are the [paths] on the mirror
    domains, each path at most three times on each domain. *)
Definition stays_on_mirrors {A} (c : M A) (paths : list jsstring) (e : env) (w : world)
  : Prop :=
  let w' := snd (c e w) in
  (CURRENT_BATO_URL w' = CURRENT_BATO_URL w \/ CURRENT_BATO_URL w' ∈ BATO_DOMAINS)
  /\ exists urls,
       fetched (trace w') = fetched (trace w) ++ urls
       /\ (length urls <= 9 * length paths)%nat
       /\ Forall (mirror_request paths) urls.

End Bato.

(** ** cacheManager *)

Module Cache.

Record entry := {
  value : jsvalue;
  expiresAt : option Z;      (* null when written without a TTL *)
  cachedAt : Z
}.

(** [ttl ? Date.now() + ttl : null]: a TTL of 0 is falsy, like null. *)
Definition expiry (ttl : option Z) (now : Z) : option Z :=
  match ttl with
  | Some t => if t =? 0 then None else Some (now + t)
  | None => None
  end.

(** [entry.expiresAt && Date.now() > entry.expiresAt] *)
Definition expired (e : entry) (now : Z) : bool :=
  match expiresAt e with
  | Some x => negb (x =? 0) && (now >? x)
  | None => false
  end.

Record MemoryCache := {
  cache : gmap jsstring entry;
  maxSize : Z;
  accessOrder : list jsstring
}.

(** [new MemoryCache(maxSize)] *)
Definition new_cache (maxSize : Z) : MemoryCache :=
  {| cache := ∅; maxSize := maxSize; accessOrder := [] |}.

(** [index = order.indexOf(key); if (index > -1) order.splice(index, 1)] *)
Fixpoint remove_first (key : jsstring) (order : list jsstring) : list jsstring :=
  match order with
  | [] => []
  | k :: rest => if decide (k = key) then rest else k :: remove_first key rest
  end.

(** The access-order update, followed by [order.push(key)]. *)
Definition touch (key : jsstring) (order : list jsstring) : list jsstring :=
  remove_first key order ++ [key].

(** [get(key)] at clock reading [now]; null is [VNull]. *)
Definition get (key : jsstring) (now : Z) (c : MemoryCache) : jsvalue * MemoryCache :=
  match cache c !! key with
  | None => (VNull, c)
  | Some e =>
      if expired e now then
        (VNull, {| cache := delete key (cache c);
                   maxSize := maxSize c;
                   accessOrder := accessOrder c |})
      else
        (value e, {| cache := cache c;
                     maxSize := maxSize c;
                     accessOrder := touch key (accessOrder c) |})
  end.

(** [set(key, value, ttl)] at clock reading [now]. [shift()] of an empty
    order gives undefined, which is no key of the map. *)
Definition set (key : jsstring) (v : jsvalue) (ttl : option Z) (now : Z)
  (c : MemoryCache) : MemoryCache :=
  let evicted :=
    if (Z.of_nat (size (cache c)) >=? maxSize c) && negb (bool_decide (is_Some (cache c !! key)))
    then
      match accessOrder c with
      | oldestKey :: rest => (delete oldestKey (cache c), rest)
      | [] => (cache c, [])
      end
    else (cache c, accessOrder c) in
  let e := {| value := v; expiresAt := expiry ttl now; cachedAt := now |} in
  {| cache := <[key := e]> (fst evicted);
     maxSize := maxSize c;
     accessOrder := touch key (snd evicted) |}.

(** [has(key)]: [this.get(key) !== null] *)
Definition has (key : jsstring) (now : Z) (c : MemoryCache) : bool * MemoryCache :=
  let (v, c') := get key now c in
  (match v with VNull => false | _ => true end, c').

(** [delete(key)] *)
Definition delete_key (key : jsstring) (c : MemoryCache) : bool * MemoryCache :=
  (bool_decide (is_Some (cache c !! key)),
   {| cache := delete key (cache c);
      maxSize := maxSize c;
      accessOrder := remove_first key (accessOrder c) |}).

Definition clear (c : MemoryCache) : MemoryCache :=
  {| cache := ∅; maxSize := maxSize c; accessOrder := [] |}.

Definition cache_size (c : MemoryCache) : nat := size (cache c).

(** [CACHE_EXPIRATION.MANGA] and the global [mangaCache]. *)
Definition CACHE_EXPIRATION_MANGA : Z := 6 * 60 * 60 * 1000.
Definition mangaCache : MemoryCache := new_cache 50.

(** A sequence of calls on one memory cache, each with its clock reading. *)
Inductive op :=
| OpGet (key : jsstring) (now : Z)
| OpSet (key : jsstring) (v : jsvalue) (ttl : option Z) (now : Z)
| OpDelete (key : jsstring).

Definition step (c : MemoryCache) (o : op) : MemoryCache :=
  match o with
  | OpGet key now => snd (get key now c)
  | OpSet key v ttl now => set key v ttl now c
  | OpDelete key => snd (delete_key key c)
  end.

Definition run (ops : list op) (c : MemoryCache) : MemoryCache := fold_left step ops c.

(** The state a memory cache is meant to be in: the access order lists
    the stored keys, each once, and the bound holds. *)
Definition well_formed (c : MemoryCache) : Prop :=
  NoDup (accessOrder c)
  /\ (forall k, k ∈ accessOrder c <-> is_Some (cache c !! k))
  /\ Z.of_nat (size (cache c)) <= maxSize c.

(** No entry carries an expiry, and no write gives one. *)
Definition no_expiry (c : MemoryCache) : Prop :=
  forall k e, cache c !! k = Some e -> expiresAt e = None.

Definition without_ttl (o : op) : Prop :=
  match o with
  | OpSet _ _ ttl _ => ttl = None
  | _ => True
  end.

(** No read of the sequence meets an entry whose expiry has passed. *)
Fixpoint no_expired_read (ops : list op) (c : MemoryCache) : Prop :=
  match ops with
  | [] => True
  | o :: rest =>
      match o with
      | OpGet key now => forall e, cache c !! key = Some e -> expired e now = false
      | _ => True
      end
      /\ no_expired_read rest (step c o)
  end.

(** *** The persistent tier

    AsyncStorage maps keys to JSON text. [stringify] and [parse] stand for
    [JSON.stringify] and [JSON.parse] on the record that [saveToStorage]
    writes; [parse] answers [None] where [JSON.parse] throws. The store
    itself is taken to be reliable. *)

Section Storage.

Variable stringify : entry -> jsstring.
Variable parse : jsstring -> option entry.

Definition getFromStorage (key : jsstring) (now : Z) (store : gmap jsstring jsstring)
  : jsvalue * gmap jsstring jsstring :=
  match store !! key with
  | None => (VNull, store)
  | Some data =>
      if negb (str_truthy data) then (VNull, store)
      else
        match parse data with
        | None => (VNull, store)                (* the catch block *)
        | Some parsed =>
            if expired parsed now then (VNull, delete key store)
            else (value parsed, store)
        end
  end.

Definition saveToStorage (key : jsstring) (v : jsvalue) (ttl : option Z) (now : Z)
  (store : gmap jsstring jsstring) : gmap jsstring jsstring :=
  let data := {| value := v; expiresAt := expiry ttl now; cachedAt := now |} in
  <[key := stringify data]> store.

(** *** CoverCache, the two tiers together *)

Definition CACHE_KEYS_COVERS : jsstring := js "inkora_covers_".
Definition CACHE_EXPIRATION_COVERS : Z := 7 * 24 * 60 * 60 * 1000.

Record tiers := {
  coverCache : MemoryCache;
  asyncStorage : gmap jsstring jsstring
}.

Definition CoverCache_get (mangaId : jsstring) (now : Z) (t : tiers) : jsvalue * tiers :=
  let (cover, mem) := get mangaId now (coverCache t) in
  if truthy cover then (cover, {| coverCache := mem; asyncStorage := asyncStorage t |})
  else
    let (cover', store) := getFromStorage (CACHE_KEYS_COVERS ++ mangaId) now (asyncStorage t) in
    let mem' :=
      if truthy cover' then set mangaId cover' (Some CACHE_EXPIRATION_COVERS) now mem
      else mem in
    (cover', {| coverCache := mem'; asyncStorage := store |}).

Definition CoverCache_set (mangaId : jsstring) (coverUrl : jsvalue) (now : Z) (t : tiers)
  : tiers :=
  {| coverCache := set mangaId coverUrl (Some CACHE_EXPIRATION_COVERS) now (coverCache t);
     asyncStorage := saveToStorage (CACHE_KEYS_COVERS ++ mangaId) coverUrl
                       (Some CACHE_EXPIRATION_COVERS) now (asyncStorage t) |}.

Definition CoverCache_delete (mangaId : jsstring) (t : tiers) : tiers :=
  {| coverCache := snd (delete_key mangaId (coverCache t));
     asyncStorage := delete (CACHE_KEYS_COVERS ++ mangaId) (asyncStorage t) |}.

(** [keys = await AsyncStorage.getAllKeys()], the filter on the prefix,
    and [AsyncStorage.multiRemove] of the keys that were selected. *)
Definition remove_prefixed (prefix : jsstring) (store : gmap jsstring jsstring)
  : gmap jsstring jsstring :=
  let keys := List.map fst (map_to_list store) in
  let selected := List.filter (fun key => startsWith key prefix) keys in
  foldr delete store selected.

Definition CoverCache_clear (t : tiers) : tiers :=
  {| coverCache := clear (coverCache t);
     asyncStorage := remove_prefixed CACHE_KEYS_COVERS (asyncStorage t) |}.

(** *** ExtensionsCache: the persistent tier only, under one key *)

Definition CACHE_KEYS_EXTENSIONS : jsstring := js "inkora_extensions".
Definition CACHE_EXPIRATION_EXTENSIONS : Z := 24 * 60 * 60 * 1000.

Definition ExtensionsCache_get (now : Z) (store : gmap jsstring jsstring)
  : jsvalue * gmap jsstring jsstring :=
  getFromStorage CACHE_KEYS_EXTENSIONS now store.

Definition ExtensionsCache_set (extensions : jsvalue) (now : Z)
  (store : gmap jsstring jsstring) : gmap jsstring jsstring :=
  saveToStorage CACHE_KEYS_EXTENSIONS extensions (Some CACHE_EXPIRATION_EXTENSIONS) now store.

Definition ExtensionsCache_clear (store : gmap jsstring jsstring) : gmap jsstring jsstring :=
  delete CACHE_KEYS_EXTENSIONS store.

(** *** Preferences: the persistent tier only, written without a TTL *)

Definition CACHE_KEYS_PREFERENCES : jsstring := js "inkora_prefs_".

(** [value !== null ? value : defaultValue] *)
Definition Preferences_get (key : jsstring) (defaultValue : jsvalue) (now : Z)
  (store : gmap jsstring jsstring) : jsvalue * gmap jsstring jsstring :=
  let (v, store') := getFromStorage (CACHE_KEYS_PREFERENCES ++ key) now store in
  (match v with VNull => defaultValue | _ => v end, store').

Definition Preferences_set (key : jsstring) (v : jsvalue) (now : Z)
  (store : gmap jsstring jsstring) : gmap jsstring jsstring :=
  saveToStorage (CACHE_KEYS_PREFERENCES ++ key) v None now store.

Definition Preferences_delete (key : jsstring) (store : gmap jsstring jsstring)
  : gmap jsstring jsstring :=
  delete (CACHE_KEYS_PREFERENCES ++ key) store.

Definition Preferences_clear (store : gmap jsstring jsstring) : gmap jsstring jsstring :=
  remove_prefixed CACHE_KEYS_PREFERENCES store.

End Storage.

End Cache.

(** ** sourceManager.js *)

Module SourceManager.

Inductive SourceType := HTTP | LOCAL | STUB.

Inductive Service := BatoService | XbatoService.

Record Source := {
  id : jsstring;
  name : jsstring;
  lang : jsstring;
  baseUrl : jsstring;
  type : SourceType;
  versionId : Z;
  supportsLatest : option bool;
  isNsfw : option bool;
  service : option Service;
  isConfigurable : option bool;
  isStub : bool
}.

(** What [registerSource] is given: a descriptor whose [id] may be missing. *)
Record descriptor := {
  d_id : option jsstring;
  d_name : jsstring;
  d_lang : jsstring;
  d_baseUrl : jsstring;
  d_type : SourceType;
  d_versionId : Z;
  d_supportsLatest : option bool;
  d_isNsfw : option bool;
  d_service : option Service
}.

Record manager := {
  sources : gmap jsstring Source;
  stubSources : gmap jsstring Source;
  isInitialized : bool
}.

Definition new_manager : manager :=
  {| sources := ∅; stubSources := ∅; isInitialized := false |}.

(** ToInt32 *)
Definition toInt32 (z : Z) : Z := (z + 2 ^ 31) mod 2 ^ 32 - 2 ^ 31.

(** [hash = ((hash << 5) - hash) + char; hash = hash & hash] *)
Definition hash_step (hash : Z) (char : N) : Z :=
  toInt32 (toInt32 (Z.shiftl hash 5) - hash + Z.of_N char).

Definition generateSourceId (name lang : jsstring) : jsstring :=
  let str := toLowerCase name ++ js "/" ++ lang ++ js "/" ++ js "1" in
  N_toString (Z.to_N (Z.abs (fold_left hash_step str 0))).

Definition enrich (source : descriptor) : Source :=
  {| id := match d_id source with
           | Some i => if str_truthy i then i
                       else generateSourceId (d_name source) (d_lang source)
           | None => generateSourceId (d_name source) (d_lang source)
           end;
     name := d_name source;
     lang := d_lang source;
     baseUrl := d_baseUrl source;
     type := d_type source;
     versionId := d_versionId source;
     supportsLatest := d_supportsLatest source;
     isNsfw := d_isNsfw source;
     service := d_service source;
     isConfigurable := Some false;
     isStub := false |}.

Definition registerSource (source : descriptor) (m : manager) : manager :=
  let enrichedSource := enrich source in
  {| sources := <[id enrichedSource := enrichedSource]> (sources m);
     stubSources := stubSources m;
     isInitialized := isInitialized m |}.

Definition stub (sourceId sourceName : jsstring) : Source :=
  {| id := sourceId;
     name := sourceName;
     lang := js "unknown";
     baseUrl := [];
     type := STUB;
     versionId := 0;
     supportsLatest := None;
     isNsfw := None;
     service := None;
     isConfigurable := None;
     isStub := true |}.

Definition registerStubSource (sourceId sourceName : jsstring) (m : manager) : manager :=
  {| sources := sources m;
     stubSources := <[sourceId := stub sourceId sourceName]> (stubSources m);
     isInitialized := isInitialized m |}.

(** [getSource(sourceId)]: the Source or null, and the manager afterwards. *)
Definition getSource (sourceId : jsstring) (m : manager) : option Source * manager :=
  (sources m !! sourceId, m).

Definition createStubSource (sourceId : jsstring) (m : manager) : Source * manager :=
  let s := stub sourceId (js "Source " ++ sourceId) in
  (s, {| sources := sources m;
         stubSources := <[sourceId := s]> (stubSources m);
         isInitialized := isInitialized m |}).

(** [sources.get(id) || stubSources.get(id) || createStubSource(id)] *)
Definition getSourceOrStub (sourceId : jsstring) (m : manager) : Source * manager :=
  match sources m !! sourceId with
  | Some s => (s, m)
  | None =>
      match stubSources m !! sourceId with
      | Some s => (s, m)
      | None => createStubSource sourceId m
      end
  end.

Definition clear (m : manager) : manager := new_manager.

Definition BUILT_IN_SOURCES : list descriptor :=
  [ {| d_id := Some (js "bato_to"); d_name := js "Bato"; d_lang := js "en";
       d_baseUrl := js "https://bato.to"; d_type := HTTP; d_versionId := 1;
       d_supportsLatest := Some true; d_isNsfw := Some false;
       d_service := Some BatoService |};
    {| d_id := Some (js "xbato_com"); d_name := js "Xbato"; d_lang := js "en";
       d_baseUrl := js "https://xbato.com"; d_type := HTTP; d_versionId := 1;
       d_supportsLatest := Some true; d_isNsfw := Some false;
       d_service := Some XbatoService |};
    {| d_id := Some (js "mangadex_org"); d_name := js "MangaDex"; d_lang := js "all";
       d_baseUrl := js "https://mangadex.org"; d_type := HTTP; d_versionId := 1;
       d_supportsLatest := Some true; d_isNsfw := Some false;
       d_service := None |} ].

(** [initialize()], listeners aside. *)
Definition initialize (m : manager) : manager :=
  if isInitialized m then m
  else
    let m' := fold_left (fun acc source => registerSource source acc) BUILT_IN_SOURCES m in
    {| sources := sources m'; stubSources := stubSources m'; isInitialized := true |}.

(** What the two maps are meant to hold: every source under its own
    identifier; descriptors that were registered in [sources], stubs in
    [stubSources]. *)
Definition registry_ok (m : manager) : Prop :=
  (forall k s, sources m !! k = Some s -> id s = k /\ isStub s = false)
  /\ (forall k s, stubSources m !! k = Some s -> id s = k /\ isStub s = true /\ type s = STUB).

End SourceManager.

(** ** xbatoService *)

Module Xbato.

Definition XBATO_API_BASE : jsstring := js "https://xbato-api.hanifu.id".

Definition fetchXbatoApi (url : jsstring) : M jsvalue :=
  response <- NetworkUtils.GET url
                {| NetworkUtils.maxRetries := 2; NetworkUtils.checkCloudflare := false |} ;;
  NetworkUtils.parseJSON response.

Record XbatoResult := {
  x_id : jsvalue;
  x_title : jsvalue;
  x_description : jsvalue;
  x_coverUrl : jsvalue;
  x_author : jsvalue;
  x_status : jsvalue;
  x_type : jsvalue;
  x_originalUrl : jsvalue
}.

(** [item.a || item.b || ... || fallback]; only the first read can throw. *)
Fixpoint props_or (item : jsvalue) (names : list string) (fallback : jsvalue)
  : outcome jsvalue :=
  match names with
  | [] => Returns fallback
  | n :: rest =>
      match get_prop item (js n) with
      | Returns v => if truthy v then Returns v else props_or item rest fallback
      | other => other
      end
  end.

(** [a || b] without a fallback: the last operand is the result. *)
Definition props_or2 (item : jsvalue) (a b : string) : outcome jsvalue :=
  match get_prop item (js a) with
  | Returns v => if truthy v then Returns v else get_prop item (js b)
  | other => other
  end.

Definition obind {A B} (o : outcome A) (f : A -> outcome B) : outcome B :=
  match o with
  | Returns a => f a
  | Throws e => Throws e
  | Diverges => Diverges
  end.

Definition map_item (item : jsvalue) : outcome XbatoResult :=
  obind (props_or2 item "url" "link") (fun i =>
  obind (props_or2 item "title" "name") (fun t =>
  obind (props_or item ["description"; "synopsis"] (VStr [])) (fun d =>
  obind (props_or item ["image"; "thumbnail"; "cover"] VNull) (fun c =>
  obind (props_or item ["author"] VNull) (fun a =>
  obind (props_or item ["status"] (VStr (js "unknown"))) (fun s =>
  obind (props_or item ["type"] (VStr (js "manga"))) (fun ty =>
  obind (props_or2 item "url" "link") (fun o =>
  Returns {| x_id := i; x_title := t; x_description := d; x_coverUrl := c;
             x_author := a; x_status := s; x_type := ty; x_originalUrl := o |})))))))).

Fixpoint map_items (items : list jsvalue) : outcome (list XbatoResult) :=
  match items with
  | [] => Returns []
  | item :: rest =>
      obind (map_item item) (fun r =>
      obind (map_items rest) (fun rs => Returns (r :: rs)))
  end.

Definition searchXbatoManga (query : jsstring) : M (list XbatoResult) :=
  try_catch
    (if (length (trim query) <? 3)%nat then ret []
     else
       q <- encode query ;;
       let url := XBATO_API_BASE ++ js "/search?query=" ++ q in
       data <- fetchXbatoApi url ;;
       match data with
       | VArr items => lift (map_items items)
       | _ => ret []
       end)
    (fun _ => ret []).

(** *** getXbatoChapterPages

    [encodeBase64] is [btoa] with its fallback: it answers the encoded
    text, or throws where both throw. *)

Section Base64.

Variable encodeBase64 : jsstring -> jsstring + error.

Record XbatoPage := {
  xp_url : jsvalue;
  xp_page : nat
}.

(** [images.map((imageUrl, index) => ({ url: imageUrl, page: index + 1 }))] *)
Definition numbered (images : list jsvalue) : list XbatoPage :=
  imap (fun index imageUrl => {| xp_url := imageUrl; xp_page := index + 1 |}) images.

Definition getXbatoChapterPages (chapterUrl : jsstring) : M (list XbatoPage) :=
  try_catch
    (encodedUrl <- match encodeBase64 chapterUrl with
                   | inl encoded => ret encoded
                   | inr err => throw err
                   end ;;
     let url := XBATO_API_BASE ++ js "/images/" ++ encodedUrl in
     data <- fetchXbatoApi url ;;
     if negb (truthy data) then ret []
     else
       match data with
       | VArr images => ret (numbered images)
       | _ =>
           images <- lift (get_prop data (js "images")) ;;
           match images with
           | VArr images => ret (numbered images)
           | _ => ret []
           end
       end)
    (fun _ => ret []).

End Base64.

End Xbato.

(** ** mangaService.js: the test that routes a source to the Bato service *)

Module MangaService.

(** [isBatoSource(source)]; [None] is a null or undefined source. *)
Definition isBatoSource (source : option SourceManager.Source) : bool :=
  match source with
  | None => false
  | Some s =>
      if negb (str_truthy (SourceManager.baseUrl s)) then false
      else
        let url := toLowerCase (SourceManager.baseUrl s) in
        includes url (js "bato")
        || includes url (js "ruru.to")
        || includes url (js "xdxd.to")
        || includes url (js "batocc.com")
        || includes url (js "mto.to")
  end.

End MangaService.

(** * Sample inputs *)

Module Samples.

(** An environment in which no host ever answers. *)
Definition silent_env : env :=
  {| remote := fun _ _ => Aborts;
     JSON_parse := fun _ => None;
     encodeURIComponent := fun s => Some s |}.

(** A memory cache of capacity 2: two writes, a read that finds the first
    entry expired, two more writes. *)
Definition expiring_reads : list Cache.op :=
  [ Cache.OpSet (js "a") (VStr (js "cover-a")) (Some 10) 0;
    Cache.OpSet (js "b") (VStr (js "cover-b")) None 0;
    Cache.OpGet (js "a") 20;
    Cache.OpSet (js "c") (VStr (js "cover-c")) None 20;
    Cache.OpSet (js "d") (VStr (js "cover-d")) None 20 ].

(** The manga cache in use: the details of the manga 1 to 50 are cached
    at time 0 with the TTL of the namespace; just after that TTL manga 1
    is read, then two other manga are cached. *)
Definition manga_details (mangaId : jsstring) (now : Z) : Cache.op :=
  Cache.OpSet mangaId (VStr (js "details of " ++ mangaId))
    (Some Cache.CACHE_EXPIRATION_MANGA) now.

Definition fifty_manga : list Cache.op :=
  List.map (fun i => manga_details (N_toString (N.of_nat i)) 0) (seq 1 50).

Definition read_after_expiry : list Cache.op :=
  fifty_manga ++ [Cache.OpGet (js "1") (Cache.CACHE_EXPIRATION_MANGA + 1)].

Definition two_more_manga : list Cache.op :=
  [ manga_details (js "51") (Cache.CACHE_EXPIRATION_MANGA + 2);
    manga_details (js "52") (Cache.CACHE_EXPIRATION_MANGA + 3) ].

(** A JSON codec that knows one record. *)
Definition one_entry : Cache.entry :=
  {| Cache.value := VStr (js "cover"); Cache.expiresAt := Some 1500; Cache.cachedAt := 1000 |}.
Definition one_stringify (e : Cache.entry) : jsstring := js "{...}".
Definition one_parse (s : jsstring) : option Cache.entry := Some one_entry.

(** The same key written with TTL 0 at time 1000, in both tiers. *)
Definition zero_ttl_cache : Cache.MemoryCache :=
  Cache.set (js "k") (VStr (js "cover")) (Some 0) 1000 (Cache.new_cache 50).
Definition zero_ttl_store : gmap jsstring jsstring :=
  Cache.saveToStorage one_stringify (js "k") (VStr (js "cover")) (Some 0) 1000 ∅.
Definition zero_ttl_parse (s : jsstring) : option Cache.entry :=
  Some {| Cache.value := VStr (js "cover");
          Cache.expiresAt := Cache.expiry (Some 0) 1000;
          Cache.cachedAt := 1000 |}.

(** Responses: a page, an interstitial of the anti-bot edge, a plain
    server error, a missing page. *)
Definition page200 : response :=
  {| status := 200; server := Some (js "nginx"); text := Some (js "<html>ok</html>") |}.
Definition challenge503 : response :=
  {| status := 503; server := Some (js "cloudflare");
     text := Some (js "<html><div id='cf-browser-verification'>wait</div></html>") |}.
Definition error500 : response :=
  {| status := 500; server := Some (js "nginx"); text := Some (js "Internal Server Error") |}.
Definition missing404 : response :=
  {| status := 404; server := Some (js "nginx"); text := Some (js "Not Found") |}.

Definition host_functions (r : nat -> jsstring -> fetch_result) : env :=
  {| remote := r; JSON_parse := fun _ => None; encodeURIComponent := fun s => Some s |}.

(** The first two requests meet the challenge, the third is answered. *)
Definition challenged_twice : env :=
  host_functions (fun n _ => if (n <? 2)%nat then Resolves challenge503 else Resolves page200).

(** Every request meets the challenge; every request gets a 500. *)
Definition always_challenged : env := host_functions (fun _ _ => Resolves challenge503).
Definition always_500 : env := host_functions (fun _ _ => Resolves error500).

(** The first two mirror domains are unreachable, the third answers. *)
Definition third_mirror_only : env :=
  host_functions (fun _ url =>
    if startsWith url (js "https://mto.to") then Resolves page200 else Rejects 7).

Definition sample_url : jsstring := js "https://example.org/list".

(** The world after a first search on [third_mirror_only]. *)
Definition after_first_search : world :=
  snd (Bato.tryBatoDomains (js "/search?word=a") third_mirror_only Bato.initial_world).

(** The configuration of the callers that switch the challenge check off. *)
Definition unchecked_config : NetworkUtils.config :=
  {| NetworkUtils.maxRetries := 3; NetworkUtils.checkCloudflare := false |}.

Definition challenge_body : jsstring :=
  js "<html><div id='cf-browser-verification'>wait</div></html>".

(** Listing markup: one block per title, a block without any link, and
    a block with a link but neither title nor image. *)
Definition listing_block (id title : jsstring) : jsstring :=
  js "<div class='item-card'><a href='/series/" ++ id ++ js "'><img src='/covers/"
  ++ id ++ js ".jpg' alt='" ++ title ++ js "'></a></div>".

Definition block_without_id : jsstring :=
  js "<div class='item-card'><span class='title'>No link</span></div>".


Definition three_and_one : jsstring :=
  listing_block (js "101") (js "A") ++ listing_block (js "102") (js "B")
  ++ block_without_id ++ listing_block (js "103") (js "C").


Definition bato : jsstring := js "https://bato.to".


(** After a restart: the cover of manga 7 is in AsyncStorage, written at
    time 0 with the TTL of the namespace; the memory tier is empty. *)
Definition stored_cover : Cache.entry :=
  {| Cache.value := VStr (js "https://bato.to/covers/7.jpg");
     Cache.expiresAt := Some Cache.CACHE_EXPIRATION_COVERS;
     Cache.cachedAt := 0 |}.
Definition cover_parse (s : jsstring) : option Cache.entry := Some stored_cover.
Definition after_restart : Cache.tiers :=
  {| Cache.coverCache := Cache.new_cache 100;
     Cache.asyncStorage := {[ Cache.CACHE_KEYS_COVERS ++ js "7" := js "{...}" ]} |}.

(** The first two requests get no answer, the third is answered. *)
Definition failing_twice : env :=
  host_functions (fun n _ => if (n <? 2)%nat then Rejects 7 else Resolves page200).

(** Two article blocks with text before, between and after them. *)
Definition two_articles : jsstring :=
  js "<p>top</p><article class='a'>one</article> and <ARTICLE>two</ARTICLE><p>end</p>".

(** A search of the Xbato API that is answered with two items, one with
    [url] and [title], one with [link] and [name]. *)
Definition api_items : list jsvalue :=
  [ VObj [(js "url", VStr (js "https://xbato.com/title/1")); (js "title", VStr (js "One"))];
    VObj [(js "link", VStr (js "https://xbato.com/title/2")); (js "name", VStr (js "Two"))] ].
Definition api_text : jsstring := js "[{...},{...}]".
Definition api_response : response :=
  {| status := 200; server := None; text := Some api_text |}.
Definition api_env : env :=
  {| remote := fun _ _ => Resolves api_response;
     JSON_parse := fun _ => Some (VArr api_items);
     encodeURIComponent := fun s => Some s |}.

(** A memory cache of capacity 2 that holds two entries, and a sequence
    of calls none of whose reads meets an expired entry. *)
Definition full_cache : Cache.MemoryCache :=
  Cache.set (js "b") (VStr (js "cover-b")) None 1
    (Cache.set (js "a") (VStr (js "cover-a")) (Some 10) 0 (Cache.new_cache 2)).

Definition timely_reads : list Cache.op :=
  [ Cache.OpSet (js "a") (VStr (js "cover-a")) (Some 10) 0;
    Cache.OpGet (js "a") 5;
    Cache.OpSet (js "b") (VStr (js "cover-b")) None 6;
    Cache.OpSet (js "c") (VStr (js "cover-c")) (Some 10) 7;
    Cache.OpDelete (js "b");
    Cache.OpGet (js "c") 17 ].

(** A stored preference: the value false, written at time 5. *)
Definition stored_pref : Cache.entry :=
  {| Cache.value := VBool false; Cache.expiresAt := None; Cache.cachedAt := 5 |}.
Definition pref_parse (s : jsstring) : option Cache.entry := Some stored_pref.

(** A source whose base URL is a given address. *)
Definition source_at (url : jsstring) : SourceManager.Source :=
  SourceManager.enrich
    {| SourceManager.d_id := None; SourceManager.d_name := js "Mirror";
       SourceManager.d_lang := js "en"; SourceManager.d_baseUrl := url;
       SourceManager.d_type := SourceManager.HTTP; SourceManager.d_versionId := 1;
       SourceManager.d_supportsLatest := None; SourceManager.d_isNsfw := None;
       SourceManager.d_service := None |}.

End Samples.
Import Samples.

(** * Properties *)

(** ** The source registry *)

Section RegistryFacts.
Import SourceManager.

Lemma getSource_frame (sourceId : jsstring) (m : manager) :
  snd (getSource sourceId m) = m.
Proof. reflexivity. Qed.

Lemma getSourceOrStub_sources (sourceId : jsstring) (m : manager) :
  sources (snd (getSourceOrStub sourceId m)) = sources m.
Proof.
  unfold getSourceOrStub.
  destruct (sources m !! sourceId); [reflexivity|].
  destruct (stubSources m !! sourceId); reflexivity.
Qed.

Lemma getSourceOrStub_state (sourceId : jsstring) (m : manager) :
  snd (getSourceOrStub sourceId m) =
  match sources m !! sourceId, stubSources m !! sourceId with
  | None, None => registerStubSource sourceId (js "Source " ++ sourceId) m
  | _, _ => m
  end.
Proof.
  unfold getSourceOrStub.
  destruct (sources m !! sourceId); [reflexivity|].
  destruct (stubSources m !! sourceId); reflexivity.
Qed.

Lemma registerSource_lookup (d : descriptor) (m : manager) (j : jsstring) :
  fst (getSource j (registerSource d m)) =
  if decide (j = id (enrich d)) then Some (enrich d) else fst (getSource j m).
Proof.
  unfold getSource, registerSource. cbn [fst sources].
  destruct (decide (j = id (enrich d))) as [->|Hne].
  - apply lookup_insert_eq.
  - apply lookup_insert_ne; congruence.
Qed.

(** C9 (as amended): [getSource] never changes the manager;
    [getSourceOrStub] never changes [sources], and changes [stubSources]
    exactly when the id is in neither map, where it stores the stub it
    returns, as [registerStubSource] would; after [registerSource] the id
    of the registered source maps to that source and every other id maps
    to what it mapped to before. *)
Theorem C9_lookups_and_the_maps (sourceId : jsstring) (m : manager) (d : descriptor) :
  snd (getSource sourceId m) = m
  /\ sources (snd (getSourceOrStub sourceId m)) = sources m
  /\ snd (getSourceOrStub sourceId m) =
     match sources m !! sourceId, stubSources m !! sourceId with
     | None, None => registerStubSource sourceId (js "Source " ++ sourceId) m
     | _, _ => m
     end
  /\ fst (getSource sourceId (registerSource d m)) =
     if decide (sourceId = id (enrich d)) then Some (enrich d)
     else fst (getSource sourceId m).
Proof.
  split; [apply getSource_frame|].
  split; [apply getSourceOrStub_sources|].
  split; [apply getSourceOrStub_state|apply registerSource_lookup].
Qed.

(** C9 as stated fails: on the initialized registry, [getSourceOrStub] of
    an unknown id leaves a registry that differs from the one it was
    called on (the stub is now in [stubSources]). *)
Lemma C9_getSourceOrStub_writes :
  let m := initialize new_manager in
  stubSources m !! js "ghost" = None
  /\ stubSources (snd (getSourceOrStub (js "ghost") m)) !! js "ghost"
     = Some (stub (js "ghost") (js "Source ghost"))
  /\ snd (getSourceOrStub (js "ghost") m) <> m.
Proof.
  split; [vm_compute; reflexivity|].
  split; [vm_compute; reflexivity|].
  intros H.
  apply (f_equal (fun x => stubSources x !! js "ghost")) in H.
  vm_compute in H. discriminate H.
Qed.

End RegistryFacts.

(** ** The Xbato search *)

Section XbatoFacts.
Import Xbato.

(** C10: a query whose trimmed length is below 3 gives the empty list and
    leaves the world as it was: nothing is requested, nothing is slept. *)
Theorem C10_short_query_no_request (query : jsstring) (e : env) (w : world) :
  (length (trim query) < 3)%nat ->
  searchXbatoManga query e w = (Returns [], w).
Proof.
  intros Hshort. unfold searchXbatoManga, try_catch.
  apply Nat.ltb_lt in Hshort. rewrite Hshort. reflexivity.
Qed.

Lemma C10_short_query_witness :
  (length (trim (js " ab ")) < 3)%nat
  /\ searchXbatoManga (js " ab ") silent_env Bato.initial_world
     = (Returns [], Bato.initial_world).
Proof.
  assert (H : (length (trim (js " ab ")) < 3)%nat) by (vm_compute; lia).
  split; [exact H|].
  exact (C10_short_query_no_request (js " ab ") silent_env Bato.initial_world H).
Defined.

End XbatoFacts.

(** ** The cache *)

Section CacheFacts.
Import Cache.

Lemma lookup_after_set key v ttl now c :
  cache (set key v ttl now c) !! key
  = Some {| value := v; expiresAt := expiry ttl now; cachedAt := now |}.
Proof. unfold set. cbn [cache]. apply lookup_insert_eq. Qed.

Lemma expired_spec e now x :
  expiresAt e = Some x -> 0 < x -> expired e now = (now >? x).
Proof.
  intros He Hx. unfold expired. rewrite He.
  replace (x =? 0) with false by (symmetry; apply Z.eqb_neq; lia).
  reflexivity.
Qed.

Lemma get_live key now c e :
  cache c !! key = Some e -> expired e now = false ->
  fst (get key now c) = value e.
Proof. intros Hk He. unfold get. rewrite Hk, He. reflexivity. Qed.

Lemma get_expired key now c e :
  cache c !! key = Some e -> expired e now = true ->
  fst (get key now c) = VNull /\ cache (snd (get key now c)) !! key = None.
Proof.
  intros Hk He. unfold get. rewrite Hk, He. cbn [fst snd cache].
  split; [reflexivity|apply lookup_delete_eq].
Qed.

Section WithCodec.
Variable stringify : entry -> jsstring.
Variable parse : jsstring -> option entry.

Lemma storage_live key now store e :
  store !! key = Some (stringify e) -> stringify e <> [] ->
  parse (stringify e) = Some e -> expired e now = false ->
  getFromStorage parse key now store = (value e, store).
Proof.
  intros Hk Hne Hp He. unfold getFromStorage. rewrite Hk.
  destruct (stringify e) as [|x data] eqn:Hd; [congruence|].
  cbn [str_truthy negb]. rewrite Hp, He. reflexivity.
Qed.

Lemma storage_expired key now store e :
  store !! key = Some (stringify e) -> stringify e <> [] ->
  parse (stringify e) = Some e -> expired e now = true ->
  getFromStorage parse key now store = (VNull, delete key store).
Proof.
  intros Hk Hne Hp He. unfold getFromStorage. rewrite Hk.
  destruct (stringify e) as [|x data] eqn:Hd; [congruence|].
  cbn [str_truthy negb]. rewrite Hp, He. reflexivity.
Qed.

(** C6: an entry written at [now >= 0] with a TTL [t > 0] (every TTL of
    the module is one of the positive [CACHE_EXPIRATION] constants) is
    served by a read strictly before [now + t], in the memory tier and in
    the persistent tier; a read strictly after [now + t] answers null and
    removes the entry from the tier it reads; an entry of the memory tier
    whose expiry [x > 0] is in the past is never served. A write with a
    falsy TTL (0, or none) stores no expiry and is served at any time. *)
Theorem C6_ttl_boundary (key : jsstring) (v : jsvalue) (t now r : Z)
  (c : MemoryCache) (store : gmap jsstring jsstring) :
  0 <= now -> 0 < t ->
  let e := {| value := v; expiresAt := Some (now + t); cachedAt := now |} in
  parse (stringify e) = Some e -> stringify e <> [] ->
  let c' := set key v (Some t) now c in
  let store' := saveToStorage stringify key v (Some t) now store in
  (r < now + t ->
     fst (get key r c') = v /\ fst (getFromStorage parse key r store') = v)
  /\ (now + t < r ->
        fst (get key r c') = VNull
        /\ cache (snd (get key r c')) !! key = None
        /\ fst (getFromStorage parse key r store') = VNull
        /\ snd (getFromStorage parse key r store') !! key = None)
  /\ (forall c0 e0 x, cache c0 !! key = Some e0 -> expiresAt e0 = Some x ->
        0 < x -> x < r -> fst (get key r c0) = VNull)
  /\ (forall ttl, ttl = Some 0 \/ ttl = None ->
        fst (get key r (set key v ttl now c)) = v).
Proof.
  intros Hnow Ht e Hp Hne c' store'.
  assert (Hexp : expiry (Some t) now = Some (now + t)).
  { unfold expiry. replace (t =? 0) with false by (symmetry; apply Z.eqb_neq; lia).
    reflexivity. }
  assert (Hc : cache c' !! key = Some e).
  { unfold c'. rewrite lookup_after_set, Hexp. reflexivity. }
  assert (Hs : store' !! key = Some (stringify e)).
  { unfold store', saveToStorage. rewrite Hexp. apply lookup_insert_eq. }
  assert (Hx : forall now', expired e now' = (now' >? now + t)).
  { intros now'. apply expired_spec; [reflexivity|lia]. }
  split; [|split; [|split]].
  - intros Hr.
    assert (He : expired e r = false) by (rewrite Hx, Z.gtb_ltb; apply Z.ltb_ge; lia).
    split.
    + apply (get_live key r c' e Hc He).
    + rewrite (storage_live key r store' e Hs Hne Hp He). reflexivity.
  - intros Hr.
    assert (He : expired e r = true) by (rewrite Hx, Z.gtb_ltb; apply Z.ltb_lt; lia).
    destruct (get_expired key r c' e Hc He) as [Hg Hd].
    rewrite (storage_expired key r store' e Hs Hne Hp He).
    cbn [fst snd]. repeat split; try assumption. apply lookup_delete_eq.
  - intros c0 e0 x Hk He0 Hx0 Hlt.
    assert (He : expired e0 r = true).
    { rewrite (expired_spec e0 r x He0 Hx0), Z.gtb_ltb. apply Z.ltb_lt; lia. }
    apply (get_expired key r c0 e0 Hk He).
  - intros ttl Httl.
    assert (Hn : expiry ttl now = None) by (destruct Httl; subst; reflexivity).
    pose proof (lookup_after_set key v ttl now c) as Hk. rewrite Hn in Hk.
    apply (get_live key r _ _ Hk). reflexivity.
Qed.

End WithCodec.

Lemma C6_ttl_boundary_witness :
  0 <= 1000 /\ 0 < 500
  /\ fst (get (js "k") 1499 (set (js "k") (VStr (js "cover")) (Some 500) 1000 (new_cache 50)))
     = VStr (js "cover")
  /\ fst (get (js "k") 1501 (set (js "k") (VStr (js "cover")) (Some 500) 1000 (new_cache 50)))
     = VNull.
Proof.
  assert (H0 : 0 <= 1000) by lia.
  assert (H1 : 0 < 500) by lia.
  assert (Hp : one_parse (one_stringify
                 {| value := VStr (js "cover"); expiresAt := Some (1000 + 500);
                    cachedAt := 1000 |})
               = Some {| value := VStr (js "cover"); expiresAt := Some (1000 + 500);
                         cachedAt := 1000 |}) by reflexivity.
  assert (Hne : one_stringify
                  {| value := VStr (js "cover"); expiresAt := Some (1000 + 500);
                     cachedAt := 1000 |} <> []) by discriminate.
  split; [exact H0|]. split; [exact H1|].
  split.
  - destruct (C6_ttl_boundary one_stringify one_parse (js "k") (VStr (js "cover"))
                500 1000 1499 (new_cache 50) ∅ H0 H1 Hp Hne) as [Hbefore _].
    apply Hbefore. lia.
  - destruct (C6_ttl_boundary one_stringify one_parse (js "k") (VStr (js "cover"))
                500 1000 1501 (new_cache 50) ∅ H0 H1 Hp Hne) as [_ [Hafter _]].
    apply Hafter. lia.
Defined.

(** The falsy TTL 0: the entry written at time 1000 is still served at
    time 2000 by both tiers, and it stays stored. *)
Remark zero_ttl_never_expires :
  1000 + 0 < 2000
  /\ fst (get (js "k") 2000 zero_ttl_cache) = VStr (js "cover")
  /\ is_Some (cache (snd (get (js "k") 2000 zero_ttl_cache)) !! js "k")
  /\ getFromStorage zero_ttl_parse (js "k") 2000 zero_ttl_store
     = (VStr (js "cover"), zero_ttl_store).
Proof.
  split; [lia|].
  split; [vm_compute; reflexivity|].
  split; [vm_compute; eexists; reflexivity|].
  vm_compute. reflexivity.
Qed.

(** A hit in the persistent tier is copied to the memory tier with a TTL
    that starts at the time of the read: the copy outlives the stored
    entry, and [CoverCache.get] serves it after the stored entry's expiry
    without consulting AsyncStorage. *)
Remark promotion_restarts_the_ttl :
  fst (CoverCache_get cover_parse (js "7") (CACHE_EXPIRATION_COVERS + 1)
         (snd (CoverCache_get cover_parse (js "7") (CACHE_EXPIRATION_COVERS - 1)
                 after_restart)))
  = VStr (js "https://bato.to/covers/7.jpg")
  /\ fst (CoverCache_get cover_parse (js "7") (CACHE_EXPIRATION_COVERS + 1) after_restart)
     = VNull.
Proof. split; vm_compute; reflexivity. Qed.

(** *** The bound of the memory tier *)

Lemma remove_first_notin key l : key ∉ l -> remove_first key l = l.
Proof.
  induction l as [|k l IH]; intros Hn; [reflexivity|].
  cbn [remove_first]. destruct (decide (k = key)) as [->|Hne].
  - exfalso. apply Hn. left.
  - f_equal. apply IH. intros Hin. apply Hn. right. exact Hin.
Qed.

Lemma remove_first_elem key l k' :
  NoDup l -> (k' ∈ remove_first key l <-> k' ∈ l /\ k' <> key).
Proof.
  induction l as [|k l IH]; intros Hnd.
  - cbn. split; [intros H; inversion H|intros [H _]; inversion H].
  - apply NoDup_cons in Hnd as [Hk Hnd]. cbn [remove_first].
    destruct (decide (k = key)) as [->|Hne].
    + split.
      * intros Hin. split; [right; exact Hin|]. intros ->. contradiction.
      * intros [Hin Hneq]. apply elem_of_cons in Hin as [->|Hin]; [contradiction|exact Hin].
    + rewrite !elem_of_cons, (IH Hnd). split.
      * intros [->|[Hin Hneq]]; split; auto.
      * intros [[->|Hin] Hneq]; auto.
Qed.

Lemma remove_first_NoDup key l : NoDup l -> NoDup (remove_first key l).
Proof.
  induction l as [|k l IH]; intros Hnd; [constructor|].
  pose proof Hnd as Hnd0.
  apply NoDup_cons in Hnd as [Hk Hnd]. cbn [remove_first].
  destruct (decide (k = key)); [exact Hnd|].
  apply NoDup_cons. split; [|apply IH; exact Hnd].
  intros Hin. apply (remove_first_elem key l k Hnd) in Hin as [Hin _]. contradiction.
Qed.

Lemma touch_NoDup key l : NoDup l -> NoDup (touch key l).
Proof.
  intros Hnd. unfold touch. apply NoDup_app. split; [|split].
  - apply remove_first_NoDup; exact Hnd.
  - intros k Hin Hk. apply list_elem_of_singleton in Hk as ->.
    apply (remove_first_elem key l key Hnd) in Hin as [_ Hne]. congruence.
  - apply NoDup_singleton.
Qed.

Lemma touch_elem key l k' : NoDup l -> (k' ∈ touch key l <-> k' ∈ l \/ k' = key).
Proof.
  intros Hnd. unfold touch.
  rewrite elem_of_app, (remove_first_elem key l k' Hnd), list_elem_of_singleton.
  destruct (decide (k' = key)); split; intros H; try tauto.
Qed.

Lemma set_well_formed key v ttl now c :
  1 <= maxSize c -> well_formed c -> well_formed (set key v ttl now c).
Proof.
  intros Hmax (Hnd & Hdom & Hsize). unfold set, well_formed.
  destruct (cache c !! key) as [e0|] eqn:Hkey.
  - (* the key is stored: no eviction, the entry is replaced *)
    rewrite bool_decide_eq_true_2 by eauto.
    rewrite andb_false_r. cbn [fst snd cache accessOrder maxSize].
    split; [apply touch_NoDup; exact Hnd|]. split.
    + intros k. rewrite (touch_elem key _ k Hnd), Hdom, lookup_insert.
      destruct (decide (key = k)) as [->|Hne]; split; intros H; eauto.
      * destruct H as [H| ->]; [exact H|congruence].
    + rewrite map_size_insert, Hkey. exact Hsize.
  - rewrite bool_decide_eq_false_2 by (intros [? ?]; congruence).
    rewrite andb_true_r.
    destruct (Z.of_nat (size (cache c)) >=? maxSize c) eqn:Hfull.
    + (* at capacity: the head of the access order is evicted *)
      destruct (accessOrder c) as [|oldestKey rest] eqn:Horder.
      { exfalso. apply Z.geb_le in Hfull.
        assert (Hempty : cache c = ∅).
        { apply map_eq. intros k. rewrite lookup_empty.
          destruct (cache c !! k) eqn:Hk; [|reflexivity].
          assert (Hin : k ∈ @nil jsstring) by (apply Hdom; eauto).
          inversion Hin. }
        rewrite Hempty, map_size_empty in Hfull. lia. }
      cbn [fst snd cache accessOrder maxSize].
      apply NoDup_cons in Hnd as [Hold Hnd].
      assert (Hstored : is_Some (cache c !! oldestKey)) by (apply Hdom; left).
      assert (Hneq : oldestKey <> key) by (intros ->; destruct Hstored; congruence).
      assert (Hrest : key ∉ rest).
      { intros Hin. assert (Hs : is_Some (cache c !! key)) by (apply Hdom; right; exact Hin).
        destruct Hs; congruence. }
      split; [apply touch_NoDup; exact Hnd|]. split.
      * intros k. rewrite (touch_elem key _ k Hnd), lookup_insert.
        destruct (decide (key = k)) as [->|Hne]; [split; eauto|].
        rewrite lookup_delete.
        destruct (decide (oldestKey = k)) as [->|Hne2].
        -- split; [intros [H| ->]; [contradiction|congruence]|intros [? H]; discriminate H].
        -- rewrite <- Hdom, elem_of_cons. split.
           ++ intros [H| ->]; [right; exact H|congruence].
           ++ intros [->|H]; [congruence|left; exact H].
      * rewrite map_size_insert, lookup_delete_ne, Hkey by exact Hneq.
        rewrite map_size_delete. destruct Hstored as [e1 He1]. rewrite He1.
        apply Z.geb_le in Hfull.
        assert (0 < size (cache c))%nat.
        { destruct (size (cache c)) eqn:Hz; [|lia].
          apply map_size_empty_inv in Hz. rewrite Hz, lookup_empty in He1. discriminate. }
        lia.
    + (* below capacity: one more entry *)
      cbn [fst snd cache accessOrder maxSize].
      split; [apply touch_NoDup; exact Hnd|]. split.
      * intros k. rewrite (touch_elem key _ k Hnd), Hdom, lookup_insert.
        destruct (decide (key = k)) as [->|Hne]; split; intros H; eauto.
        destruct H as [H| ->]; [exact H|congruence].
      * rewrite map_size_insert, Hkey.
        assert (Hlt : Z.of_nat (size (cache c)) < maxSize c).
        { destruct (Z.geb_spec (Z.of_nat (size (cache c))) (maxSize c)); [discriminate|lia]. }
        lia.
Qed.

Lemma delete_well_formed key c : well_formed c -> well_formed (snd (delete_key key c)).
Proof.
  intros (Hnd & Hdom & Hsize). unfold delete_key, well_formed.
  cbn [snd cache accessOrder maxSize].
  split; [apply remove_first_NoDup; exact Hnd|]. split.
  - intros k. rewrite (remove_first_elem key _ k Hnd), Hdom, lookup_delete.
    destruct (decide (key = k)) as [->|Hne].
    + split; [intros [_ H]; congruence|intros [? H]; discriminate H].
    + split; [intros [H _]; exact H|intros H; split; [exact H|congruence]].
  - rewrite map_size_delete. destruct (cache c !! key); unfold id; lia.
Qed.

Lemma get_well_formed key now c :
  no_expiry c -> well_formed c -> well_formed (snd (get key now c)).
Proof.
  intros Hno (Hnd & Hdom & Hsize). unfold get.
  destruct (cache c !! key) as [e|] eqn:Hkey; [|repeat split; auto; apply Hdom].
  assert (He : expired e now = false).
  { unfold expired. rewrite (Hno key e Hkey). reflexivity. }
  rewrite He. unfold well_formed. cbn [snd cache accessOrder maxSize].
  split; [apply touch_NoDup; exact Hnd|]. split; [|exact Hsize].
  intros k. rewrite (touch_elem key _ k Hnd), Hdom.
  split; [intros [H| ->]; eauto|intros H; left; exact H].
Qed.

Lemma step_no_expiry o c : without_ttl o -> no_expiry c -> no_expiry (step c o).
Proof.
  intros Ho Hno k e. destruct o as [key now|key v ttl now|key]; cbn [step].
  - unfold get. destruct (cache c !! key) as [e0|] eqn:Hkey; [|apply Hno].
    destruct (expired e0 now); cbn [snd cache]; [|apply Hno].
    rewrite lookup_delete. destruct (decide (key = k)); [discriminate|apply Hno].
  - cbn in Ho. subst ttl. unfold set. cbn [cache].
    rewrite lookup_insert. destruct (decide (key = k)).
    + intros [= <-]. reflexivity.
    + destruct ((Z.of_nat (size (cache c)) >=? maxSize c)
                && negb (bool_decide (is_Some (cache c !! key)))); [|apply Hno].
      destruct (accessOrder c); cbn [fst]; [apply Hno|].
      rewrite lookup_delete. destruct (decide (j = k)); [discriminate|apply Hno].
  - unfold delete_key. cbn [snd cache].
    rewrite lookup_delete. destruct (decide (key = k)); [discriminate|apply Hno].
Qed.

Lemma step_maxSize o c : maxSize (step c o) = maxSize c.
Proof.
  destruct o as [key now|key v ttl now|key]; cbn [step]; try reflexivity.
  unfold get. destruct (cache c !! key) as [e|]; [|reflexivity].
  destruct (expired e now); reflexivity.
Qed.

(** Where no entry ever expires, the memory tier keeps its bound and its
    access order through every sequence of calls. *)
Lemma capacity_kept_without_expiry ops c :
  1 <= maxSize c -> Forall without_ttl ops -> no_expiry c -> well_formed c ->
  well_formed (run ops c) /\ Z.of_nat (cache_size (run ops c)) <= maxSize c.
Proof.
  revert c. induction ops as [|o ops IH]; intros c Hmax Hops Hno Hwf.
  - split; [exact Hwf|apply Hwf].
  - apply Forall_cons in Hops as [Ho Hops]. cbn [run fold_left].
    assert (Hwf' : well_formed (step c o)).
    { destruct o as [key now|key v ttl now|key]; cbn [step].
      - apply get_well_formed; assumption.
      - apply set_well_formed; assumption.
      - apply delete_well_formed; assumption. }
    pose proof (step_maxSize o c) as Hm.
    destruct (IH (step c o)) as [H1 H2]; auto.
    + rewrite Hm. exact Hmax.
    + apply step_no_expiry; assumption.
    + split; [exact H1|]. rewrite <- Hm. exact H2.
Qed.

(** C2, the code at the failing input: the manga cache (capacity 50)
    holds 50 entries; the read of manga 1 after its TTL removes the entry
    from the map but leaves its key at the head of the access order; of
    the next two writes the second finds the map at capacity, shifts that
    stale key out and deletes nothing: 51 entries are held, and the least
    recently accessed key that is stored, 2, is still among them. *)
Theorem C2_expired_read_breaks_bound :
  maxSize mangaCache = 50
  /\ cache_size (run fifty_manga mangaCache) = 50%nat
  /\ cache (run read_after_expiry mangaCache) !! js "1" = None
  /\ hd_error (accessOrder (run read_after_expiry mangaCache)) = Some (js "1")
  /\ cache_size (run (read_after_expiry ++ two_more_manga) mangaCache) = 51%nat
  /\ is_Some (cache (run (read_after_expiry ++ two_more_manga) mangaCache) !! js "2").
Proof.
  split; [reflexivity|].
  split; [vm_compute; reflexivity|].
  split; [vm_compute; reflexivity|].
  split; [vm_compute; reflexivity|].
  split; [vm_compute; reflexivity|].
  vm_compute. eexists; reflexivity.
Qed.

(** The same slip on a cache of capacity 2. *)
Example small_cache_overflow :
  cache_size (run expiring_reads (new_cache 2)) = 3%nat
  /\ accessOrder (run (firstn 3 expiring_reads) (new_cache 2)) = [js "a"; js "b"]
  /\ cache (run (firstn 3 expiring_reads) (new_cache 2)) !! js "a" = None.
Proof. repeat split; vm_compute; reflexivity. Qed.

End CacheFacts.

(** ** The rate limiter *)

Section RateLimiterFacts.
Import NetworkUtils.

Lemma filter_length_le {A} (p q : A -> bool) (l : list A) :
  (forall x, In x l -> p x = true -> q x = true) ->
  (length (List.filter p l) <= length (List.filter q l))%nat.
Proof.
  induction l as [|x l IH]; intros H; [reflexivity|].
  cbn [List.filter].
  assert (IH' : (length (List.filter p l) <= length (List.filter q l))%nat).
  { apply IH. intros y Hy. apply H. right. exact Hy. }
  destruct (p x) eqn:Hp.
  - rewrite (H x (or_introl eq_refl) Hp). cbn [length]. lia.
  - destruct (q x); cbn [length]; lia.
Qed.

Lemma filter_fresh_again period prev now (h : list Z) :
  prev <= now ->
  List.filter (fresh period now) (List.filter (fresh period prev) h)
  = List.filter (fresh period now) h.
Proof.
  intros Hle. induction h as [|ts h IH]; [reflexivity|].
  cbn [List.filter]. destruct (fresh period prev ts) eqn:Hp.
  - cbn [List.filter]. rewrite IH. reflexivity.
  - rewrite IH. replace (fresh period now ts) with false; [reflexivity|].
    symmetry. unfold fresh in *. apply Z.ltb_ge. apply Z.ltb_ge in Hp. lia.
Qed.

Lemma filter_head_holds {A} (p : A -> bool) (l : list A) x rest :
  List.filter p l = x :: rest -> p x = true.
Proof.
  intros H. assert (Hin : In x (List.filter p l)) by (rewrite H; left; reflexivity).
  apply List.filter_In in Hin. apply Hin.
Qed.

Lemma nondecreasing_tail a times :
  nondecreasing (a :: times) = true ->
  nondecreasing times = true /\ forall t, In t times -> a <= t.
Proof.
  revert a. induction times as [|b times IH]; intros a H.
  - split; [reflexivity|intros t []].
  - cbn [nondecreasing] in H. apply andb_prop in H as [Hab Hrest].
    apply Z.leb_le in Hab. split; [exact Hrest|].
    destruct (IH b Hrest) as [_ Hb].
    intros t [<-|Ht]; [exact Hab|]. specialize (Hb t Ht). lia.
Qed.

(** What one call does to a limiter with at least one permit and a
    positive period: it grants exactly when fewer than [permits] recorded
    timestamps are fresh, and it never records while the window is full. *)
Lemma acquire_once_cases now l :
  0 < permits l ->
  let queue := List.filter (fresh (periodMs l) now) (requestQueue l) in
  (Z.of_nat (length queue) < permits l
   /\ acquire_once now l
      = (Granted, {| permits := permits l; periodMs := periodMs l;
                     requestQueue := queue ++ [now] |}))
  \/ (exists oldest rest,
        queue = oldest :: rest
        /\ permits l <= Z.of_nat (length queue)
        /\ 0 < periodMs l - (now - oldest)
        /\ acquire_once now l
           = (Wait (periodMs l - (now - oldest)),
              {| permits := permits l; periodMs := periodMs l;
                 requestQueue := queue |})).
Proof.
  intros Hp queue. unfold acquire_once. fold (fresh (periodMs l) now). fold queue.
  destruct (Z.geb_spec (Z.of_nat (length queue)) (permits l)) as [Hfull|Hroom].
  - right. destruct queue as [|oldest rest] eqn:Hq; [cbn in Hfull; lia|].
    exists oldest, rest.
    assert (Hfresh : fresh (periodMs l) now oldest = true).
    { apply (filter_head_holds _ (requestQueue l) oldest rest). exact Hq. }
    unfold fresh in Hfresh. apply Z.ltb_lt in Hfresh.
    assert (Hw : 0 < periodMs l - (now - oldest)) by lia.
    repeat split; try assumption.
    replace (periodMs l - (now - oldest) >? 0) with true; [reflexivity|].
    symmetry. rewrite Z.gtb_ltb. apply Z.ltb_lt. exact Hw.
  - left. split; [lia|reflexivity].
Qed.

Lemma in_window_app period T h g :
  in_window period T (h ++ g) = (in_window period T h + in_window period T g)%nat.
Proof. unfold in_window. rewrite List.filter_app, length_app. reflexivity. Qed.

(** The window that ends at [T >= now] holds no more recorded timestamps
    than are fresh at [now], when nothing was recorded after [now]. *)
Lemma in_window_fresh period now T h :
  (forall ts, In ts h -> ts <= now) -> now <= T ->
  (in_window period T h <= length (List.filter (fresh period now) h))%nat.
Proof.
  intros Hh HT. unfold in_window. apply filter_length_le.
  intros ts Hin Hts. apply andb_prop in Hts as [Hlo _].
  apply Z.ltb_lt in Hlo. unfold fresh. apply Z.ltb_lt.
  specialize (Hh ts Hin). lia.
Qed.

Lemma run_acquires_granted now times l l' :
  acquire_once now l = (Granted, l') ->
  fst (run_acquires (now :: times) l) = now :: fst (run_acquires times l').
Proof.
  intros H. cbn [run_acquires]. rewrite H.
  destruct (run_acquires times l'). reflexivity.
Qed.

Lemma run_acquires_waits now times l w l' :
  acquire_once now l = (Wait w, l') ->
  fst (run_acquires (now :: times) l) = fst (run_acquires times l').
Proof. intros H. cbn [run_acquires]. rewrite H. reflexivity. Qed.

Lemma run_acquires_window times :
  forall l hist prev,
    0 < permits l -> 0 < periodMs l ->
    nondecreasing times = true ->
    (forall t, In t times -> prev <= t) ->
    (forall ts, In ts hist -> ts <= prev) ->
    requestQueue l = List.filter (fresh (periodMs l) prev) hist ->
    (forall T, Z.of_nat (in_window (periodMs l) T hist) <= permits l) ->
    forall T, Z.of_nat (in_window (periodMs l) T (hist ++ fst (run_acquires times l)))
              <= permits l.
Proof.
  induction times as [|now times IH]; intros l hist prev Hp Hper Hsorted Hprev Hhist Hq Hsafe T.
  - cbn [run_acquires fst]. rewrite app_nil_r. apply Hsafe.
  - assert (Hnow : prev <= now) by (apply Hprev; left; reflexivity).
    destruct (nondecreasing_tail now times Hsorted) as [Hsorted' Hlater].
    assert (Hqueue : List.filter (fresh (periodMs l) now) (requestQueue l)
                     = List.filter (fresh (periodMs l) now) hist).
    { rewrite Hq. apply filter_fresh_again. exact Hnow. }
    assert (Hhist' : forall ts, In ts hist -> ts <= now).
    { intros ts Hin. specialize (Hhist ts Hin). lia. }
    destruct (acquire_once_cases now l Hp) as [[Hroom Hgrant]|(oldest & rest & Hfull & _ & _ & Hwait)].
    + rewrite (run_acquires_granted now times l _ Hgrant).
      replace (hist ++ now :: fst (run_acquires times
                 {| permits := permits l; periodMs := periodMs l;
                    requestQueue := List.filter (fresh (periodMs l) now) (requestQueue l) ++ [now] |}))
        with ((hist ++ [now]) ++ fst (run_acquires times
                 {| permits := permits l; periodMs := periodMs l;
                    requestQueue := List.filter (fresh (periodMs l) now) (requestQueue l) ++ [now] |}))
        by (rewrite <- app_assoc; reflexivity).
      pose proof (IH {| permits := permits l; periodMs := periodMs l;
                        requestQueue := List.filter (fresh (periodMs l) now) (requestQueue l) ++ [now] |}
                     (hist ++ [now]) now) as IH1.
      cbn [permits periodMs requestQueue] in IH1.
      apply IH1; try assumption.
      * intros ts Hin. apply in_app_or in Hin as [Hin|[<-|[]]]; [apply Hhist'; exact Hin|lia].
      * rewrite List.filter_app, Hqueue. cbn [List.filter].
        replace (fresh (periodMs l) now now) with true; [reflexivity|].
        symmetry. unfold fresh. apply Z.ltb_lt. lia.
      * intros T'. rewrite in_window_app.
        destruct (Z.lt_ge_cases T' now) as [Hbefore|Hafter].
        -- (* the window ends before [now]: the new timestamp is outside *)
           replace (in_window (periodMs l) T' [now]) with 0%nat.
           ++ rewrite Nat.add_0_r. apply Hsafe.
           ++ unfold in_window. cbn [List.filter].
              replace (now <=? T') with false by (symmetry; apply Z.leb_gt; lia).
              rewrite andb_false_r. reflexivity.
        -- (* the window ends at or after [now]: it holds fresh ones only *)
           pose proof (in_window_fresh (periodMs l) now T' hist Hhist' Hafter) as Hle.
           rewrite <- Hqueue in Hle.
           assert (Hone : (in_window (periodMs l) T' [now] <= 1)%nat).
           { unfold in_window. cbn [List.filter].
             destruct ((T' - periodMs l <? now) && (now <=? T')); cbn [length]; lia. }
           lia.
    + rewrite (run_acquires_waits now times l _ _ Hwait).
      pose proof (IH {| permits := permits l; periodMs := periodMs l;
                        requestQueue := List.filter (fresh (periodMs l) now) (requestQueue l) |}
                     hist now) as IH1.
      cbn [permits periodMs requestQueue] in IH1.
      apply IH1; try assumption.
Qed.

(** A single caller on a limiter that holds at most [permits] timestamps
    is served after at most one wait. *)
Lemma acquire_returns now l :
  0 < permits l -> Z.of_nat (length (requestQueue l)) <= permits l ->
  exists t l', acquire 2 now l = Some (t, l')
               /\ now <= t
               /\ exists queue, requestQueue l' = queue ++ [t].
Proof.
  intros Hp Hlen. cbn [acquire].
  destruct (acquire_once_cases now l Hp) as [[_ Hgrant]|(oldest & rest & Hq & Hfull & Hw & Hwait)].
  - rewrite Hgrant. eexists _, _. split; [reflexivity|]. split; [lia|].
    cbn [requestQueue]. eexists; reflexivity.
  - rewrite Hwait.
    set (l1 := {| permits := permits l; periodMs := periodMs l;
                  requestQueue := List.filter (fresh (periodMs l) now) (requestQueue l) |}).
    assert (Hp1 : 0 < permits l1) by exact Hp.
    destruct (acquire_once_cases (now + (periodMs l - (now - oldest))) l1 Hp1)
      as [[_ Hgrant]|(o2 & r2 & Hq2 & Hfull2 & _ & _)].
    + rewrite Hgrant. eexists _, _. split; [reflexivity|]. split; [lia|].
      cbn [requestQueue]. eexists; reflexivity.
    + exfalso. cbn [l1 permits periodMs requestQueue] in Hfull2, Hq2.
      rewrite Hq in Hfull2. cbn [List.filter] in Hfull2.
      replace (fresh (periodMs l) (now + (periodMs l - (now - oldest))) oldest)
        with false in Hfull2
        by (symmetry; unfold fresh; apply Z.ltb_ge; lia).
      pose proof (List.filter_length_le
                    (fresh (periodMs l) (now + (periodMs l - (now - oldest)))) rest) as H1.
      pose proof (List.filter_length_le (fresh (periodMs l) now) (requestQueue l)) as H2.
      rewrite Hq in H2. cbn [length] in H2. lia.
Qed.

Lemma acquire_unfold fuel now l :
  acquire (S fuel) now l
  = match acquire_once now l with
    | (Granted, l') => Some (now, l')
    | (Wait waitTime, l') => acquire fuel (now + waitTime) l'
    end.
Proof. reflexivity. Qed.

(** What a call of [acquire] does on a limiter that holds at most
    [permits] timestamps: with room in the window it records [now]; with
    a full window it records nothing at [now], resumes when the oldest
    fresh timestamp is [periodMs] old, prunes the queue again and records
    that reading. *)
Lemma acquire_two_spec now l :
  0 < permits l -> Z.of_nat (length (requestQueue l)) <= permits l ->
  let queue := List.filter (fresh (periodMs l) now) (requestQueue l) in
  (Z.of_nat (length queue) < permits l
   /\ acquire_once now l
      = (Granted, {| permits := permits l; periodMs := periodMs l;
                     requestQueue := queue ++ [now] |})
   /\ acquire 2 now l
      = Some (now, {| permits := permits l; periodMs := periodMs l;
                      requestQueue := queue ++ [now] |}))
  \/ (exists oldest rest,
        queue = oldest :: rest
        /\ permits l <= Z.of_nat (length queue)
        /\ now < oldest + periodMs l
        /\ fresh (periodMs l) (oldest + periodMs l) oldest = false
        /\ acquire_once now l
           = (Wait (periodMs l - (now - oldest)),
              {| permits := permits l; periodMs := periodMs l; requestQueue := queue |})
        /\ acquire_once (oldest + periodMs l)
             {| permits := permits l; periodMs := periodMs l; requestQueue := queue |}
           = (Granted,
              {| permits := permits l; periodMs := periodMs l;
                 requestQueue :=
                   List.filter (fresh (periodMs l) (oldest + periodMs l)) queue
                   ++ [oldest + periodMs l] |})
        /\ acquire 2 now l
           = Some (oldest + periodMs l,
                   {| permits := permits l; periodMs := periodMs l;
                      requestQueue :=
                        List.filter (fresh (periodMs l) (oldest + periodMs l)) queue
                        ++ [oldest + periodMs l] |})).
Proof.
  intros Hp Hlen queue. rewrite !acquire_unfold.
  destruct (acquire_once_cases now l Hp) as [[Hroom Hgrant]|(oldest & rest & Hq & Hfull & Hw & Hwait)].
  - left. fold queue in Hroom, Hgrant. split; [exact Hroom|]. split; [exact Hgrant|].
    rewrite Hgrant. reflexivity.
  - right. fold queue in Hq, Hfull, Hwait. exists oldest, rest.
    assert (Hout : fresh (periodMs l) (oldest + periodMs l) oldest = false)
      by (unfold fresh; apply Z.ltb_ge; lia).
    split; [exact Hq|]. split; [exact Hfull|]. split; [lia|]. split; [exact Hout|].
    split; [exact Hwait|].
    rewrite Hwait.
    replace (now + (periodMs l - (now - oldest))) with (oldest + periodMs l) by lia.
    rewrite acquire_unfold.
    set (l1 := {| permits := permits l; periodMs := periodMs l; requestQueue := queue |}).
    assert (Hp1 : 0 < permits l1) by exact Hp.
    destruct (acquire_once_cases (oldest + periodMs l) l1 Hp1)
      as [[_ Hgrant]|(o2 & r2 & Hq2 & Hfull2 & _ & _)].
    + rewrite Hgrant. split; reflexivity.
    + exfalso. cbn [l1 permits periodMs requestQueue] in Hfull2, Hq2.
      rewrite Hq in Hfull2. cbn [List.filter] in Hfull2. rewrite Hout in Hfull2.
      pose proof (List.filter_length_le (fresh (periodMs l) (oldest + periodMs l)) rest) as H1.
      pose proof (List.filter_length_le (fresh (periodMs l) now) (requestQueue l)) as H2.
      fold queue in H2. rewrite Hq in H2. cbn [length] in H2. lia.
Qed.


Lemma nondecreasing_cons a times :
  (forall t, In t times -> a <= t) -> nondecreasing times = true ->
  nondecreasing (a :: times) = true.
Proof.
  intros Ha Hs. destruct times as [|b times]; [reflexivity|].
  cbn [nondecreasing]. apply andb_true_iff. split; [|exact Hs].
  apply Z.leb_le. apply Ha. left. reflexivity.
Qed.

Lemma run_acquires_app a b l :
  run_acquires (a ++ b) l
  = (fst (run_acquires a l) ++ fst (run_acquires b (snd (run_acquires a l))),
     snd (run_acquires b (snd (run_acquires a l)))).
Proof.
  revert l. induction a as [|now a IH]; intros l.
  - cbn [app run_acquires fst snd]. destruct (run_acquires b l). reflexivity.
  - cbn [app run_acquires]. destruct (acquire_once now l) as [[|w] l1].
    + rewrite IH. destruct (run_acquires a l1) as [g l2]. reflexivity.
    + apply IH.
Qed.

(** A call of [acquire] is a run of calls of [acquire_once], at the
    reading of the call and, after a wait, at the reading it resumes at;
    only the last of them records. *)
Lemma acquire_two_as_run now l t l' :
  0 < permits l -> Z.of_nat (length (requestQueue l)) <= permits l ->
  acquire 2 now l = Some (t, l') ->
  now <= t
  /\ permits l' = permits l /\ periodMs l' = periodMs l
  /\ Z.of_nat (length (requestQueue l')) <= permits l
  /\ exists readings,
       run_acquires readings l = ([t], l')
       /\ nondecreasing readings = true
       /\ (forall r, In r readings -> now <= r <= t).
Proof.
  intros Hp Hlen Hacq.
  pose proof (List.filter_length_le (fresh (periodMs l) now) (requestQueue l)) as Hfl.
  destruct (acquire_two_spec now l Hp Hlen)
    as [(Hroom & Hgrant & Htwo)|(oldest & rest & Hq & Hfull & Hlater & Hout & Hwait & Hgrant & Htwo)];
    rewrite Htwo in Hacq; injection Hacq as <- <-; cbn [permits periodMs requestQueue].
  - split; [lia|]. split; [reflexivity|]. split; [reflexivity|].
    split; [rewrite length_app; cbn [length]; lia|].
    exists [now]. cbn [run_acquires]. rewrite Hgrant.
    split; [reflexivity|]. split; [reflexivity|].
    intros r [<-|[]]. lia.
  - split; [lia|]. split; [reflexivity|]. split; [reflexivity|]. split.
    + rewrite length_app, Hq. cbn [List.filter length]. rewrite Hout.
      pose proof (List.filter_length_le (fresh (periodMs l) (oldest + periodMs l)) rest) as H1.
      rewrite Hq in Hfl. cbn [length] in Hfl. lia.
    + exists [now; oldest + periodMs l]. cbn [run_acquires]. rewrite Hwait, Hgrant.
      split; [reflexivity|]. split.
      * cbn [nondecreasing]. rewrite andb_true_r. apply Z.leb_le. lia.
      * intros r [<-|[<-|[]]]; lia.
Qed.

Lemma acquire_each_as_run arrivals :
  forall clock l,
    0 < permits l -> Z.of_nat (length (requestQueue l)) <= permits l ->
    exists ts l' readings,
      acquire_each 2 arrivals clock l = Some (ts, l')
      /\ length ts = length arrivals
      /\ Forall2 Z.le arrivals ts
      /\ run_acquires readings l = (ts, l')
      /\ nondecreasing readings = true
      /\ (forall r, In r readings -> clock <= r).
Proof.
  induction arrivals as [|arrival rest IH]; intros clock l Hp Hlen.
  - exists [], l, []. cbn. repeat split; auto. intros r [].
  - cbn [acquire_each].
    assert (Hsome : exists t l1, acquire 2 (Z.max arrival clock) l = Some (t, l1)).
    { destruct (acquire_two_spec (Z.max arrival clock) l Hp Hlen)
        as [(_ & _ & H)|(? & ? & _ & _ & _ & _ & _ & _ & H)]; eexists _, _; exact H. }
    destruct Hsome as (t & l1 & Hacq). rewrite Hacq.
    destruct (acquire_two_as_run _ l t l1 Hp Hlen Hacq)
      as (Hle & Hp1 & Hw1 & Hlen1 & r1 & Hrun1 & Hs1 & Hin1).
    destruct (IH t l1) as (ts & l' & r2 & Hrest & Hl & Hf2 & Hrun2 & Hs2 & Hin2);
      [rewrite Hp1; exact Hp|rewrite Hp1; exact Hlen1|].
    rewrite Hrest. exists (t :: ts), l', (r1 ++ r2).
    split; [reflexivity|]. split; [cbn [length]; rewrite Hl; reflexivity|].
    split; [constructor; [lia|exact Hf2]|].
    split; [rewrite run_acquires_app, Hrun1; cbn [fst snd]; rewrite Hrun2; reflexivity|].
    split.
    + clear - Hs1 Hs2 Hin1 Hin2. induction r1 as [|a r1 IHr]; [exact Hs2|].
      cbn [app]. apply nondecreasing_cons.
      * intros x Hx. apply in_app_or in Hx as [Hx|Hx].
        -- destruct (nondecreasing_tail a r1 Hs1) as [_ H]. apply H. exact Hx.
        -- specialize (Hin2 x Hx). specialize (Hin1 a (or_introl eq_refl)). lia.
      * apply IHr; [apply (nondecreasing_tail a r1 Hs1)|].
        intros r Hr. apply Hin1. right. exact Hr.
    + intros r Hr. apply in_app_or in Hr as [Hr|Hr];
        [specialize (Hin1 r Hr); lia|specialize (Hin2 r Hr); lia].
Qed.


(** C5 (as amended): for a limiter with [permits >= 1] no window of
    [periodMs] milliseconds holds more than [permits] recorded
    timestamps: whatever the callers and however their calls interleave,
    for clock readings that never go back, and in particular for callers
    that are served through [acquire] one after the other, each of whom
    is served, no earlier than it arrived. A call that finds the window
    full records nothing and asks to wait exactly until the oldest
    recorded timestamp is [periodMs] old, when that timestamp is no
    longer counted. [acquire] is that recursion: it returns the reading of
    a call that was granted and otherwise starts again at the reading the
    wait ends at; on a limiter that holds at most [permits] timestamps it
    records [now] when the window has room, and with a full window it
    records nothing at [now], prunes the queue again at the reading where
    the oldest timestamp leaves the window and records that reading. *)
Theorem C5_rate_window (N W : Z) (times arrivals : list Z) (clock : Z) :
  0 < N -> nondecreasing times = true ->
  (forall T, Z.of_nat (in_window W T (fst (run_acquires times (new_limiter N W)))) <= N)
  /\ (exists ts l',
        acquire_each 2 arrivals clock (new_limiter N W) = Some (ts, l')
        /\ length ts = length arrivals
        /\ Forall2 Z.le arrivals ts
        /\ forall T, Z.of_nat (in_window W T ts) <= N)
  /\ (forall now l waitTime l',
        permits l = N -> periodMs l = W ->
        acquire_once now l = (Wait waitTime, l') ->
        exists oldest rest,
          requestQueue l' = oldest :: rest
          /\ requestQueue l' = List.filter (fresh W now) (requestQueue l)
          /\ N <= Z.of_nat (length (requestQueue l'))
          /\ 0 < waitTime
          /\ now + waitTime = oldest + W
          /\ forall now', now + waitTime <= now' -> fresh W now' oldest = false)
  /\ (forall fuel now l,
        acquire (S fuel) now l
        = match acquire_once now l with
          | (Granted, l') => Some (now, l')
          | (Wait waitTime, l') => acquire fuel (now + waitTime) l'
          end)
  /\ (forall now l,
        permits l = N -> periodMs l = W ->
        Z.of_nat (length (requestQueue l)) <= N ->
        let queue := List.filter (fresh W now) (requestQueue l) in
        (Z.of_nat (length queue) < N ->
           acquire 2 now l
           = Some (now, {| permits := N; periodMs := W; requestQueue := queue ++ [now] |}))
        /\ (N <= Z.of_nat (length queue) ->
            exists oldest rest,
              queue = oldest :: rest
              /\ now < oldest + W
              /\ fresh W (oldest + W) oldest = false
              /\ acquire_once now l
                 = (Wait (oldest + W - now),
                    {| permits := N; periodMs := W; requestQueue := queue |})
              /\ acquire 2 now l
                 = Some (oldest + W,
                         {| permits := N; periodMs := W;
                            requestQueue :=
                              List.filter (fresh W (oldest + W)) queue ++ [oldest + W] |})))
  /\ (forall now l,
        permits l = N -> periodMs l = W ->
        Z.of_nat (length (requestQueue l)) <= N ->
        exists t l', acquire 2 now l = Some (t, l')
                     /\ now <= t
                     /\ exists queue, requestQueue l' = queue ++ [t]).
Proof.
  intros HN Hsorted.
  assert (Hsafe : forall times0, nondecreasing times0 = true ->
            forall T, Z.of_nat (in_window W T (fst (run_acquires times0 (new_limiter N W)))) <= N).
  { intros times0 Hs0 T. destruct (Z.le_gt_cases W 0) as [Hzero|Hpos].
    - (* a window of no length holds nothing *)
      unfold in_window.
      assert (Hempty : forall h, List.filter (fun ts => (T - W <? ts) && (ts <=? T)) h = []).
      { induction h as [|ts h IH]; [reflexivity|]. cbn [List.filter].
        replace ((T - W <? ts) && (ts <=? T)) with false; [exact IH|].
        symmetry. apply andb_false_iff.
        destruct (Z.ltb_spec (T - W) ts); [right; apply Z.leb_gt; lia|left; reflexivity]. }
      rewrite Hempty. cbn [length]. lia.
    - destruct times0 as [|t0 times0]; [cbn; lia|].
      apply (run_acquires_window (t0 :: times0) (new_limiter N W) [] t0);
        cbn [new_limiter permits periodMs requestQueue]; try assumption; try reflexivity.
      + intros t [<-|Ht]; [lia|].
        destruct (nondecreasing_tail t0 times0 Hs0) as [_ H]. apply H. exact Ht.
      + intros ts [].
      + intros T'. cbn. lia. }
  split; [apply Hsafe; exact Hsorted|]. split.
  { destruct (acquire_each_as_run arrivals clock (new_limiter N W))
      as (ts & l' & readings & Hrun & Hl & Hle & Hreadings & Hs & _).
    - exact HN.
    - cbn. lia.
    - exists ts, l'. split; [exact Hrun|]. split; [exact Hl|]. split; [exact Hle|].
      intros T. pose proof (Hsafe readings Hs T) as Hb. rewrite Hreadings in Hb. exact Hb. }
  split.
  { intros now l waitTime l' HpN HpW Hacq.
    assert (Hp : 0 < permits l) by lia.
    destruct (acquire_once_cases now l Hp) as [[_ Hgrant]|(oldest & rest & Hq & Hfull & Hw & Hwait)].
    + rewrite Hgrant in Hacq. discriminate Hacq.
    + rewrite Hwait in Hacq. injection Hacq as <- <-.
      cbn [requestQueue]. rewrite HpW in *. rewrite HpN in *.
      exists oldest, rest.
      split; [exact Hq|]. split; [reflexivity|]. split; [exact Hfull|].
      split; [exact Hw|]. split; [lia|].
      intros now' Hlater. unfold fresh. apply Z.ltb_ge. lia. }
  split; [intros fuel now l; apply acquire_unfold|].
  split.
  { intros now l HpN HpW Hlen queue.
    assert (Hp : 0 < permits l) by lia.
    assert (Hlen' : Z.of_nat (length (requestQueue l)) <= permits l) by lia.
    destruct (acquire_two_spec now l Hp Hlen')
      as [(Hroom & _ & Htwo)|(oldest & rest & Hq & Hfull & Hlater & Hout & Hwait & _ & Htwo)];
      rewrite HpN, HpW in *; fold queue in Hroom || fold queue in Hq, Hfull, Hwait, Htwo.
    - split; [intros _; exact Htwo|]. intros Hfull. fold queue in Htwo. lia.
    - split; [intros Hroom; lia|]. intros _. exists oldest, rest.
      split; [exact Hq|]. split; [exact Hlater|]. split; [exact Hout|].
      split; [|exact Htwo].
      rewrite Hwait. f_equal. f_equal. lia. }
  intros now l HpN HpW Hlen. apply acquire_returns; lia.
Qed.

Lemma C5_rate_window_witness :
  0 < 2
  /\ nondecreasing [0; 0; 10; 999; 1000; 1000; 1005; 2500] = true
  /\ Z.of_nat (in_window 1000 1005
        (fst (run_acquires [0; 0; 10; 999; 1000; 1000; 1005; 2500] (new_limiter 2 1000))))
     <= 2
  /\ exists ts l',
       acquire_each 2 [0; 0; 0; 500] 0 (new_limiter 2 1000) = Some (ts, l')
       /\ forall T, Z.of_nat (in_window 1000 T ts) <= 2.
Proof.
  assert (H0 : 0 < 2) by lia.
  assert (H1 : nondecreasing [0; 0; 10; 999; 1000; 1000; 1005; 2500] = true) by reflexivity.
  split; [exact H0|]. split; [exact H1|].
  destruct (C5_rate_window 2 1000 [0; 0; 10; 999; 1000; 1000; 1005; 2500] [0; 0; 0; 500] 0
              H0 H1) as (Hsafe & (ts & l' & Hrun & _ & _ & Hbound) & _).
  split; [apply Hsafe|]. exists ts, l'. split; [exact Hrun|exact Hbound].
Defined.

(** C5 as stated fails for a limiter with no permit: the queue is empty,
    so there is no oldest timestamp to wait for, the call records its
    timestamp at once, and the window that ends at that reading holds one
    recorded timestamp, more than the 0 permits. *)
Lemma C5_zero_permits_exceed_the_bound :
  acquire 2 0 (new_limiter 0 1000)
  = Some (0, {| permits := 0; periodMs := 1000; requestQueue := [0] |})
  /\ acquire_each 2 [0] 0 (new_limiter 0 1000)
     = Some ([0], {| permits := 0; periodMs := 1000; requestQueue := [0] |})
  /\ fst (run_acquires [0] (new_limiter 0 1000)) = [0]
  /\ ~ Z.of_nat (in_window 1000 0 [0]) <= 0.
Proof.
  split; [reflexivity|]. split; [reflexivity|]. split; [reflexivity|].
  vm_compute. intros H. apply H. reflexivity.
Qed.

(** With [permits = 0] a call that finds the queue empty reads
    [requestQueue[0]] as undefined, the comparison with NaN is false and
    the call records its timestamp: such a limiter lets one request
    through per window, like one with a single permit. *)
Remark zero_permits_grant_one :
  fst (run_acquires [0; 0; 5; 1000] (new_limiter 0 1000)) = [0; 1000].
Proof. reflexivity. Qed.

End RateLimiterFacts.

(** ** The transport *)

Section TransportFacts.
Import NetworkUtils.

Lemma fetch_count_log_fetch url w :
  fetch_count (trace (log (EvFetch url) w)) = S (fetch_count (trace w)).
Proof.
  unfold fetch_count, log. cbn [trace].
  rewrite List.filter_app, length_app. cbn. lia.
Qed.

Lemma fetch_count_log_sleep ms w :
  fetch_count (trace (log (EvSleep ms) w)) = fetch_count (trace w).
Proof.
  unfold fetch_count, log. cbn [trace].
  rewrite List.filter_app, length_app. cbn. lia.
Qed.

Lemma attempt_turn_fails cfg url attempt e w err :
  failure_of (remote e (fetch_count (trace w)) url) = Some err ->
  attempt_turn cfg url attempt e w
  = (Returns (TCaught err),
     if (attempt <? maxRetries cfg - 1)%nat
     then log (EvSleep (2 ^ Z.of_nat attempt * 1000)) (log (EvFetch url) w)
     else log (EvFetch url) w).
Proof.
  intros Hfail. unfold attempt_turn, try_catch, bind, fetchWithTimeout, try_catch, fetch.
  destruct (remote e (fetch_count (trace w)) url) as [r|c|]; cbn in Hfail;
    [discriminate| |]; injection Hfail as <-;
    destruct (attempt <? maxRetries cfg - 1)%nat; reflexivity.
Qed.

Lemma challenge_status r t :
  isCloudflareChallenge r t = true ->
  (status r =? 403) || (status r =? 503) = true.
Proof.
  unfold isCloudflareChallenge. intros H.
  destruct ((status r =? 403) || (status r =? 503)); [reflexivity|].
  cbn in H. discriminate H.
Qed.

Lemma attempt_turn_blocked cfg url attempt e w r t :
  checkCloudflare cfg = true ->
  remote e (fetch_count (trace w)) url = Resolves r ->
  text r = Some t ->
  isCloudflareChallenge r t = true ->
  attempt_turn cfg url attempt e w
  = if (attempt <? maxRetries cfg - 1)%nat
    then (Returns TContinue,
          log (EvSleep (2 ^ (Z.of_nat attempt + 1) * 1000)) (log (EvFetch url) w))
    else (Returns (TCaught CloudflareNotBypassed), log (EvFetch url) w).
Proof.
  intros Hcheck Hremote Htext Hblocked.
  unfold attempt_turn, try_catch, bind, fetchWithTimeout, try_catch, fetch.
  rewrite Hremote, Hcheck, (challenge_status r t Hblocked).
  cbn [andb]. unfold response_text. rewrite Htext. unfold ret.
  rewrite Hblocked.
  destruct (attempt <? maxRetries cfg - 1)%nat eqn:Hlast.
  - reflexivity.
  - reflexivity.
Qed.

Lemma attempt_turn_plain cfg url attempt e w r :
  remote e (fetch_count (trace w)) url = Resolves r ->
  plain_answer cfg r ->
  attempt_turn cfg url attempt e w = (Returns (TReturn r), log (EvFetch url) w).
Proof.
  intros Hremote Hplain.
  unfold attempt_turn, try_catch, bind, fetchWithTimeout, try_catch, fetch.
  rewrite Hremote.
  destruct Hplain as [Hoff|[Hstatus|(t & Htext & Hno)]].
  - rewrite Hoff. reflexivity.
  - rewrite Hstatus, andb_false_r. reflexivity.
  - destruct (checkCloudflare cfg && ((status r =? 403) || (status r =? 503))); [|reflexivity].
    unfold response_text. rewrite Htext. unfold ret. rewrite Hno.
    destruct r as [st sv tx]. cbn in Htext. subst tx. reflexivity.
Qed.

Lemma sleeps_log_sleep ms w : sleeps (trace (log (EvSleep ms) w)) = sleeps (trace w) ++ [ms].
Proof. unfold sleeps, log. cbn [trace]. rewrite flat_map_app. reflexivity. Qed.

Lemma sleeps_log_fetch url w : sleeps (trace (log (EvFetch url) w)) = sleeps (trace w).
Proof. unfold sleeps, log. cbn [trace]. rewrite flat_map_app. cbn. apply app_nil_r. Qed.

Lemma fetched_log_fetch url w : fetched (trace (log (EvFetch url) w)) = fetched (trace w) ++ [url].
Proof. unfold fetched, log. cbn [trace]. rewrite flat_map_app. reflexivity. Qed.

Lemma fetched_log_sleep ms w : fetched (trace (log (EvSleep ms) w)) = fetched (trace w).
Proof. unfold fetched, log. cbn [trace]. rewrite flat_map_app. cbn. apply app_nil_r. Qed.

Lemma backoffs_cons first n :
  backoffs first (S n) = 2 ^ Z.of_nat first * 1000 :: backoffs (S first) n.
Proof. reflexivity. Qed.

Lemma repeat_snoc {A} (x : A) n : repeat x n ++ [x] = x :: repeat x n.
Proof. induction n as [|n IH]; [reflexivity|]. cbn. rewrite IH. reflexivity. Qed.

(** When no request is answered, the loop of [fetchWithRetry] makes all
    its attempts, sleeps [2^attempt] seconds between two of them and
    throws what the last attempt threw. *)
Lemma retry_loop_unreachable cfg url e :
  unreachable e url ->
  forall n attempt lastError w,
    (attempt + S n = maxRetries cfg)%nat ->
    exists err w',
      for_attempts (attempt_turn cfg url) (S n) attempt lastError e w = (Throws err, w')
      /\ failure_of (remote e (fetch_count (trace w) + n) url) = Some err
      /\ sleeps (trace w') = sleeps (trace w) ++ backoffs attempt n
      /\ fetched (trace w') = fetched (trace w) ++ repeat url (S n).
Proof.
  intros Hdown. induction n as [|n IH]; intros attempt lastError w Hsum.
  - destruct (Hdown (fetch_count (trace w))) as [err Herr].
    cbn [for_attempts]. unfold bind at 1.
    rewrite (attempt_turn_fails cfg url attempt e w err Herr).
    replace (attempt <? maxRetries cfg - 1)%nat with false
      by (symmetry; apply Nat.ltb_ge; lia).
    exists err, (log (EvFetch url) w). cbn [default from_option throw].
    rewrite Nat.add_0_r, sleeps_log_fetch, fetched_log_fetch, app_nil_r.
    repeat split; auto.
  - destruct (Hdown (fetch_count (trace w))) as [err Herr].
    cbn [for_attempts]. unfold bind at 1.
    rewrite (attempt_turn_fails cfg url attempt e w err Herr).
    replace (attempt <? maxRetries cfg - 1)%nat with true
      by (symmetry; apply Nat.ltb_lt; lia).
    destruct (IH (S attempt) (Some err)
                 (log (EvSleep (2 ^ Z.of_nat attempt * 1000)) (log (EvFetch url) w)))
      as (err' & w' & Hrun & Hlast & Hsleeps & Hfetched); [lia|].
    exists err', w'. cbn [for_attempts] in Hrun. rewrite Hrun.
    rewrite fetch_count_log_sleep, fetch_count_log_fetch in Hlast.
    rewrite sleeps_log_sleep, sleeps_log_fetch in Hsleeps.
    rewrite fetched_log_sleep, fetched_log_fetch in Hfetched.
    split; [reflexivity|]. split; [|split].
    + rewrite <- Hlast. f_equal. f_equal. lia.
    + rewrite Hsleeps, backoffs_cons, <- app_assoc. reflexivity.
    + rewrite Hfetched, <- app_assoc. reflexivity.
Qed.

(** When every answer is a challenge and the check is on, the loop sleeps
    [2^(attempt+1)] seconds after each attempt but the last and then
    throws that the challenge could not be bypassed. *)
Lemma retry_loop_blocked cfg url e :
  checkCloudflare cfg = true ->
  always_blocked e url ->
  forall n attempt lastError w,
    (attempt + S n = maxRetries cfg)%nat ->
    exists w',
      for_attempts (attempt_turn cfg url) (S n) attempt lastError e w
      = (Throws CloudflareNotBypassed, w')
      /\ sleeps (trace w') = sleeps (trace w) ++ backoffs (S attempt) n
      /\ fetched (trace w') = fetched (trace w) ++ repeat url (S n).
Proof.
  intros Hcheck Hblocked. induction n as [|n IH]; intros attempt lastError w Hsum.
  - destruct (Hblocked (fetch_count (trace w))) as (r & t & Hr & Ht & Hc).
    cbn [for_attempts]. unfold bind at 1.
    rewrite (attempt_turn_blocked cfg url attempt e w r t Hcheck Hr Ht Hc).
    replace (attempt <? maxRetries cfg - 1)%nat with false
      by (symmetry; apply Nat.ltb_ge; lia).
    exists (log (EvFetch url) w). cbn [default from_option throw].
    rewrite sleeps_log_fetch, fetched_log_fetch, app_nil_r.
    repeat split; auto.
  - destruct (Hblocked (fetch_count (trace w))) as (r & t & Hr & Ht & Hc).
    cbn [for_attempts]. unfold bind at 1.
    rewrite (attempt_turn_blocked cfg url attempt e w r t Hcheck Hr Ht Hc).
    replace (attempt <? maxRetries cfg - 1)%nat with true
      by (symmetry; apply Nat.ltb_lt; lia).
    destruct (IH (S attempt) lastError
                 (log (EvSleep (2 ^ (Z.of_nat attempt + 1) * 1000)) (log (EvFetch url) w)))
      as (w' & Hrun & Hsleeps & Hfetched); [lia|].
    exists w'. cbn [for_attempts] in Hrun. rewrite Hrun.
    rewrite sleeps_log_sleep, sleeps_log_fetch in Hsleeps.
    rewrite fetched_log_sleep, fetched_log_fetch in Hfetched.
    split; [reflexivity|]. split.
    + rewrite Hsleeps, (backoffs_cons (S attempt)), <- app_assoc.
      replace (Z.of_nat (S attempt)) with (Z.of_nat attempt + 1) by lia. reflexivity.
    + rewrite Hfetched, <- app_assoc. reflexivity.
Qed.

Lemma fetchWithRetry_plain cfg url e w r :
  (0 < maxRetries cfg)%nat ->
  remote e (fetch_count (trace w)) url = Resolves r ->
  plain_answer cfg r ->
  fetchWithRetry url cfg e w = (Returns r, log (EvFetch url) w).
Proof.
  intros Hpos Hremote Hplain. unfold fetchWithRetry.
  destruct (maxRetries cfg) as [|n]; [lia|].
  cbn [for_attempts]. unfold bind.
  rewrite (attempt_turn_plain cfg url 0 e w r Hremote Hplain). reflexivity.
Qed.

End TransportFacts.

(** ** The mirror domains of Bato *)

Section BatoTransportFacts.
Import Bato.

Lemma cloudflare_turn_shape url attempt e w :
  exists t w',
    cloudflare_turn url attempt e w = (Returns t, w')
    /\ fetched (trace w') = fetched (trace w) ++ [url]
    /\ CURRENT_BATO_URL w' = CURRENT_BATO_URL w
    /\ forall r, t = TReturn r ->
                 remote e (fetch_count (trace w)) url = Resolves r
                 /\ (ok r = true \/ status r = 404).
Proof.
  unfold cloudflare_turn, try_catch, bind, fetch.
  destruct (remote e (fetch_count (trace w)) url) as [r|c|].
  - destruct (edge_answer r).
    + unfold response_text. destruct (text r) as [t|].
      * unfold ret. destruct (challenge_markers t).
        -- eexists _, _. split; [reflexivity|].
           rewrite fetched_log_sleep, fetched_log_fetch. split; [reflexivity|]. split; [reflexivity|].
           intros r' H; discriminate H.
        -- destruct (ok r) eqn:Hok; cbn [negb andb].
           ++ eexists _, _. split; [reflexivity|].
              rewrite fetched_log_fetch. split; [reflexivity|]. split; [reflexivity|].
              intros r' [= <-]. split; [reflexivity|left; exact Hok].
           ++ destruct (status r =? 404) eqn:H404; cbn [negb].
              ** eexists _, _. split; [reflexivity|].
                 rewrite fetched_log_fetch. split; [reflexivity|]. split; [reflexivity|].
                 intros r' [= <-]. split; [reflexivity|right; apply Z.eqb_eq; exact H404].
              ** unfold throw. destruct (attempt <? 3 - 1)%nat;
                   (eexists _, _; split; [reflexivity|]);
                   rewrite ?fetched_log_sleep, fetched_log_fetch; (split; [reflexivity|]; split; [reflexivity|]);
                   intros r' H; discriminate H.
      * unfold throw. destruct (attempt <? 3 - 1)%nat;
          (eexists _, _; split; [reflexivity|]);
          rewrite ?fetched_log_sleep, fetched_log_fetch; (split; [reflexivity|]; split; [reflexivity|]);
          intros r' H; discriminate H.
    + unfold ret. destruct (ok r) eqn:Hok; cbn [negb andb].
      * eexists _, _. split; [reflexivity|].
        rewrite fetched_log_fetch. split; [reflexivity|]. split; [reflexivity|].
        intros r' [= <-]. split; [reflexivity|left; exact Hok].
      * destruct (status r =? 404) eqn:H404; cbn [negb].
        -- eexists _, _. split; [reflexivity|].
           rewrite fetched_log_fetch. split; [reflexivity|]. split; [reflexivity|].
           intros r' [= <-]. split; [reflexivity|right; apply Z.eqb_eq; exact H404].
        -- unfold throw. destruct (attempt <? 3 - 1)%nat;
             (eexists _, _; split; [reflexivity|]);
             rewrite ?fetched_log_sleep, fetched_log_fetch; (split; [reflexivity|]; split; [reflexivity|]);
             intros r' H; discriminate H.
  - destruct (attempt <? 3 - 1)%nat;
      (eexists _, _; split; [reflexivity|]);
      rewrite ?fetched_log_sleep, fetched_log_fetch; (split; [reflexivity|]; split; [reflexivity|]);
      intros r' H; discriminate H.
  - destruct (attempt <? 3 - 1)%nat;
      (eexists _, _; split; [reflexivity|]);
      rewrite ?fetched_log_sleep, fetched_log_fetch; (split; [reflexivity|]; split; [reflexivity|]);
      intros r' H; discriminate H.
Qed.

(** A call of [cloudflareBypassFetch] requests its URL, and nothing else,
    between once and [n] times; it does not write [CURRENT_BATO_URL]; what
    it returns is a 2xx or a 404 answer. *)
Lemma bypass_loop_shape url e n :
  forall attempt lastError w,
    exists o w' k,
      for_attempts (cloudflare_turn url) n attempt lastError e w = (o, w')
      /\ (k <= n)%nat /\ (0 < n -> 0 < k)%nat
      /\ fetched (trace w') = fetched (trace w) ++ repeat url k
      /\ CURRENT_BATO_URL w' = CURRENT_BATO_URL w
      /\ match o with
         | Returns r => (exists j, remote e j url = Resolves r)
                        /\ (ok r = true \/ status r = 404)
         | Throws _ => True
         | Diverges => False
         end.
Proof.
  induction n as [|n IH]; intros attempt lastError w.
  - exists (Throws (default AllAttemptsFailed lastError)), w, 0%nat.
    cbn [for_attempts throw repeat]. rewrite app_nil_r. repeat split; auto; lia.
  - destruct (cloudflare_turn_shape url attempt e w) as (t & w1 & Hturn & Hf1 & Hc1 & Hret).
    cbn [for_attempts]. unfold bind at 1. rewrite Hturn.
    destruct t as [r| |err].
    + exists (Returns r), w1, 1%nat. unfold ret. cbn [repeat].
      destruct (Hret r eq_refl) as [Hfrom Hkind].
      repeat split; auto; try lia. eexists; exact Hfrom.
    + destruct (IH (S attempt) lastError w1) as (o & w' & k & Hrun & Hk & _ & Hf & Hc & Ho).
      exists o, w', (S k). rewrite Hrun, Hf, Hf1, Hc, Hc1, <- app_assoc.
      repeat split; auto; lia.
    + destruct (IH (S attempt) (Some err) w1) as (o & w' & k & Hrun & Hk & _ & Hf & Hc & Ho).
      exists o, w', (S k). rewrite Hrun, Hf, Hf1, Hc, Hc1, <- app_assoc.
      repeat split; auto; lia.
Qed.

Lemma try_domains_shape path e domains :
  forall w,
    exists o w' counts,
      try_domains domains path e w = (o, w')
      /\ fetched (trace w') = fetched (trace w) ++ attempts_on path domains counts
      /\ (length counts <= length domains)%nat
      /\ Forall (fun k => 1 <= k <= 3)%nat counts
      /\ match o with
         | Returns r =>
             ok r = true
             /\ (exists j url, remote e j url = Resolves r)
             /\ exists domain, domains !! (length counts - 1)%nat = Some domain
                               /\ counts <> []
                               /\ CURRENT_BATO_URL w' = domain
         | Throws err =>
             err = AllDomainsFailed
             /\ length counts = length domains
             /\ CURRENT_BATO_URL w' = CURRENT_BATO_URL w
         | Diverges => False
         end.
Proof.
  induction domains as [|domain ds IH]; intros w.
  - exists (Throws AllDomainsFailed), w, []. cbn [try_domains throw attempts_on].
    rewrite app_nil_r. repeat split; auto.
  - cbn [try_domains]. unfold bind at 1, try_catch, bind, cloudflareBypassFetch.
    destruct (bypass_loop_shape (domain ++ path) e 3 0 None w)
      as (o1 & w1 & k & Hrun & Hk & Hk1 & Hf1 & Hc1 & Ho1).
    rewrite Hrun.
    assert (Hnext :
      forall w2, fetched (trace w2) = fetched (trace w1) ->
                 CURRENT_BATO_URL w2 = CURRENT_BATO_URL w1 ->
      exists o w' counts,
        try_domains ds path e w2 = (o, w')
        /\ fetched (trace w') = fetched (trace w) ++ attempts_on path (domain :: ds) counts
        /\ (length counts <= length (domain :: ds))%nat
        /\ Forall (fun k => 1 <= k <= 3)%nat counts
        /\ match o with
           | Returns r =>
               ok r = true
               /\ (exists j url, remote e j url = Resolves r)
               /\ exists d, (domain :: ds) !! (length counts - 1)%nat = Some d
                            /\ counts <> []
                            /\ CURRENT_BATO_URL w' = d
           | Throws err =>
               err = AllDomainsFailed
               /\ length counts = length (domain :: ds)
               /\ CURRENT_BATO_URL w' = CURRENT_BATO_URL w
           | Diverges => False
           end).
    { intros w2 Hf2 Hc2.
      destruct (IH w2) as (o & w' & counts & Hrest & Hf & Hlen & Hall & Ho).
      exists o, w', (k :: counts). cbn [attempts_on length].
      split; [exact Hrest|]. split; [rewrite Hf, Hf2, Hf1, <- app_assoc; reflexivity|].
      split; [lia|]. split; [constructor; [lia|exact Hall]|].
      destruct o as [r|err|]; [|destruct Ho as (-> & Hl & Hcur); repeat split; auto; congruence|exact Ho].
      destruct Ho as (Hok & Hfrom & d & Hd & Hne & Hcur). split; [exact Hok|].
      split; [exact Hfrom|].
      exists d. split; [|split; [discriminate|exact Hcur]].
      destruct counts as [|k0 counts]; [congruence|].
      cbn [length] in *. replace (S (S (length counts)) - 1)%nat with (S (length counts)) by lia.
      replace (S (length counts) - 1)%nat with (length counts) in Hd by lia.
      exact Hd. }
    destruct o1 as [r|err|]; [|apply Hnext; reflexivity|contradiction].
    destruct (ok r) eqn:Hok.
    + exists (Returns r), {| trace := trace w1; CURRENT_BATO_URL := domain |}, [k].
      unfold write_current, ret. cbn [attempts_on trace length CURRENT_BATO_URL].
      replace (attempts_on path ds []) with (@nil jsstring) by (destruct ds; reflexivity).
      rewrite app_nil_r. split; [reflexivity|]. split; [exact Hf1|].
      split; [lia|]. split; [constructor; [lia|constructor]|].
      split; [exact Hok|]. destruct Ho1 as [[j Hj] _].
      split; [exists j, (domain ++ path); exact Hj|].
      exists domain. split; [reflexivity|]. split; [discriminate|reflexivity].
    + unfold ret. apply Hnext; reflexivity.
Qed.

Lemma cloudflare_turn_http_error url attempt e w r :
  remote e (fetch_count (trace w)) url = Resolves r ->
  edge_answer r = false -> ok r = false -> status r <> 404 ->
  cloudflare_turn url attempt e w
  = (Returns (TCaught (HttpError (status r))),
     if (attempt <? 3 - 1)%nat
     then log (EvSleep (2 ^ Z.of_nat attempt * 1000)) (log (EvFetch url) w)
     else log (EvFetch url) w).
Proof.
  intros Hremote Hedge Hok H404.
  unfold cloudflare_turn, try_catch, bind, fetch. rewrite Hremote, Hedge.
  unfold ret. rewrite Hok.
  replace (status r =? 404) with false by (symmetry; apply Z.eqb_neq; exact H404).
  cbn [negb andb]. unfold throw. destruct (attempt <? 3 - 1)%nat; reflexivity.
Qed.

Lemma bypass_http_error url e w r :
  (forall k, remote e k url = Resolves r) ->
  edge_answer r = false -> ok r = false -> status r <> 404 ->
  exists w',
    cloudflareBypassFetch url e w = (Throws (HttpError (status r)), w')
    /\ sleeps (trace w') = sleeps (trace w) ++ [1000; 2000]
    /\ fetched (trace w') = fetched (trace w) ++ [url; url; url].
Proof.
  intros Hall Hedge Hok H404. unfold cloudflareBypassFetch.
  cbn [for_attempts]. unfold bind.
  rewrite (cloudflare_turn_http_error url 0 e w r (Hall _) Hedge Hok H404).
  cbn [Nat.ltb Nat.leb Nat.sub].
  rewrite (cloudflare_turn_http_error url 1 e _ r (Hall _) Hedge Hok H404).
  cbn [Nat.ltb Nat.leb Nat.sub].
  rewrite (cloudflare_turn_http_error url 2 e _ r (Hall _) Hedge Hok H404).
  cbn [Nat.ltb Nat.leb Nat.sub].
  eexists. split; [reflexivity|].
  repeat first [rewrite sleeps_log_fetch | rewrite sleeps_log_sleep
               | rewrite fetched_log_fetch | rewrite fetched_log_sleep].
  rewrite <- !app_assoc. split; reflexivity.
Qed.

Lemma bypass_returns_404 url e w r :
  remote e (fetch_count (trace w)) url = Resolves r ->
  edge_answer r = false -> status r = 404 ->
  cloudflareBypassFetch url e w = (Returns r, log (EvFetch url) w).
Proof.
  intros Hremote Hedge H404. unfold cloudflareBypassFetch.
  cbn [for_attempts]. unfold bind, cloudflare_turn, try_catch, bind, fetch.
  rewrite Hremote, Hedge. unfold ret.
  replace (status r =? 404) with true by (symmetry; apply Z.eqb_eq; exact H404).
  rewrite andb_false_r. reflexivity.
Qed.

Lemma cloudflare_turn_fails url attempt e w err :
  raw_failure_of (remote e (fetch_count (trace w)) url) = Some err ->
  cloudflare_turn url attempt e w
  = (Returns (TCaught err),
     if (attempt <? 3 - 1)%nat
     then log (EvSleep (2 ^ Z.of_nat attempt * 1000)) (log (EvFetch url) w)
     else log (EvFetch url) w).
Proof.
  intros Hfail. unfold cloudflare_turn, try_catch, bind, fetch.
  destruct (remote e (fetch_count (trace w)) url) as [r|c|]; cbn in Hfail;
    [discriminate| |]; injection Hfail as <-;
    destruct (attempt <? 3 - 1)%nat; reflexivity.
Qed.

Lemma raw_failure_when_unreachable e url k :
  NetworkUtils.unreachable e url -> exists err, raw_failure_of (remote e k url) = Some err.
Proof.
  intros Hdown. destruct (Hdown k) as [err Herr].
  destruct (remote e k url); cbn in *; [discriminate|eexists; reflexivity..].
Qed.

Lemma bypass_unreachable url e w :
  NetworkUtils.unreachable e url ->
  exists err w',
    cloudflareBypassFetch url e w = (Throws err, w')
    /\ raw_failure_of (remote e (fetch_count (trace w) + 2) url) = Some err
    /\ sleeps (trace w') = sleeps (trace w) ++ [1000; 2000]
    /\ fetched (trace w') = fetched (trace w) ++ [url; url; url].
Proof.
  intros Hdown. unfold cloudflareBypassFetch. cbn [for_attempts]. unfold bind.
  destruct (raw_failure_when_unreachable e url (fetch_count (trace w)) Hdown) as [e0 H0].
  rewrite (cloudflare_turn_fails url 0 e w e0 H0). cbn [Nat.ltb Nat.leb Nat.sub].
  set (w1 := log (EvSleep (2 ^ Z.of_nat 0 * 1000)) (log (EvFetch url) w)).
  destruct (raw_failure_when_unreachable e url (fetch_count (trace w1)) Hdown) as [e1 H1].
  rewrite (cloudflare_turn_fails url 1 e w1 e1 H1). cbn [Nat.ltb Nat.leb Nat.sub].
  set (w2 := log (EvSleep (2 ^ Z.of_nat 1 * 1000)) (log (EvFetch url) w1)).
  destruct (raw_failure_when_unreachable e url (fetch_count (trace w2)) Hdown) as [e2 H2].
  rewrite (cloudflare_turn_fails url 2 e w2 e2 H2). cbn [Nat.ltb Nat.leb Nat.sub].
  exists e2, (log (EvFetch url) w2). cbn [default from_option throw].
  split; [reflexivity|]. split; [|split].
  - rewrite <- H2. f_equal. f_equal. unfold w2, w1.
    rewrite !fetch_count_log_sleep, !fetch_count_log_fetch, !fetch_count_log_sleep,
      !fetch_count_log_fetch. lia.
  - unfold w2, w1.
    repeat first [rewrite sleeps_log_fetch | rewrite sleeps_log_sleep].
    rewrite <- !app_assoc. reflexivity.
  - unfold w2, w1.
    repeat first [rewrite fetched_log_fetch | rewrite fetched_log_sleep].
    rewrite <- !app_assoc. reflexivity.
Qed.

(** One turn of the loop over the domains: an ok response ends the loop
    and makes its domain the current one; anything else goes on with the
    next domain. *)
Lemma try_domains_step domain rest path e w :
  try_domains (domain :: rest) path e w
  = match cloudflareBypassFetch (domain ++ path) e w with
    | (Returns response, w1) =>
        if ok response
        then (Returns response, {| trace := trace w1; CURRENT_BATO_URL := domain |})
        else try_domains rest path e w1
    | (Throws _, w1) => try_domains rest path e w1
    | (Diverges, w1) => (Diverges, w1)
    end.
Proof.
  cbn [try_domains]. unfold bind at 1, try_catch, bind.
  destruct (cloudflareBypassFetch (domain ++ path) e w) as [[response|err|] w1];
    [|reflexivity|reflexivity].
  destruct (ok response); reflexivity.
Qed.

(** C1 (as amended): every call of [tryBatoDomains] requests the domains
    of [BATO_DOMAINS] in the order of that list, starting with its first
    domain whatever [CURRENT_BATO_URL] holds, each domain one to three
    times, and stops at the first domain that gives an ok response; it
    then returns that response and stores the domain in
    [CURRENT_BATO_URL]. When no domain gives one, all three were tried,
    the call throws and [CURRENT_BATO_URL] is unchanged. The list itself
    is never reordered. *)
Theorem C1_domains_in_fixed_order (path : jsstring) (e : env) (w : world) :
  tryBatoDomains path e w = try_domains BATO_DOMAINS path e w
  /\ (forall domain rest w0,
        try_domains (domain :: rest) path e w0
        = match cloudflareBypassFetch (domain ++ path) e w0 with
          | (Returns response, w1) =>
              if ok response
              then (Returns response, {| trace := trace w1; CURRENT_BATO_URL := domain |})
              else try_domains rest path e w1
          | (Throws _, w1) => try_domains rest path e w1
          | (Diverges, w1) => (Diverges, w1)
          end)
  /\ exists o w' counts,
    tryBatoDomains path e w = (o, w')
    /\ fetched (trace w') = fetched (trace w) ++ attempts_on path BATO_DOMAINS counts
    /\ (exists rest, attempts_on path BATO_DOMAINS counts
                     = (js "https://bato.to" ++ path) :: rest)
    /\ (length counts <= 3)%nat
    /\ Forall (fun k => 1 <= k <= 3)%nat counts
    /\ match o with
       | Returns r =>
           ok r = true
           /\ exists domain, BATO_DOMAINS !! (length counts - 1)%nat = Some domain
                             /\ CURRENT_BATO_URL w' = domain
       | Throws err =>
           err = AllDomainsFailed
           /\ length counts = 3%nat
           /\ CURRENT_BATO_URL w' = CURRENT_BATO_URL w
       | Diverges => False
       end.
Proof.
  split; [reflexivity|]. split; [intros domain rest w0; apply try_domains_step|].
  destruct (try_domains_shape path e BATO_DOMAINS w)
    as (o & w' & counts & Hrun & Hf & Hlen & Hall & Ho).
  exists o, w', counts. split; [exact Hrun|]. split; [exact Hf|].
  assert (Hne : counts <> []).
  { destruct o as [r|err|]; [destruct Ho as (_ & _ & d & _ & Hne & _); exact Hne| |contradiction].
    destruct Ho as (_ & Hl & _). intros ->. discriminate Hl. }
  split.
  - destruct counts as [|k counts]; [congruence|].
    apply Forall_cons in Hall as [Hk _].
    destruct k as [|k]; [lia|]. cbn [BATO_DOMAINS attempts_on repeat].
    eexists. rewrite <- app_comm_cons. reflexivity.
  - split; [exact Hlen|]. split; [exact Hall|].
    destruct o as [r|err|]; [|exact Ho|exact Ho].
    destruct Ho as (Hok & _ & d & Hd & _ & Hcur). split; [exact Hok|].
    exists d. split; assumption.
Qed.

(** C1 as stated fails: the first search succeeded on the third domain,
    which is now [CURRENT_BATO_URL]; the next call still sends its first
    request to the first domain of the list, and reaches the third domain
    only after three attempts on each of the other two. *)
Lemma C1_next_call_starts_at_first_domain :
  CURRENT_BATO_URL after_first_search = js "https://mto.to"
  /\ skipn (length (fetched (trace after_first_search)))
       (fetched (trace (snd (tryBatoDomains (js "/search?word=b") third_mirror_only
                               after_first_search))))
     = [ js "https://bato.to/search?word=b"; js "https://bato.to/search?word=b";
         js "https://bato.to/search?word=b";
         js "https://battwo.com/search?word=b"; js "https://battwo.com/search?word=b";
         js "https://battwo.com/search?word=b";
         js "https://mto.to/search?word=b" ].
Proof. split; vm_compute; reflexivity. Qed.

End BatoTransportFacts.

(** ** Retry and backoff *)

Section RetryFacts.
Import NetworkUtils Bato.

(** C3 (as amended): [fetchWithRetry] retries thrown errors only. When no
    request is answered it makes [maxRetries] attempts, sleeps
    [2^attempt] seconds after each attempt but the last and throws the
    error of the last attempt. A response that is not taken for a
    challenge, whatever its status, is returned after the first request
    without sleep or retry. [cloudflareBypassFetch] retries thrown
    errors in the same way (three attempts, sleeps of 1 s and 2 s); it
    does retry a non-2xx answer other than 404, which it turns into a
    thrown HTTP error, and returns a 404 answer at once. *)
Theorem C3_what_is_retried (cfg : config) (url : jsstring) (e : env) (w : world) :
  (0 < maxRetries cfg)%nat ->
  (unreachable e url ->
     exists err w',
       fetchWithRetry url cfg e w = (Throws err, w')
       /\ failure_of (remote e (fetch_count (trace w) + (maxRetries cfg - 1)) url) = Some err
       /\ sleeps (trace w') = sleeps (trace w) ++ backoffs 0 (maxRetries cfg - 1)
       /\ fetched (trace w') = fetched (trace w) ++ repeat url (maxRetries cfg))
  /\ (forall r, remote e (fetch_count (trace w)) url = Resolves r ->
                plain_answer cfg r ->
                fetchWithRetry url cfg e w = (Returns r, log (EvFetch url) w))
  /\ (forall r, (forall k, remote e k url = Resolves r) ->
                edge_answer r = false -> ok r = false -> status r <> 404 ->
                exists w',
                  cloudflareBypassFetch url e w = (Throws (HttpError (status r)), w')
                  /\ sleeps (trace w') = sleeps (trace w) ++ [1000; 2000]
                  /\ fetched (trace w') = fetched (trace w) ++ [url; url; url])
  /\ (forall r, remote e (fetch_count (trace w)) url = Resolves r ->
                edge_answer r = false -> status r = 404 ->
                cloudflareBypassFetch url e w = (Returns r, log (EvFetch url) w))
  /\ (unreachable e url ->
      exists err w',
        cloudflareBypassFetch url e w = (Throws err, w')
        /\ raw_failure_of (remote e (fetch_count (trace w) + 2) url) = Some err
        /\ sleeps (trace w') = sleeps (trace w) ++ [1000; 2000]
        /\ fetched (trace w') = fetched (trace w) ++ [url; url; url]).
Proof.
  intros Hpos. split; [|split; [|split; [|split]]].
  - intros Hdown. unfold fetchWithRetry.
    destruct (maxRetries cfg) as [|n] eqn:Hn; [lia|].
    destruct (retry_loop_unreachable cfg url e Hdown n 0 None w) as (err & w' & H1 & H2 & H3 & H4);
      [lia|].
    exists err, w'. replace (S n - 1)%nat with n by lia. repeat split; assumption.
  - intros r Hr Hplain. apply fetchWithRetry_plain; assumption.
  - intros r Hall Hedge Hok H404. apply bypass_http_error; assumption.
  - intros r Hr Hedge H404. apply bypass_returns_404; assumption.
  - intros Hdown. apply bypass_unreachable. exact Hdown.
Qed.

Lemma C3_what_is_retried_witness :
  (0 < maxRetries default_config)%nat
  /\ exists err w',
       fetchWithRetry sample_url default_config silent_env initial_world = (Throws err, w')
       /\ sleeps (trace w') = [1000; 2000]
       /\ fetched (trace w') = [sample_url; sample_url; sample_url].
Proof.
  assert (Hpos : (0 < maxRetries default_config)%nat) by (cbn; lia).
  split; [exact Hpos|].
  destruct (C3_what_is_retried default_config sample_url silent_env initial_world Hpos)
    as [Hdown _].
  destruct Hdown as (err & w' & Hrun & _ & Hs & Hf).
  - intros k. exists TimeoutMessage. reflexivity.
  - exists err, w'. split; [exact Hrun|]. split; [exact Hs|exact Hf].
Defined.

(** C3 as stated fails: a server that answers every request with a plain
    500 gets one request; the 500 response is returned, nothing is slept,
    nothing is retried and the call does not fail. *)
Lemma C3_server_error_not_retried :
  ok error500 = false
  /\ isCloudflareChallenge error500 (js "Internal Server Error") = false
  /\ fetchWithRetry sample_url default_config always_500 initial_world
     = (Returns error500,
        {| trace := [EvFetch sample_url];
           CURRENT_BATO_URL := CURRENT_BATO_URL initial_world |}).
Proof. repeat split; vm_compute; reflexivity. Qed.

(** C4 (as amended): with the challenge check on ([checkCloudflare], the
    default), an attempt whose answer [isCloudflareChallenge] recognizes
    sleeps [2^(attempt+1)] seconds and goes to the next attempt, and on
    the last attempt throws without sleeping; when every answer is a
    challenge the call makes [maxRetries] attempts and fails; and with the
    default configuration, two challenges followed by a 200 give the 200
    response after sleeps of 2 s and 4 s. *)
Theorem C4_challenge_backoff (cfg : config) (url : jsstring) (attempt : nat)
  (e : env) (w : world) (r : response) (t : jsstring) :
  checkCloudflare cfg = true ->
  remote e (fetch_count (trace w)) url = Resolves r ->
  text r = Some t ->
  isCloudflareChallenge r t = true ->
  attempt_turn cfg url attempt e w
  = (if (attempt <? maxRetries cfg - 1)%nat
     then (Returns TContinue,
           log (EvSleep (2 ^ (Z.of_nat attempt + 1) * 1000)) (log (EvFetch url) w))
     else (Returns (TCaught CloudflareNotBypassed), log (EvFetch url) w))
  /\ (always_blocked e url -> (0 < maxRetries cfg)%nat ->
      exists w',
        fetchWithRetry url cfg e w = (Throws CloudflareNotBypassed, w')
        /\ sleeps (trace w') = sleeps (trace w) ++ backoffs 1 (maxRetries cfg - 1)
        /\ fetched (trace w') = fetched (trace w) ++ repeat url (maxRetries cfg))
  /\ (exists w3,
        fetchWithRetry sample_url default_config challenged_twice initial_world
        = (Returns page200, w3)
        /\ sleeps (trace w3) = [2000; 4000]
        /\ fetched (trace w3) = [sample_url; sample_url; sample_url]).
Proof.
  intros Hcheck Hr Ht Hc. split; [|split].
  - apply (attempt_turn_blocked cfg url attempt e w r t); assumption.
  - intros Hall Hpos. unfold fetchWithRetry.
    destruct (maxRetries cfg) as [|n] eqn:Hn; [lia|].
    destruct (retry_loop_blocked cfg url e Hcheck Hall n 0 None w) as (w' & H1 & H2 & H3);
      [lia|].
    exists w'. replace (S n - 1)%nat with n by lia. repeat split; assumption.
  - eexists. split; [vm_compute; reflexivity|]. split; vm_compute; reflexivity.
Qed.

Lemma C4_challenge_backoff_witness :
  checkCloudflare default_config = true
  /\ isCloudflareChallenge challenge503 challenge_body = true
  /\ attempt_turn default_config sample_url 1 always_challenged initial_world
     = (Returns TContinue,
        log (EvSleep (2 ^ (Z.of_nat 1 + 1) * 1000)) (log (EvFetch sample_url) initial_world)).
Proof.
  assert (H1 : checkCloudflare default_config = true) by reflexivity.
  assert (H2 : remote always_challenged (fetch_count (trace initial_world)) sample_url
               = Resolves challenge503) by reflexivity.
  assert (H3 : text challenge503 = Some challenge_body) by reflexivity.
  assert (H4 : isCloudflareChallenge challenge503 challenge_body = true)
    by (vm_compute; reflexivity).
  split; [exact H1|]. split; [exact H4|].
  destruct (C4_challenge_backoff default_config sample_url 1 always_challenged
              initial_world challenge503 challenge_body H1 H2 H3 H4) as [Hturn _].
  exact Hturn.
Defined.

(** C4 as stated fails where the caller switches the check off, as the
    Xbato and MangaDex services do: the challenge page is returned as the
    result of the first attempt, without sleep or retry. *)
Lemma C4_unchecked_challenge_is_returned :
  isCloudflareChallenge challenge503 challenge_body = true
  /\ fetchWithRetry sample_url unchecked_config always_challenged initial_world
     = (Returns challenge503,
        {| trace := [EvFetch sample_url];
           CURRENT_BATO_URL := CURRENT_BATO_URL initial_world |}).
Proof. split; vm_compute; reflexivity. Qed.

End RetryFacts.


(** ** The matcher *)

Section MatcherFacts.
Import Regex.

(** A successful match hands its continuation a suffix that is no longer
    than the input, and a shorter one when the pattern cannot match the
    empty string. *)
Lemma m_progress icase r :
  forall s c k res,
    m icase r s c k = Some res ->
    exists s' c',
      k s' c' = Some res
      /\ (length s' <= length s)%nat
      /\ (consumes r = true -> (length s' < length s)%nat).
Proof.
  induction r as [ |a|neg items|r1 IH1 r2 IH2|r1 IH1 r2 IH2|greedy r1 IH1|i r1 IH1|r1 IH1| ];
    intros s c k res H; cbn [m consumes] in *.
  - exists s, c. repeat split; auto. discriminate.
  - destruct s as [|x s']; [discriminate|].
    destruct (code_match icase a x); [|discriminate].
    exists s', c. cbn [length]. repeat split; auto; lia.
  - destruct s as [|x s']; [discriminate|].
    destruct (xorb neg (existsb (item_match icase x) items)); [|discriminate].
    exists s', c. cbn [length]. repeat split; auto; lia.
  - apply IH1 in H as (s1 & c1 & H1 & Hle1 & Hlt1).
    apply IH2 in H1 as (s2 & c2 & H2 & Hle2 & Hlt2).
    exists s2, c2. split; [exact H2|]. split; [lia|].
    intros Hc. apply orb_prop in Hc as [Hc|Hc]; [specialize (Hlt1 Hc)|specialize (Hlt2 Hc)]; lia.
  - unfold or_else in H. destruct (m icase r1 s c k) eqn:Hfirst.
    + injection H as <-. apply IH1 in Hfirst as (s1 & c1 & H1 & Hle1 & Hlt1).
      exists s1, c1. repeat split; auto.
      intros Hc. apply andb_prop in Hc as [Hc _]. auto.
    + apply IH2 in H as (s2 & c2 & H2 & Hle2 & Hlt2).
      exists s2, c2. repeat split; auto.
      intros Hc. apply andb_prop in Hc as [_ Hc]. auto.
  - revert res H. generalize (length s) at 1. intros n. revert s c.
    induction n as [|n IHn]; intros s c res H; cbn [star_loop] in H;
      unfold or_else in H.
    + destruct greedy.
      * exists s, c. repeat split; auto. discriminate.
      * destruct (k s c) eqn:Hk; [|discriminate]. injection H as <-.
        exists s, c. repeat split; auto. discriminate.
    + assert (Hmore :
        forall res',
          m icase r1 s c
            (fun s1 c1 =>
               if (length s1 <? length s)%nat
               then star_loop (m icase r1) greedy k n s1 c1
               else None) = Some res' ->
          exists s' c', k s' c' = Some res' /\ (length s' <= length s)%nat).
      { intros res' Hm. apply IH1 in Hm as (s1 & c1 & Hm & Hle1 & _).
        destruct (length s1 <? length s)%nat; [|discriminate].
        apply IHn in Hm as (s' & c' & Hk & Hle & _).
        exists s', c'. split; [exact Hk|lia]. }
      destruct greedy.
      * match type of H with
        | match ?X with _ => _ end = _ => destruct X as [res'|] eqn:Hfirst
        end.
        -- injection H as <-. destruct (Hmore _ eq_refl) as (s' & c' & Hk & Hle).
           exists s', c'. repeat split; auto. discriminate.
        -- exists s, c. repeat split; auto. discriminate.
      * destruct (k s c) eqn:Hk.
        -- injection H as <-. exists s, c. repeat split; auto. discriminate.
        -- destruct (Hmore _ H) as (s' & c' & Hk' & Hle).
           exists s', c'. repeat split; auto. discriminate.
  - apply IH1 in H as (s1 & c1 & H1 & Hle1 & Hlt1).
    exists s1, ((i, firstn (length s - length s1) s) :: c1). repeat split; auto.
  - destruct (m icase r1 s c (fun s1 c1 => Some (s1, c1))) as [[s1 c1]|]; [|discriminate].
    exists s, c1. repeat split; auto. discriminate.
  - destruct s; [|discriminate]. exists [], c. repeat split; auto. discriminate.
Qed.

Lemma exec_at_progress icase r skipped s mr :
  exec_at icase r skipped s = Some mr ->
  (length (m_rest mr) <= length s)%nat
  /\ (consumes r = true -> (length (m_rest mr) < length s)%nat).
Proof.
  unfold exec_at. intros H.
  destruct (m icase r s [] (fun s1 c1 => Some (s1, c1))) as [[s1 c1]|] eqn:Hm; [|discriminate].
  injection H as <-. cbn [m_rest].
  apply m_progress in Hm as (s' & c' & Hk & Hle & Hlt).
  injection Hk as <- <-. split; assumption.
Qed.

Lemma search_progress icase r s :
  forall skipped mr,
    search_from icase r skipped s = Some mr ->
    (length (m_rest mr) <= length s)%nat
    /\ (consumes r = true -> (length (m_rest mr) < length s)%nat).
Proof.
  induction s as [|x s IH]; intros skipped mr H; cbn [search_from] in H.
  - destruct (exec_at icase r skipped []) eqn:He; [|discriminate].
    injection H as <-. apply (exec_at_progress _ _ _ _ _ He).
  - destruct (exec_at icase r skipped (x :: s)) eqn:He.
    + injection H as <-. apply (exec_at_progress _ _ _ _ _ He).
    + apply IH in H as [Hle Hlt]. cbn [length]. split; [lia|].
      intros Hc. specialize (Hlt Hc). lia.
Qed.

(** The matcher on the idioms of the patterns: the [i] flag, a group that
    stops at the next slash, the shortest match of a lazy repetition that
    a lookahead ends, and the longest one of a greedy repetition. *)
Example href_is_found_in_any_case :
  option_map group1
    (str_match true Bato.re_href_series_id (js "<A HREF='/series/123/one-piece'>"))
  = Some (js "123").
Proof. vm_compute. reflexivity. Qed.

Example lazy_block_ends_before_next_block :
  option_map m_text
    (search true Bato.re_item_div
       (js "<p><div class='item-a'>x</div><div class='item-b'>y</div>"))
  = Some (js "<div class='item-a'>x</div>").
Proof. vm_compute. reflexivity. Qed.

Example last_block_runs_to_the_end :
  option_map m_text (search true Bato.re_item_div (js "<div class='item-b'>y</div> tail"))
  = Some (js "<div class='item-b'>y</div> tail").
Proof. vm_compute. reflexivity. Qed.

Example greedy_class_backtracks :
  option_map group1 (str_match true Bato.re_src_cover (js "<img src='/a/thumbs/1.png'>"))
  = Some (js "/a/thumbs/1.png").
Proof. vm_compute. reflexivity. Qed.

Example trailing_commas_are_removed :
  replace_all false Bato.re_trailing_comma_bracket (js "]") (js "['a', 'b',  ]")
  = js "['a', 'b']".
Proof. vm_compute. reflexivity. Qed.

Example service_patterns_consume :
  forallb consumes (Bato.mangaPatterns ++ Bato.imgPatterns ++ [Bato.re_img_src]) = true.
Proof. reflexivity. Qed.

End MatcherFacts.

(** ** Extraction *)

Section ExtractionFacts.
Import Regex NetworkUtils Bato.

Lemma extractAll_loop_returns pattern :
  consumes pattern = true ->
  forall fuel s, (length s < fuel)%nat ->
    exists matches, extractAll_loop fuel pattern s = Returns matches.
Proof.
  intros Hc. induction fuel as [|fuel IH]; intros s Hlen; [lia|].
  cbn [extractAll_loop]. destruct (search true pattern s) as [mr|] eqn:Hs.
  - apply search_progress in Hs as [_ Hlt]. specialize (Hlt Hc).
    destruct (IH (m_rest mr)) as [matches Hm]; [lia|].
    rewrite Hm. eexists; reflexivity.
  - eexists; reflexivity.
Qed.

Lemma extractAll_returns html pattern :
  consumes pattern = true -> exists matches, extractAll html pattern = Returns matches.
Proof. intros Hc. apply extractAll_loop_returns; [exact Hc|lia]. Qed.

Lemma extractAll_empty pattern :
  consumes pattern = true -> extractAll [] pattern = Returns [].
Proof.
  intros Hc. unfold extractAll. cbn [length extractAll_loop].
  destruct (search true pattern []) as [mr|] eqn:Hs; [|reflexivity].
  apply search_progress in Hs as [_ Hlt]. specialize (Hlt Hc). cbn in Hlt. lia.
Qed.

Lemma first_matches_returns html patterns :
  forallb consumes patterns = true ->
  exists matches, first_matches patterns html = Returns matches.
Proof.
  induction patterns as [|p ps IH]; intros Hall; [eexists; reflexivity|].
  cbn [forallb] in Hall. apply andb_prop in Hall as [Hp Hps].
  cbn [first_matches]. destruct (extractAll_returns html p Hp) as [matches Hm].
  rewrite Hm. destruct matches; [apply IH; exact Hps|eexists; reflexivity].
Qed.

Lemma first_matches_empty patterns :
  forallb consumes patterns = true -> first_matches patterns [] = Returns [].
Proof.
  induction patterns as [|p ps IH]; intros Hall; [reflexivity|].
  cbn [forallb] in Hall. apply andb_prop in Hall as [Hp Hps].
  cbn [first_matches]. rewrite (extractAll_empty p Hp). apply IH. exact Hps.
Qed.

Lemma listing_records_spec current html :
  exists mangaCards,
    first_matches mangaPatterns html = Returns mangaCards
    /\ listing_records current html
       = Returns (firstn 20 (omap (card_result current) mangaCards)).
Proof.
  destruct (first_matches_returns html mangaPatterns eq_refl) as [cards Hc].
  exists cards. split; [exact Hc|]. unfold listing_records. rewrite Hc. reflexivity.
Qed.

Lemma method2_returns current html patterns :
  forallb consumes patterns = true ->
  exists r, method2 current html patterns = Returns r.
Proof.
  induction patterns as [|p ps IH]; intros Hall; [eexists; reflexivity|].
  cbn [forallb] in Hall. apply andb_prop in Hall as [Hp Hps].
  cbn [method2]. destruct (extractAll_returns html p Hp) as [matches Hm].
  rewrite Hm. destruct matches; [apply IH; exact Hps|eexists; reflexivity].
Qed.

Lemma page_records_returns parse current html :
  exists pages, page_records parse current html = Returns pages.
Proof.
  unfold page_records. destruct (method1 parse current html jsPatterns); [eexists; reflexivity|].
  destruct (method2_returns current html imgPatterns eq_refl) as [r Hr]. rewrite Hr.
  destruct r as [pages|]; [eexists; reflexivity|].
  unfold method3. destruct (extractAll_returns html re_img_src eq_refl) as [matches Hm].
  rewrite Hm. eexists; reflexivity.
Qed.

Lemma page_records_empty parse current : page_records parse current [] = Returns [].
Proof.
  unfold page_records.
  replace (method1 parse current [] jsPatterns) with (@None (list PageRecord))
    by (vm_compute; reflexivity).
  replace (method2 current [] imgPatterns) with (Returns (@None (list PageRecord)))
    by (vm_compute; reflexivity).
  vm_compute. reflexivity.
Qed.

(** [tryBatoDomains] returns or throws. *)
Lemma tryBatoDomains_ends path e w :
  exists o w', tryBatoDomains path e w = (o, w') /\ o <> Diverges.
Proof.
  destruct (try_domains_shape path e BATO_DOMAINS w) as (o & w' & counts & Hrun & _ & _ & _ & Ho).
  exists o, w'. split; [exact Hrun|]. intros ->. exact Ho.
Qed.

Lemma fetch_paths_returns e paths :
  forall html w, exists h w', fetch_paths paths html e w = (Returns h, w').
Proof.
  induction paths as [|path rest IH]; intros html w; [eexists _, _; reflexivity|].
  cbn [fetch_paths]. unfold bind at 1, try_catch, bind.
  destruct (tryBatoDomains_ends path e w) as (o & w1 & Hrun & Hend). rewrite Hrun.
  destruct o as [r|err|]; [|unfold ret; apply IH|congruence].
  unfold response_text. destruct (text r) as [t|].
  - unfold ret. destruct (1000 <? length t)%nat; [eexists _, _; reflexivity|apply IH].
  - unfold throw, ret. apply IH.
Qed.

Lemma getBatoChapterPages_returns chapterId e w :
  exists pages w', getBatoChapterPages chapterId e w = (Returns pages, w').
Proof.
  unfold getBatoChapterPages, try_catch, bind.
  destruct (fetch_paths_returns e [js "/chapter/" ++ chapterId; js "/read/" ++ chapterId] [] w)
    as (h & w1 & Hf).
  rewrite Hf. unfold ask_env, read_current, lift.
  destruct (page_records_returns (JSON_parse e) (CURRENT_BATO_URL w1) h) as [pages Hp].
  rewrite Hp. eexists _, _; reflexivity.
Qed.

Lemma getBatoPopularManga_returns e w :
  exists records w', getBatoPopularManga e w = (Returns records, w').
Proof.
  unfold getBatoPopularManga, try_catch, bind.
  match goal with
  | |- context [fetch_paths ?ps [] e w] =>
      destruct (fetch_paths_returns e ps [] w) as (h & w1 & Hf)
  end.
  rewrite Hf. destruct (str_truthy h); cbn [negb]; [|eexists _, _; reflexivity].
  unfold read_current, lift.
  destruct (listing_records_spec (CURRENT_BATO_URL w1) h) as (cards & _ & Hl).
  rewrite Hl. eexists _, _; reflexivity.
Qed.

Lemma getBatoLatestUpdates_returns e w :
  exists records w', getBatoLatestUpdates e w = (Returns records, w').
Proof.
  unfold getBatoLatestUpdates, try_catch, bind.
  match goal with
  | |- context [fetch_paths ?ps [] e w] =>
      destruct (fetch_paths_returns e ps [] w) as (h & w1 & Hf)
  end.
  rewrite Hf. unfold read_current, lift, latest_records.
  destruct (first_matches_returns h [re_item_div; re_item_anchor] eq_refl) as [cards Hc].
  rewrite Hc. eexists _, _; reflexivity.
Qed.

Lemma searchBatoManga_returns query e w :
  exists records w', searchBatoManga query e w = (Returns records, w').
Proof.
  unfold searchBatoManga, try_catch, bind, encode, bind, ask_env.
  destruct (encodeURIComponent e query) as [q|]; [|eexists _, _; reflexivity].
  unfold ret.
  destruct (tryBatoDomains_ends (js "/search?word=" ++ q) e w) as (o & w1 & Hrun & Hend).
  rewrite Hrun. destruct o as [r|err|]; [|eexists _, _; reflexivity|congruence].
  unfold response_text. destruct (text r) as [t|]; [|eexists _, _; reflexivity].
  unfold ret, read_current, lift.
  destruct (listing_records_spec (CURRENT_BATO_URL w1) t) as (cards & _ & Hl).
  rewrite Hl. eexists _, _; reflexivity.
Qed.

Lemma tryBatoDomains_offline path e w :
  offline e -> exists w', tryBatoDomains path e w = (Throws AllDomainsFailed, w').
Proof.
  intros Hoff.
  destruct (try_domains_shape path e BATO_DOMAINS w) as (o & w' & counts & Hrun & _ & _ & _ & Ho).
  destruct o as [r|err|]; [|destruct Ho as [-> _]; exists w'; exact Hrun|contradiction].
  destruct Ho as (_ & (j & url & Hj) & _).
  destruct (Hoff url j) as [err Herr]. rewrite Hj in Herr. discriminate Herr.
Qed.

Lemma fetch_paths_offline e paths :
  offline e -> forall html w, exists w', fetch_paths paths html e w = (Returns html, w').
Proof.
  intros Hoff. induction paths as [|path rest IH]; intros html w; [eexists; reflexivity|].
  cbn [fetch_paths]. unfold bind at 1, try_catch, bind.
  destruct (tryBatoDomains_offline path e w Hoff) as [w1 Hrun]. rewrite Hrun.
  unfold ret. apply IH.
Qed.

Lemma getBatoChapterPages_offline chapterId e w :
  offline e -> exists w', getBatoChapterPages chapterId e w = (Returns [], w').
Proof.
  intros Hoff. unfold getBatoChapterPages, try_catch, bind.
  destruct (fetch_paths_offline e [js "/chapter/" ++ chapterId; js "/read/" ++ chapterId]
              Hoff [] w) as [w1 Hf].
  rewrite Hf. unfold ask_env, read_current, lift.
  rewrite page_records_empty. eexists; reflexivity.
Qed.

Lemma searchBatoManga_offline query e w :
  offline e -> exists w', searchBatoManga query e w = (Returns [], w').
Proof.
  intros Hoff. unfold searchBatoManga, try_catch, bind, encode, bind, ask_env.
  destruct (encodeURIComponent e query) as [q|]; [|eexists; reflexivity].
  unfold ret.
  destruct (tryBatoDomains_offline (js "/search?word=" ++ q) e w Hoff) as [w1 Hrun].
  rewrite Hrun. eexists; reflexivity.
Qed.

Lemma silent_env_offline : offline silent_env.
Proof. intros url k. exists TimeoutMessage. reflexivity. Qed.

(** C8: on every markup, [extractAll] with each pattern the service
    passes to it returns its list of matches (it neither throws nor loops
    for ever), and so do the extraction of listing records and of page
    records; [getBatoChapterPages], [searchBatoManga],
    [getBatoPopularManga] and [getBatoLatestUpdates] return a list in
    every environment, whatever the hosts answer and whatever
    [JSON.parse] and [encodeURIComponent] do; on empty markup, and when no
    host answers at all, the list is empty. *)
Theorem C8_extraction_never_throws (html current chapterId query : jsstring)
  (e : env) (w : world) :
  Forall (fun pattern => exists matches, extractAll html pattern = Returns matches)
         (mangaPatterns ++ imgPatterns ++ [re_img_src])
  /\ (exists records, listing_records current html = Returns records)
  /\ (exists pages, page_records (JSON_parse e) current html = Returns pages)
  /\ (exists pages w', getBatoChapterPages chapterId e w = (Returns pages, w'))
  /\ (exists records w', searchBatoManga query e w = (Returns records, w'))
  /\ (exists records w', getBatoPopularManga e w = (Returns records, w'))
  /\ (exists records w', getBatoLatestUpdates e w = (Returns records, w'))
  /\ listing_records current [] = Returns []
  /\ page_records (JSON_parse e) current [] = Returns []
  /\ (exists w', getBatoChapterPages chapterId silent_env w = (Returns [], w'))
  /\ (exists w', searchBatoManga query silent_env w = (Returns [], w')).
Proof.
  split.
  { repeat (apply Forall_cons; split; [apply extractAll_returns; reflexivity|]).
    apply Forall_nil. exact I. }
  split.
  { destruct (listing_records_spec current html) as (cards & _ & Hl). eexists; exact Hl. }
  split; [apply page_records_returns|].
  split; [apply getBatoChapterPages_returns|].
  split; [apply searchBatoManga_returns|].
  split; [apply getBatoPopularManga_returns|].
  split; [apply getBatoLatestUpdates_returns|].
  split.
  { unfold listing_records. rewrite (first_matches_empty mangaPatterns eq_refl). reflexivity. }
  split; [apply page_records_empty|].
  split; [apply getBatoChapterPages_offline, silent_env_offline|].
  apply searchBatoManga_offline, silent_env_offline.
Qed.






End ExtractionFacts.

(** * Properties read off the code

    What the services guarantee besides the statements of their
    specification: invariants, bounds, round trips and edge behaviour. *)

(** ** Prefixes of strings *)

Section StringFacts.

Lemma startsWith_app (p s : jsstring) : startsWith (p ++ s) p = true.
Proof.
  induction p as [|c p IH]; [destruct s; reflexivity|].
  cbn [app startsWith]. unfold code_eqb. rewrite N.eqb_refl. exact IH.
Qed.

Lemma startsWith_prepend (a b p : jsstring) :
  startsWith a p = true -> startsWith (a ++ b) p = true.
Proof.
  revert a. induction p as [|c p IH]; intros a H; [destruct (a ++ b); reflexivity|].
  destruct a as [|x a]; [discriminate H|].
  cbn [app startsWith] in *. apply andb_true_iff in H as [H1 H2].
  rewrite H1. cbn [andb]. apply IH. exact H2.
Qed.

End StringFacts.

(** ** The memory tier: bound, eviction and recency *)

Section MemoryTierFacts.
Import Cache.

Lemma new_cache_well_formed n : 0 <= n -> well_formed (new_cache n).
Proof.
  intros Hn. unfold well_formed, new_cache. cbn [cache accessOrder maxSize].
  split; [constructor|]. split.
  - intros k. rewrite lookup_empty. split; [intros H; inversion H|intros [? H]; discriminate H].
  - rewrite map_size_empty. exact Hn.
Qed.

Lemma full_cache_well_formed : well_formed full_cache.
Proof.
  unfold full_cache. apply set_well_formed; [cbn; lia|].
  apply set_well_formed; [cbn; lia|]. apply new_cache_well_formed. lia.
Qed.

Lemma size_is_order_length c :
  well_formed c -> size (cache c) = length (accessOrder c).
Proof.
  intros (Hnd & Hdom & _).
  rewrite <- size_dom, <- (size_list_to_set (C := gset jsstring) (accessOrder c) Hnd).
  f_equal. apply set_eq. intros k.
  rewrite elem_of_dom, elem_of_list_to_set. symmetry. apply Hdom.
Qed.

Lemma get_hit_well_formed key now c :
  (forall e, cache c !! key = Some e -> expired e now = false) ->
  well_formed c -> well_formed (snd (get key now c)).
Proof.
  intros Hlive (Hnd & Hdom & Hsize). unfold get.
  destruct (cache c !! key) as [e|] eqn:Hkey; [|repeat split; auto; apply Hdom].
  rewrite (Hlive e eq_refl). unfold well_formed. cbn [snd cache accessOrder maxSize].
  split; [apply touch_NoDup; exact Hnd|]. split; [|exact Hsize].
  intros k. rewrite (touch_elem key _ k Hnd), Hdom.
  split; [intros [H| ->]; eauto|intros H; left; exact H].
Qed.

(** X1: The memory tier keeps its bound and its access order through every
    sequence of reads, writes (with or without a TTL) and deletions in
    which no read meets an entry whose expiry has passed. *)
Theorem bound_kept_until_an_expired_read ops c :
  1 <= maxSize c -> well_formed c -> no_expired_read ops c ->
  well_formed (run ops c)
  /\ Z.of_nat (cache_size (run ops c)) <= maxSize c
  /\ cache_size (run ops c) = length (accessOrder (run ops c)).
Proof.
  revert c. induction ops as [|o ops IH]; intros c Hmax Hwf Hops.
  - split; [exact Hwf|]. split; [apply Hwf|apply size_is_order_length; exact Hwf].
  - destruct Hops as [Ho Hops]. cbn [run fold_left].
    assert (Hwf' : well_formed (step c o)).
    { destruct o as [key now|key v ttl now|key]; cbn [step].
      - apply get_hit_well_formed; assumption.
      - apply set_well_formed; assumption.
      - apply delete_well_formed; assumption. }
    pose proof (step_maxSize o c) as Hm.
    destruct (IH (step c o)) as (H1 & H2 & H3); auto.
    + rewrite Hm. exact Hmax.
    + split; [exact H1|]. split; [|exact H3]. rewrite <- Hm. exact H2.
Qed.

Lemma bound_kept_until_an_expired_read_witness :
  well_formed (run timely_reads (new_cache 2))
  /\ Z.of_nat (cache_size (run timely_reads (new_cache 2))) <= 2.
Proof.
  destruct (bound_kept_until_an_expired_read timely_reads (new_cache 2)) as (H1 & H2 & _).
  - cbn. lia.
  - apply new_cache_well_formed. lia.
  - cbn [timely_reads no_expired_read step]. 
    split; [exact I|]. split.
    { intros e He. vm_compute in He. injection He as <-. reflexivity. }
    split; [exact I|]. split; [exact I|]. split; [exact I|]. split; [|exact I].
    intros e He. vm_compute in He. injection He as <-. reflexivity.
  - split; [exact H1|exact H2].
Defined.


(** X2: A write of a new key into a full memory tier evicts exactly the key
    at the head of the access order, the least recently used one: that
    key is gone, every other stored key keeps its entry, the new key is
    stored and becomes the most recently used, and the size is unchanged.
    A write that finds room, or overwrites a stored key, evicts nothing. *)
Theorem set_evicts_the_least_recently_used key v ttl now c :
  well_formed c -> 1 <= maxSize c ->
  let c' := set key v ttl now c in
  (Z.of_nat (size (cache c)) = maxSize c -> cache c !! key = None ->
     exists oldest rest,
       accessOrder c = oldest :: rest
       /\ cache c' !! oldest = None
       /\ (forall k, k <> oldest -> k <> key -> cache c' !! k = cache c !! k)
       /\ accessOrder c' = rest ++ [key]
       /\ size (cache c') = size (cache c))
  /\ (Z.of_nat (size (cache c)) < maxSize c \/ is_Some (cache c !! key) ->
      forall k, k <> key -> cache c' !! k = cache c !! k)
  /\ cache c' !! key = Some {| value := v; expiresAt := expiry ttl now; cachedAt := now |}
  /\ last (accessOrder c') = Some key.
Proof.
  intros Hwf Hmax c'. pose proof Hwf as (Hnd & Hdom & Hsize).
  split; [|split; [|split]].
  - intros Hfull Hnew.
    pose proof (size_is_order_length c Hwf) as Hlen.
    destruct (accessOrder c) as [|oldest rest] eqn:Hord; [cbn [length] in Hlen; lia|].
    exists oldest, rest. split; [reflexivity|].
    assert (Hne : oldest <> key).
    { intros ->. destruct (proj1 (Hdom key)) as [e He]; [left|]. congruence. }
    assert (Hstored : is_Some (cache c !! oldest)).
    { apply Hdom. left. }
    assert (Hcache : cache c' = <[key := {| value := v; expiresAt := expiry ttl now;
                                            cachedAt := now |}]> (delete oldest (cache c))
                     /\ accessOrder c' = touch key rest).
    { unfold c', set. rewrite Hord.
      replace (Z.of_nat (size (cache c)) >=? maxSize c) with true
        by (symmetry; apply Z.geb_le; lia).
      rewrite bool_decide_eq_false_2 by (rewrite Hnew; intros [? H]; discriminate H).
      cbn [andb negb fst snd cache accessOrder]. split; reflexivity. }
    destruct Hcache as [Hc Ho]. rewrite Hc, Ho.
    split; [|split; [|split]].
    + rewrite lookup_insert_ne by congruence. apply lookup_delete_eq.
    + intros k Hk1 Hk2. rewrite lookup_insert_ne by congruence.
      apply lookup_delete_ne. congruence.
    + unfold touch. rewrite remove_first_notin; [reflexivity|].
      intros Hin. destruct (proj1 (Hdom key)) as [e He]; [right; exact Hin|]. congruence.
    + rewrite map_size_insert, lookup_delete_ne by congruence.
      rewrite Hnew, map_size_delete. destruct Hstored as [e0 He0]. rewrite He0.
      destruct (size (cache c)) eqn:Hs; [exfalso; lia|]. cbn. reflexivity.
  - intros Hroom k Hk. unfold c', set.
    replace ((Z.of_nat (size (cache c)) >=? maxSize c)
             && negb (bool_decide (is_Some (cache c !! key)))) with false.
    + cbn [fst cache]. apply lookup_insert_ne. congruence.
    + symmetry. apply andb_false_iff. destruct Hroom as [Hlt|Hin].
      * left. rewrite Z.geb_leb. apply Z.leb_gt. lia.
      * right. rewrite bool_decide_eq_true_2 by exact Hin. reflexivity.
  - unfold c'. rewrite lookup_after_set. reflexivity.
  - unfold c', set. cbn [accessOrder]. unfold touch. apply last_snoc.
Qed.

Lemma set_evicts_the_least_recently_used_witness :
  exists oldest rest,
    accessOrder full_cache = oldest :: rest
    /\ cache (set (js "c") (VStr (js "cover-c")) None 2 full_cache) !! oldest = None
    /\ accessOrder (set (js "c") (VStr (js "cover-c")) None 2 full_cache) = rest ++ [js "c"].
Proof.
  destruct (set_evicts_the_least_recently_used (js "c") (VStr (js "cover-c")) None 2 full_cache)
    as (Hfull & _).
  - exact full_cache_well_formed.
  - cbn. lia.
  - destruct Hfull as (oldest & rest & H1 & H2 & _ & H4 & _).
    + vm_compute. reflexivity.
    + vm_compute. reflexivity.
    + exists oldest, rest. split; [exact H1|]. split; [exact H2|exact H4].
Defined.


Lemma head_of_touch_other key order k' rest :
  NoDup order -> touch key order = k' :: rest -> rest <> [] -> k' <> key.
Proof.
  intros Hnd Ht Hrest. unfold touch in Ht.
  destruct (remove_first key order) as [|x xs] eqn:Hrf.
  - cbn [app] in Ht. injection Ht as _ <-. congruence.
  - cbn [app] in Ht. injection Ht as <- _.
    assert (Hin : x ∈ remove_first key order) by (rewrite Hrf; left).
    apply (remove_first_elem key order x Hnd) in Hin as [_ Hne]. exact Hne.
Qed.

(** X3: In a memory tier of capacity 2 or more, the key that was just served
    by a read, or just written, is never the one the next write evicts. *)
Theorem most_recent_key_survives_next_write key key' v ttl now c :
  well_formed c -> 2 <= maxSize c ->
  (forall e now0, cache c !! key = Some e -> expired e now0 = false ->
     is_Some (cache (set key' v ttl now (snd (get key now0 c))) !! key))
  /\ (forall v0 ttl0 now0,
        is_Some (cache (set key' v ttl now (set key v0 ttl0 now0 c)) !! key)).
Proof.
  intros Hwf Hmax.
  assert (Hnext : forall c1 e1,
            well_formed c1 -> maxSize c1 = maxSize c -> cache c1 !! key = Some e1 ->
            (exists order, accessOrder c1 = touch key order /\ NoDup order
                           /\ forall k, k ∈ order -> k ∈ accessOrder c1) ->
            is_Some (cache (set key' v ttl now c1) !! key)).
  { intros c1 e1 Hwf1 Hm1 Hk1 (order & Hord & Hnd & Hsub).
    destruct (decide (key' = key)) as [->|Hne].
    { rewrite lookup_after_set. eauto. }
    unfold set.
    destruct ((Z.of_nat (size (cache c1)) >=? maxSize c1)
              && negb (bool_decide (is_Some (cache c1 !! key')))) eqn:Hevict.
    - apply andb_true_iff in Hevict as [Hfull _]. apply Z.geb_le in Hfull.
      pose proof (size_is_order_length c1 Hwf1) as Hlen.
      destruct (accessOrder c1) as [|oldest rest] eqn:Hacc; [cbn [length] in Hlen; lia|].
      cbn [fst cache]. rewrite lookup_insert_ne by congruence.
      assert (Holdest : oldest <> key).
      { apply (head_of_touch_other key order oldest rest Hnd); [symmetry; exact Hord|].
        intros ->. cbn [length] in Hlen. rewrite Hm1 in Hfull. lia. }
      rewrite lookup_delete_ne by congruence. eauto.
    - cbn [fst cache]. rewrite lookup_insert_ne by congruence. eauto. }
  split.
  - intros e now0 Hk He. pose proof Hwf as (Hnd & Hdom & Hsize).
    assert (Hget : snd (get key now0 c)
                   = {| cache := cache c; maxSize := maxSize c;
                        accessOrder := touch key (accessOrder c) |}).
    { unfold get. rewrite Hk, He. reflexivity. }
    apply (Hnext _ e).
    + apply get_hit_well_formed; [|exact Hwf]. intros e0 He0. congruence.
    + rewrite Hget. reflexivity.
    + rewrite Hget. exact Hk.
    + exists (accessOrder c). rewrite Hget. cbn [accessOrder].
      split; [reflexivity|]. split; [exact Hnd|].
      intros k Hin. apply (touch_elem key _ k Hnd). left. exact Hin.
  - intros v0 ttl0 now0.
    assert (Hwf1 : well_formed (set key v0 ttl0 now0 c)) by (apply set_well_formed; [lia|exact Hwf]).
    apply (Hnext _ {| value := v0; expiresAt := expiry ttl0 now0; cachedAt := now0 |}).
    + exact Hwf1.
    + reflexivity.
    + apply lookup_after_set.
    + pose proof Hwf as (Hnd & Hdom & Hsize). unfold set. cbn [accessOrder].
      eexists. split; [reflexivity|].
      destruct ((Z.of_nat (size (cache c)) >=? maxSize c)
                && negb (bool_decide (is_Some (cache c !! key)))).
      * destruct (accessOrder c) as [|oldest rest] eqn:Hacc; cbn [snd].
        -- split; [constructor|]. intros k Hin. inversion Hin.
        -- apply NoDup_cons in Hnd as [Ho Hrest]. split; [exact Hrest|].
           intros k Hin. apply (touch_elem key _ k Hrest). left. exact Hin.
      * cbn [snd]. split; [exact Hnd|].
        intros k Hin. apply (touch_elem key _ k Hnd). left. exact Hin.
Qed.

Lemma most_recent_key_survives_next_write_witness :
  is_Some (cache (set (js "c") (VStr (js "cover-c")) None 3
                    (set (js "a") (VStr (js "cover-a")) None 2 full_cache)) !! js "a").
Proof.
  destruct (most_recent_key_survives_next_write (js "a") (js "c") (VStr (js "cover-c")) None 3
              full_cache) as [_ H].
  - exact full_cache_well_formed.
  - cbn. lia.
  - apply H.
Defined.

(** X4: [delete] takes the key out of the map and of the access order: a
    read of the key then answers null, every other key is served as
    before, the result tells whether the key was stored, and a
    well-formed tier stays well formed and loses one entry. *)
Theorem delete_removes_only_its_key key c now :
  fst (get key now (snd (delete_key key c))) = VNull
  /\ (forall k, k <> key ->
        fst (get k now (snd (delete_key key c))) = fst (get k now c))
  /\ ((fst (delete_key key c) = true) <-> (is_Some (cache c !! key)))
  /\ (well_formed c ->
      well_formed (snd (delete_key key c))
      /\ (key ∉ accessOrder (snd (delete_key key c)))
      /\ (is_Some (cache c !! key) ->
          S (cache_size (snd (delete_key key c))) = cache_size c)).
Proof.
  split; [|split; [|split]].
  - unfold get, delete_key. cbn [snd cache]. rewrite lookup_delete_eq. reflexivity.
  - intros k Hk. unfold get, delete_key. cbn [snd cache].
    rewrite lookup_delete_ne by congruence.
    destruct (cache c !! k) as [e|]; [|reflexivity].
    destruct (expired e now); reflexivity.
  - unfold delete_key. cbn [fst]. apply bool_decide_eq_true.
  - intros Hwf. split; [apply delete_well_formed; exact Hwf|].
    pose proof Hwf as (Hnd & Hdom & Hsize). split.
    + unfold delete_key. cbn [snd accessOrder]. intros Hin.
      apply (remove_first_elem key _ key Hnd) in Hin as [_ Hne]. congruence.
    + intros [e He]. unfold cache_size, delete_key. cbn [snd cache].
      rewrite map_size_delete, He.
      assert (Hpos : size (cache c) <> 0%nat).
      { intros H0. apply map_size_empty_inv in H0. rewrite H0 in He. discriminate He. }
      destruct (size (cache c)); [congruence|reflexivity].
Qed.

End MemoryTierFacts.

(** ** The cache namespaces in AsyncStorage *)

Section NamespaceFacts.
Import Cache.

Variable stringify : entry -> jsstring.
Variable parse : jsstring -> option entry.

Lemma foldr_delete_lookup (keys : list jsstring) (store : gmap jsstring jsstring)
  (k : jsstring) :
  foldr delete store keys !! k = if decide (k ∈ keys) then None else store !! k.
Proof.
  induction keys as [|a keys IH]; cbn [foldr].
  - destruct (decide (k ∈ [])) as [H|_]; [inversion H|reflexivity].
  - rewrite lookup_delete. destruct (decide (a = k)) as [->|Hne].
    + rewrite decide_True by left. reflexivity.
    + rewrite IH. destruct (decide (k ∈ keys)) as [Hin|Hnin].
      * rewrite decide_True by (right; exact Hin). reflexivity.
      * rewrite decide_False; [reflexivity|].
        intros Hin. apply elem_of_cons in Hin as [->|Hin]; [congruence|contradiction].
Qed.

(** What is left after [getAllKeys], the filter and [multiRemove]: the
    keys with the prefix are gone, every other key keeps its text. *)
Lemma remove_prefixed_lookup (prefix : jsstring) (store : gmap jsstring jsstring) (k : jsstring) :
  remove_prefixed prefix store !! k
  = if startsWith k prefix then None else store !! k.
Proof.
  unfold remove_prefixed. rewrite foldr_delete_lookup.
  destruct (decide (k ∈ List.filter (fun key => startsWith key prefix)
                          (List.map fst (map_to_list store)))) as [Hin|Hnin].
  - apply list_elem_of_In, filter_In in Hin as [_ Hp]. rewrite Hp. reflexivity.
  - destruct (startsWith k prefix) eqn:Hp; [|reflexivity].
    destruct (store !! k) as [data|] eqn:Hk; [|reflexivity].
    exfalso. apply Hnin. apply list_elem_of_In, filter_In. split; [|exact Hp].
    apply in_map_iff. exists (k, data). split; [reflexivity|].
    apply list_elem_of_In, elem_of_map_to_list. exact Hk.
Qed.


Lemma covers_ttl_expiry now :
  expiry (Some CACHE_EXPIRATION_COVERS) now = Some (now + CACHE_EXPIRATION_COVERS).
Proof. reflexivity. Qed.

Lemma live_until_expiry v x now r :
  r <= x -> expired {| value := v; expiresAt := Some x; cachedAt := now |} r = false.
Proof.
  intros Hr. unfold expired. cbn [expiresAt].
  replace (r >? x) with false by (symmetry; rewrite Z.gtb_ltb; apply Z.ltb_ge; lia).
  apply andb_false_r.
Qed.

(** X5: A cover written by [CoverCache.set] is served by [CoverCache.get] up
    to its expiry: from the memory tier, without touching AsyncStorage;
    and when the memory tier is empty (after a restart), from AsyncStorage,
    which also copies it back into the memory tier. *)
Theorem cover_is_served_from_both_tiers (mangaId : jsstring) (v : jsvalue) (now r : Z)
  (t : tiers) :
  truthy v = true -> r <= now + CACHE_EXPIRATION_COVERS ->
  let e := {| value := v; expiresAt := Some (now + CACHE_EXPIRATION_COVERS);
              cachedAt := now |} in
  parse (stringify e) = Some e -> stringify e <> [] ->
  let t1 := CoverCache_set stringify mangaId v now t in
  let cold := {| coverCache := new_cache 100; asyncStorage := asyncStorage t1 |} in
  fst (CoverCache_get parse mangaId r t1) = v
  /\ asyncStorage (snd (CoverCache_get parse mangaId r t1)) = asyncStorage t1
  /\ fst (CoverCache_get parse mangaId r cold) = v
  /\ fst (get mangaId r (coverCache (snd (CoverCache_get parse mangaId r cold)))) = v.
Proof.
  intros Hv Hr e Hp Hne t1 cold.
  assert (He : expired e r = false) by (apply live_until_expiry; exact Hr).
  assert (Hmem : cache (coverCache t1) !! mangaId = Some e).
  { unfold t1, CoverCache_set. cbn [coverCache]. rewrite lookup_after_set. reflexivity. }
  assert (Hsto : asyncStorage t1 !! (CACHE_KEYS_COVERS ++ mangaId) = Some (stringify e)).
  { unfold t1, CoverCache_set, saveToStorage. cbn [asyncStorage]. apply lookup_insert_eq. }
  assert (Hhit : CoverCache_get parse mangaId r t1
                 = (v, {| coverCache := snd (get mangaId r (coverCache t1));
                          asyncStorage := asyncStorage t1 |})).
  { unfold CoverCache_get, get. rewrite Hmem, He. cbn [value e]. rewrite Hv. reflexivity. }
  assert (Hcold : CoverCache_get parse mangaId r cold
                  = (v, {| coverCache := set mangaId v (Some CACHE_EXPIRATION_COVERS) r
                                           (new_cache 100);
                           asyncStorage := asyncStorage t1 |})).
  { unfold CoverCache_get, cold. cbn [coverCache asyncStorage].
    unfold get at 1. cbn [new_cache cache]. rewrite lookup_empty. cbn [truthy].
    rewrite (storage_live stringify parse _ r _ e Hsto Hne Hp He). cbn [value e].
    rewrite Hv. reflexivity. }
  rewrite Hhit, Hcold. cbn [fst snd asyncStorage coverCache].
  split; [reflexivity|]. split; [reflexivity|]. split; [reflexivity|].
  apply (get_live mangaId r _ {| value := v; expiresAt := Some (r + CACHE_EXPIRATION_COVERS);
                                 cachedAt := r |}).
  - apply lookup_after_set.
  - apply live_until_expiry. unfold CACHE_EXPIRATION_COVERS. lia.
Qed.

Lemma getFromStorage_missing (key : jsstring) (now : Z) (store : gmap jsstring jsstring) :
  store !! key = None -> getFromStorage parse key now store = (VNull, store).
Proof. intros H. unfold getFromStorage. rewrite H. reflexivity. Qed.

Lemma getFromStorage_frame (key : jsstring) (now : Z) (s1 s2 : gmap jsstring jsstring) :
  s1 !! key = s2 !! key ->
  fst (getFromStorage parse key now s1) = fst (getFromStorage parse key now s2).
Proof.
  intros H. unfold getFromStorage. rewrite H.
  destruct (s2 !! key) as [data|]; [|reflexivity].
  destruct (negb (str_truthy data)); [reflexivity|].
  destruct (parse data) as [parsed|]; [|reflexivity].
  destruct (expired parsed now); reflexivity.
Qed.

Lemma CoverCache_get_frame (mangaId : jsstring) (now : Z) (t1 t2 : tiers) :
  cache (coverCache t1) !! mangaId = cache (coverCache t2) !! mangaId ->
  asyncStorage t1 !! (CACHE_KEYS_COVERS ++ mangaId)
  = asyncStorage t2 !! (CACHE_KEYS_COVERS ++ mangaId) ->
  fst (CoverCache_get parse mangaId now t1) = fst (CoverCache_get parse mangaId now t2).
Proof.
  intros Hm Hs. unfold CoverCache_get.
  assert (Hget : fst (get mangaId now (coverCache t1)) = fst (get mangaId now (coverCache t2))).
  { unfold get. rewrite Hm. destruct (cache (coverCache t2) !! mangaId) as [e|]; [|reflexivity].
    destruct (expired e now); reflexivity. }
  destruct (get mangaId now (coverCache t1)) as [c1 m1].
  destruct (get mangaId now (coverCache t2)) as [c2 m2].
  cbn [fst] in Hget. subst c2.
  destruct (truthy c1); [reflexivity|].
  pose proof (getFromStorage_frame (CACHE_KEYS_COVERS ++ mangaId) now _ _ Hs) as Hf.
  destruct (getFromStorage parse (CACHE_KEYS_COVERS ++ mangaId) now (asyncStorage t1)) as [x1 y1].
  destruct (getFromStorage parse (CACHE_KEYS_COVERS ++ mangaId) now (asyncStorage t2)) as [x2 y2].
  cbn [fst] in Hf. subst x2. reflexivity.
Qed.

Lemma CoverCache_get_absent (mangaId : jsstring) (now : Z) (t : tiers) :
  cache (coverCache t) !! mangaId = None ->
  asyncStorage t !! (CACHE_KEYS_COVERS ++ mangaId) = None ->
  CoverCache_get parse mangaId now t = (VNull, t).
Proof.
  intros Hm Hs. unfold CoverCache_get, get. rewrite Hm. cbn [truthy].
  rewrite (getFromStorage_missing _ now _ Hs). cbn [truthy]. destruct t; reflexivity.
Qed.

(** X6: [CoverCache.delete] removes the cover from both tiers: the next
    [CoverCache.get] of that manga answers null and changes nothing; the
    cover of every other manga is served as before. *)
Theorem cover_delete_reaches_both_tiers (mangaId other : jsstring) (now : Z) (t : tiers) :
  CoverCache_get parse mangaId now (CoverCache_delete mangaId t)
  = (VNull, CoverCache_delete mangaId t)
  /\ (other <> mangaId ->
      fst (CoverCache_get parse other now (CoverCache_delete mangaId t))
      = fst (CoverCache_get parse other now t)).
Proof.
  split.
  - apply CoverCache_get_absent; unfold CoverCache_delete, delete_key;
      cbn [coverCache asyncStorage snd cache]; apply lookup_delete_eq.
  - intros Hne. apply CoverCache_get_frame; unfold CoverCache_delete, delete_key;
      cbn [coverCache asyncStorage snd cache]; apply lookup_delete_ne.
    + congruence.
    + intros H. apply app_inv_head in H. congruence.
Qed.

(** X7: [CoverCache.clear] empties the cover namespace in both tiers and
    nothing else: after it no cover is served, while every preference and
    the extension list are read from AsyncStorage exactly as before.
    [Preferences.clear] in turn leaves every stored cover readable. *)
Theorem clear_stays_in_its_namespace (mangaId key : jsstring) (d : jsvalue) (now : Z)
  (t : tiers) :
  CoverCache_get parse mangaId now (CoverCache_clear t) = (VNull, CoverCache_clear t)
  /\ fst (Preferences_get parse key d now (asyncStorage (CoverCache_clear t)))
     = fst (Preferences_get parse key d now (asyncStorage t))
  /\ fst (ExtensionsCache_get parse now (asyncStorage (CoverCache_clear t)))
     = fst (ExtensionsCache_get parse now (asyncStorage t))
  /\ fst (Preferences_get parse key d now (Preferences_clear (asyncStorage t))) = d
  /\ fst (getFromStorage parse (CACHE_KEYS_COVERS ++ mangaId) now
            (Preferences_clear (asyncStorage t)))
     = fst (getFromStorage parse (CACHE_KEYS_COVERS ++ mangaId) now (asyncStorage t)).
Proof.
  assert (Hpc : startsWith (CACHE_KEYS_PREFERENCES ++ key) CACHE_KEYS_COVERS = false)
    by reflexivity.
  assert (Hcp : startsWith (CACHE_KEYS_COVERS ++ mangaId) CACHE_KEYS_PREFERENCES = false)
    by reflexivity.
  split; [|split; [|split; [|split]]].
  - apply CoverCache_get_absent; unfold CoverCache_clear; cbn [coverCache asyncStorage].
    + apply lookup_empty.
    + rewrite remove_prefixed_lookup, startsWith_app. reflexivity.
  - unfold Preferences_get, CoverCache_clear. cbn [asyncStorage].
    pose proof (getFromStorage_frame (CACHE_KEYS_PREFERENCES ++ key) now
                  (remove_prefixed CACHE_KEYS_COVERS (asyncStorage t)) (asyncStorage t)) as Hf.
    rewrite remove_prefixed_lookup, Hpc in Hf. specialize (Hf eq_refl).
    destruct (getFromStorage parse (CACHE_KEYS_PREFERENCES ++ key) now
                (remove_prefixed CACHE_KEYS_COVERS (asyncStorage t))) as [x1 y1].
    destruct (getFromStorage parse (CACHE_KEYS_PREFERENCES ++ key) now (asyncStorage t))
      as [x2 y2].
    cbn [fst] in *. subst x2. reflexivity.
  - unfold ExtensionsCache_get, CoverCache_clear. cbn [asyncStorage].
    apply getFromStorage_frame. rewrite remove_prefixed_lookup. reflexivity.
  - unfold Preferences_get, Preferences_clear.
    rewrite getFromStorage_missing; [reflexivity|].
    rewrite remove_prefixed_lookup, startsWith_app. reflexivity.
  - apply getFromStorage_frame. unfold Preferences_clear.
    rewrite remove_prefixed_lookup, Hcp. reflexivity.
Qed.

(** X8: A preference that was set is read back at any later time, whatever
    the default (preferences carry no expiry); falsy values such as
    false, 0 and the empty string are read back as themselves, and only
    a stored null gives the default. A preference that was never set, or
    was deleted, gives the default; setting one preference does not
    change another. *)
Theorem preferences_round_trip (key other : jsstring) (v d : jsvalue) (now r : Z)
  (store : gmap jsstring jsstring) :
  let e := {| value := v; expiresAt := None; cachedAt := now |} in
  parse (stringify e) = Some e -> stringify e <> [] ->
  let store' := Preferences_set stringify key v now store in
  Preferences_get parse key d r store' = (match v with VNull => d | _ => v end, store')
  /\ fst (Preferences_get parse key d r (Preferences_delete key store')) = d
  /\ (store !! (CACHE_KEYS_PREFERENCES ++ key) = None ->
      Preferences_get parse key d r store = (d, store))
  /\ (other <> key ->
      fst (Preferences_get parse other d r store')
      = fst (Preferences_get parse other d r store)).
Proof.
  intros e Hp Hne store'.
  assert (Hs : store' !! (CACHE_KEYS_PREFERENCES ++ key) = Some (stringify e)).
  { unfold store', Preferences_set, saveToStorage. apply lookup_insert_eq. }
  split; [|split; [|split]].
  - unfold Preferences_get.
    rewrite (storage_live stringify parse _ r _ e Hs Hne Hp eq_refl). reflexivity.
  - unfold Preferences_get, Preferences_delete.
    rewrite getFromStorage_missing by apply lookup_delete_eq. reflexivity.
  - intros Hnone. unfold Preferences_get. rewrite getFromStorage_missing by exact Hnone.
    reflexivity.
  - intros Hother. unfold Preferences_get.
    pose proof (getFromStorage_frame (CACHE_KEYS_PREFERENCES ++ other) r store' store) as Hf.
    assert (Hl : store' !! (CACHE_KEYS_PREFERENCES ++ other)
                 = store !! (CACHE_KEYS_PREFERENCES ++ other)).
    { unfold store', Preferences_set, saveToStorage. apply lookup_insert_ne.
      intros H. apply app_inv_head in H. congruence. }
    specialize (Hf Hl).
    destruct (getFromStorage parse (CACHE_KEYS_PREFERENCES ++ other) r store') as [x1 y1].
    destruct (getFromStorage parse (CACHE_KEYS_PREFERENCES ++ other) r store) as [x2 y2].
    cbn [fst] in *. subst x2. reflexivity.
Qed.

End NamespaceFacts.

Section NamespaceExamples.
Import Cache.

Lemma cover_is_served_from_both_tiers_witness :
  fst (CoverCache_get cover_parse (js "7") 1000
         (CoverCache_set one_stringify (js "7") (VStr (js "https://bato.to/covers/7.jpg")) 0
            after_restart))
  = VStr (js "https://bato.to/covers/7.jpg").
Proof.
  destruct (cover_is_served_from_both_tiers one_stringify cover_parse (js "7")
              (VStr (js "https://bato.to/covers/7.jpg")) 0 1000 after_restart) as [H _].
  - reflexivity.
  - unfold CACHE_EXPIRATION_COVERS. lia.
  - reflexivity.
  - discriminate.
  - exact H.
Defined.

Lemma preferences_round_trip_witness :
  Preferences_get pref_parse (js "dark") (VBool true) 99
    (Preferences_set one_stringify (js "dark") (VBool false) 5 ∅)
  = (VBool false, Preferences_set one_stringify (js "dark") (VBool false) 5 ∅).
Proof.
  destruct (preferences_round_trip one_stringify pref_parse (js "dark") (js "lang")
              (VBool false) (VBool true) 5 99 ∅) as [H _].
  - reflexivity.
  - discriminate.
  - exact H.
Defined.

End NamespaceExamples.

(** ** Invariants of the source registry *)

Section RegistryInvariants.
Import SourceManager.

Lemma registerSource_ok (d : descriptor) (m : manager) :
  registry_ok m -> registry_ok (registerSource d m).
Proof.
  intros [Hs Ht]. split; [|exact Ht].
  intros k s. unfold registerSource. cbn [sources].
  rewrite lookup_insert. destruct (decide (id (enrich d) = k)) as [<-|Hne].
  - intros [= <-]. split; reflexivity.
  - apply Hs.
Qed.

Lemma registerStubSource_ok (i n : jsstring) (m : manager) :
  registry_ok m -> registry_ok (registerStubSource i n m).
Proof.
  intros [Hs Ht]. split; [exact Hs|].
  intros k s. unfold registerStubSource. cbn [stubSources].
  rewrite lookup_insert. destruct (decide (i = k)) as [<-|Hne].
  - intros [= <-]. repeat split.
  - apply Ht.
Qed.

Lemma initialize_ok (m : manager) : registry_ok m -> registry_ok (initialize m).
Proof.
  intros Hok. unfold initialize. destruct (isInitialized m); [exact Hok|].
  assert (Hfold : forall l m0, registry_ok m0 ->
            registry_ok (fold_left (fun acc source => registerSource source acc) l m0)).
  { induction l as [|d l IH]; intros m0 H0; [exact H0|].
    cbn [fold_left]. apply IH, registerSource_ok, H0. }
  destruct (Hfold BUILT_IN_SOURCES m Hok) as [Hs Ht]. split; [exact Hs|exact Ht].
Qed.

(** X9: Every source the registry holds is stored under its own identifier,
    [sources] holds no stub and [stubSources] holds only stubs: this is
    true of the empty registry and kept by every operation. So
    [getSourceOrStub] always answers a source that carries the identifier
    it was asked for, and [getSource] never answers a stub. *)
Theorem registry_keeps_sources_under_their_ids :
  registry_ok new_manager
  /\ (forall d m, registry_ok m -> registry_ok (registerSource d m))
  /\ (forall i n m, registry_ok m -> registry_ok (registerStubSource i n m))
  /\ (forall i m, registry_ok m -> registry_ok (snd (getSourceOrStub i m)))
  /\ (forall m, registry_ok m -> registry_ok (initialize m))
  /\ (forall m, registry_ok (clear m))
  /\ (forall i m, registry_ok m -> id (fst (getSourceOrStub i m)) = i)
  /\ (forall i m s, registry_ok m -> fst (getSource i m) = Some s ->
        id s = i /\ isStub s = false).
Proof.
  assert (Hnew : registry_ok new_manager).
  { split; intros k s H; cbn in H; rewrite lookup_empty in H; discriminate H. }
  split; [exact Hnew|].
  split; [intros d m; apply registerSource_ok|].
  split; [intros i n m; apply registerStubSource_ok|].
  split.
  { intros i m Hok. rewrite getSourceOrStub_state.
    destruct (sources m !! i); [exact Hok|].
    destruct (stubSources m !! i); [exact Hok|].
    apply registerStubSource_ok. exact Hok. }
  split; [intros m; apply initialize_ok|].
  split; [intros m; exact Hnew|].
  split.
  - intros i m [Hs Ht]. unfold getSourceOrStub.
    destruct (sources m !! i) as [s|] eqn:H1; [apply (Hs i s H1)|].
    destruct (stubSources m !! i) as [s|] eqn:H2; [apply (Ht i s H2)|].
    reflexivity.
  - intros i m s [Hs _] H. apply (Hs i s). exact H.
Qed.

(** X10: Asking twice gives the same answer: the second [getSourceOrStub] of
    an identifier returns the source the first one returned and leaves
    the registry as the first one left it. A registered source is
    answered in preference to a stub of the same identifier, whichever
    was registered first, and registering a stub never changes what
    [getSource] answers. *)
Theorem getSourceOrStub_is_stable (i j n : jsstring) (d : descriptor) (m : manager) :
  getSourceOrStub i (snd (getSourceOrStub i m)) = getSourceOrStub i m
  /\ getSourceOrStub (id (enrich d)) (registerSource d (registerStubSource (id (enrich d)) n m))
     = (enrich d, registerSource d (registerStubSource (id (enrich d)) n m))
  /\ getSourceOrStub (id (enrich d)) (registerStubSource (id (enrich d)) n (registerSource d m))
     = (enrich d, registerStubSource (id (enrich d)) n (registerSource d m))
  /\ fst (getSource j (registerStubSource i n m)) = fst (getSource j m).
Proof.
  split; [|split; [|split]].
  - unfold getSourceOrStub.
    destruct (sources m !! i) as [s|] eqn:H1.
    + cbn [snd]. rewrite H1. reflexivity.
    + destruct (stubSources m !! i) as [s|] eqn:H2.
      * cbn [snd]. rewrite H1, H2. reflexivity.
      * unfold createStubSource. cbn [snd sources stubSources].
        rewrite H1, lookup_insert_eq. reflexivity.
  - unfold getSourceOrStub, registerSource. cbn [sources].
    rewrite lookup_insert_eq. reflexivity.
  - unfold getSourceOrStub, registerStubSource, registerSource. cbn [sources].
    rewrite lookup_insert_eq. reflexivity.
  - reflexivity.
Qed.

Lemma fold_register_lookup (l : list descriptor) (m : manager) (j : jsstring) :
  j ∉ List.map (fun d => id (enrich d)) l ->
  sources (fold_left (fun acc source => registerSource source acc) l m) !! j
  = sources m !! j.
Proof.
  revert m. induction l as [|d l IH]; intros m Hj; [reflexivity|].
  cbn [fold_left List.map] in *. rewrite IH.
  - unfold registerSource. cbn [sources]. apply lookup_insert_ne.
    intros H. apply Hj. rewrite H. left.
  - intros H. apply Hj. right. exact H.
Qed.

Lemma fold_register_frame (l : list descriptor) (m : manager) :
  stubSources (fold_left (fun acc source => registerSource source acc) l m) = stubSources m
  /\ isInitialized (fold_left (fun acc source => registerSource source acc) l m)
     = isInitialized m.
Proof.
  revert m. induction l as [|d l IH]; intros m; [split; reflexivity|].
  cbn [fold_left]. destruct (IH (registerSource d m)) as [H1 H2].
  rewrite H1, H2. split; reflexivity.
Qed.

(** X11: [initialize] is idempotent and, once the registry is initialized,
    does nothing. On a registry that is not yet initialized it registers
    the three built-in sources under their identifiers, whatever was
    registered under them before, keeps every other source and every
    stub, and a cleared registry is initialized like a new one. *)
Theorem initialize_registers_the_built_ins_once (m : manager) (j : jsstring) :
  initialize (initialize m) = initialize m
  /\ isInitialized (initialize m) = true
  /\ (isInitialized m = true -> initialize m = m)
  /\ stubSources (initialize m) = stubSources m
  /\ (isInitialized m = false ->
      Forall (fun d => fst (getSourceOrStub (id (enrich d)) (initialize m)) = enrich d)
             BUILT_IN_SOURCES
      /\ (j ∉ [js "bato_to"; js "xbato_com"; js "mangadex_org"] ->
          fst (getSource j (initialize m)) = fst (getSource j m)))
  /\ initialize (clear m) = initialize new_manager.
Proof.
  split.
  { unfold initialize at 1. destruct (isInitialized (initialize m)) eqn:H; [reflexivity|].
    exfalso. unfold initialize in H. destruct (isInitialized m) eqn:Hm; [congruence|].
    discriminate H. }
  split.
  { unfold initialize. destruct (isInitialized m) eqn:Hm; [exact Hm|reflexivity]. }
  split.
  { intros Hm. unfold initialize. rewrite Hm. reflexivity. }
  split.
  { unfold initialize. destruct (isInitialized m); [reflexivity|].
    cbn [stubSources]. apply fold_register_frame. }
  split; [|reflexivity].
  intros Hm. split.
  - unfold initialize. rewrite Hm. cbn [BUILT_IN_SOURCES fold_left].
    repeat (apply Forall_cons; split;
            [unfold getSourceOrStub, registerSource; cbn [sources enrich d_id str_truthy id];
             rewrite ?lookup_insert_eq;
             repeat (rewrite lookup_insert_ne by (intros H; vm_compute in H; discriminate H);
                     rewrite ?lookup_insert_eq);
             reflexivity|]).
    apply Forall_nil. exact I.
  - intros Hj. unfold getSource, initialize. rewrite Hm. cbn [fst sources].
    apply fold_register_lookup. exact Hj.
Qed.

End RegistryInvariants.

(** ** Generated source identifiers *)

Section GeneratedIds.
Import SourceManager.

Lemma digits_fuel_digits fuel : forall n acc,
  Forall (fun c => is_digit c = true) acc ->
  Forall (fun c => is_digit c = true) (digits_fuel fuel n acc).
Proof.
  induction fuel as [|f IH]; intros n acc Hacc; [exact Hacc|].
  cbn [digits_fuel].
  assert (Hd : is_digit (48 + n mod 10) = true).
  { unfold is_digit. pose proof (N.mod_upper_bound n 10 ltac:(discriminate)) as Hb.
    revert Hb. generalize (n mod 10)%N. intros r Hb.
    apply andb_true_iff. split; apply N.leb_le; lia. }
  destruct (n <? 10)%N; [|apply IH]; apply Forall_cons; split; assumption.
Qed.

Lemma digits_fuel_nonempty fuel n acc : acc <> [] -> digits_fuel fuel n acc <> [].
Proof.
  revert n acc. induction fuel as [|f IH]; intros n acc Hacc; [exact Hacc|].
  cbn [digits_fuel]. destruct (n <? 10)%N; [discriminate|]. apply IH. discriminate.
Qed.

Lemma N_toString_digits n :
  N_toString n <> [] /\ Forall (fun c => is_digit c = true) (N_toString n).
Proof.
  unfold N_toString. split.
  - cbn [digits_fuel]. destruct (n <? 10)%N; [discriminate|].
    apply digits_fuel_nonempty. discriminate.
  - apply digits_fuel_digits. constructor.
Qed.

Lemma lower_code_idempotent c : lower_code (lower_code c) = lower_code c.
Proof.
  unfold lower_code.
  destruct ((65 <=? c) && (c <=? 90))%N eqn:H1.
  - apply andb_true_iff in H1 as [Ha Hb]. apply N.leb_le in Ha, Hb.
    replace ((65 <=? c + 32) && (c + 32 <=? 90))%N with false
      by (symmetry; apply andb_false_iff; right; apply N.leb_gt; lia).
    replace ((192 <=? c + 32) && (c + 32 <=? 222) && negb (c + 32 =? 215))%N with false;
      [reflexivity|].
    symmetry. apply andb_false_iff. left. apply andb_false_iff. left. apply N.leb_gt. lia.
  - destruct ((192 <=? c) && (c <=? 222) && negb (c =? 215))%N eqn:H2.
    + apply andb_true_iff in H2 as [H2 _]. apply andb_true_iff in H2 as [Ha Hb].
      apply N.leb_le in Ha, Hb.
      replace ((65 <=? c + 32) && (c + 32 <=? 90))%N with false
        by (symmetry; apply andb_false_iff; right; apply N.leb_gt; lia).
      replace ((192 <=? c + 32) && (c + 32 <=? 222) && negb (c + 32 =? 215))%N with false;
        [reflexivity|].
      symmetry. apply andb_false_iff. left. apply andb_false_iff. right. apply N.leb_gt. lia.
    + rewrite H1, H2. reflexivity.
Qed.

Lemma toLowerCase_idempotent s : toLowerCase (toLowerCase s) = toLowerCase s.
Proof.
  unfold toLowerCase. rewrite List.map_map. apply List.map_ext. intros c.
  apply lower_code_idempotent.
Qed.

(** X12: For names made of Latin-1 characters (code units below 256),
    where [toLowerCase] is the lower-casing of the source, the identifier
    that [generateSourceId] computes is a non-empty decimal numeral, and
    it depends on the name only up to the case of its letters. So two
    descriptors without identifier whose Latin-1 names differ only in
    case and whose languages are equal get the same identifier, and
    registering the second replaces the first instead of adding a
    source. *)
Theorem generated_ids_ignore_the_case_of_the_name (d1 d2 : descriptor) (m : manager) :
  Forall (fun c => (c < 256)%N) (d_name d1) ->
  Forall (fun c => (c < 256)%N) (d_name d2) ->
  d_id d1 = None -> d_id d2 = None ->
  toLowerCase (d_name d1) = toLowerCase (d_name d2) -> d_lang d1 = d_lang d2 ->
  id (enrich d1) = id (enrich d2)
  /\ id (enrich d1) <> []
  /\ Forall (fun c => is_digit c = true) (id (enrich d1))
  /\ generateSourceId (toLowerCase (d_name d1)) (d_lang d1)
     = generateSourceId (d_name d1) (d_lang d1)
  /\ fst (getSource (id (enrich d1)) (registerSource d2 (registerSource d1 m)))
     = Some (enrich d2)
  /\ size (sources (registerSource d2 (registerSource d1 m)))
     = size (sources (registerSource d1 m)).
Proof.
  intros _ _ H1 H2 Hname Hlang.
  assert (Hid1 : id (enrich d1) = generateSourceId (d_name d1) (d_lang d1))
    by (unfold enrich; cbn [id]; rewrite H1; reflexivity).
  assert (Hid2 : id (enrich d2) = generateSourceId (d_name d2) (d_lang d2))
    by (unfold enrich; cbn [id]; rewrite H2; reflexivity).
  assert (Hsame : id (enrich d1) = id (enrich d2)).
  { rewrite Hid1, Hid2. unfold generateSourceId. rewrite Hname, Hlang. reflexivity. }
  split; [exact Hsame|].
  split; [rewrite Hid1; apply N_toString_digits|].
  split; [rewrite Hid1; apply N_toString_digits|].
  split; [unfold generateSourceId; rewrite toLowerCase_idempotent; reflexivity|].
  split.
  - rewrite registerSource_lookup, Hsame. rewrite decide_True by reflexivity. reflexivity.
  - unfold registerSource at 1. cbn [sources].
    rewrite map_size_insert. rewrite <- Hsame.
    unfold registerSource. cbn [sources]. rewrite lookup_insert_eq. reflexivity.
Qed.

Lemma generated_ids_ignore_the_case_of_the_name_witness :
  let d1 := {| d_id := None; d_name := js "Bato"; d_lang := js "en";
               d_baseUrl := js "https://bato.to"; d_type := HTTP; d_versionId := 1;
               d_supportsLatest := None; d_isNsfw := None; d_service := None |} in
  let d2 := {| d_id := None; d_name := js "BATO"; d_lang := js "en";
               d_baseUrl := js "https://mto.to"; d_type := HTTP; d_versionId := 1;
               d_supportsLatest := None; d_isNsfw := None; d_service := None |} in
  Forall (fun c => (c < 256)%N) (d_name d1)
  /\ Forall (fun c => (c < 256)%N) (d_name d2)
  /\ id (enrich d1) = id (enrich d2)
  /\ fst (getSource (id (enrich d1)) (registerSource d2 (registerSource d1 new_manager)))
     = Some (enrich d2).
Proof.
  intros d1 d2.
  assert (L1 : Forall (fun c => (c < 256)%N) (d_name d1)) by (vm_compute; repeat constructor).
  assert (L2 : Forall (fun c => (c < 256)%N) (d_name d2)) by (vm_compute; repeat constructor).
  destruct (generated_ids_ignore_the_case_of_the_name d1 d2 new_manager
              L1 L2 eq_refl eq_refl eq_refl eq_refl) as (H1 & _ & _ & _ & H2 & _).
  split; [exact L1|]. split; [exact L2|]. split; [exact H1|exact H2].
Defined.

End GeneratedIds.

(** ** Bounds of the transport *)

Section RetryBounds.
Import NetworkUtils.

(** One turn of the loop of [fetchWithRetry]: it sends one request, to
    [url]; it sleeps once unless it returns or is the last turn. *)
Lemma attempt_turn_shape cfg url attempt e w :
  exists t w',
    attempt_turn cfg url attempt e w = (Returns t, w')
    /\ fetched (trace w') = fetched (trace w) ++ [url]
    /\ CURRENT_BATO_URL w' = CURRENT_BATO_URL w
    /\ match t with
       | TReturn r =>
           sleeps (trace w') = sleeps (trace w)
           /\ exists r0, remote e (fetch_count (trace w)) url = Resolves r0
                         /\ status r = status r0 /\ server r = server r0
       | TContinue =>
           (attempt < maxRetries cfg - 1)%nat
           /\ sleeps (trace w') = sleeps (trace w) ++ [2 ^ (Z.of_nat attempt + 1) * 1000]
       | TCaught _ =>
           if (attempt <? maxRetries cfg - 1)%nat
           then sleeps (trace w') = sleeps (trace w) ++ [2 ^ Z.of_nat attempt * 1000]
           else sleeps (trace w') = sleeps (trace w)
       end.
Proof.
  unfold attempt_turn, try_catch, bind, fetchWithTimeout, try_catch, fetch.
  destruct (remote e (fetch_count (trace w)) url) as [r|c|] eqn:Hremote.
  - destruct (checkCloudflare cfg && ((status r =? 403) || (status r =? 503))).
    + unfold response_text. destruct (text r) as [t|].
      * unfold ret. destruct (isCloudflareChallenge r t).
        -- destruct (attempt <? maxRetries cfg - 1)%nat eqn:Hlast.
           ++ eexists _, _. split; [reflexivity|].
              rewrite fetched_log_sleep, fetched_log_fetch, sleeps_log_sleep, sleeps_log_fetch.
              split; [reflexivity|]. split; [reflexivity|].
              split; [apply Nat.ltb_lt; exact Hlast|reflexivity].
           ++ unfold throw. eexists _, _. split; [reflexivity|].
              rewrite fetched_log_fetch, sleeps_log_fetch.
              split; [reflexivity|]. split; reflexivity.
        -- eexists _, _. split; [reflexivity|].
           rewrite fetched_log_fetch, sleeps_log_fetch.
           split; [reflexivity|]. split; [reflexivity|]. split; [reflexivity|].
           exists r. split; [reflexivity|]. split; reflexivity.
      * unfold throw. destruct (attempt <? maxRetries cfg - 1)%nat;
          (eexists _, _; split; [reflexivity|]);
          rewrite ?fetched_log_sleep, fetched_log_fetch, ?sleeps_log_sleep, sleeps_log_fetch;
          (split; [reflexivity|]; split; reflexivity).
    + eexists _, _. split; [reflexivity|].
      rewrite fetched_log_fetch, sleeps_log_fetch.
      split; [reflexivity|]. split; [reflexivity|]. split; [reflexivity|].
      exists r. split; [reflexivity|]. split; reflexivity.
  - destruct (attempt <? maxRetries cfg - 1)%nat;
      (eexists _, _; split; [reflexivity|]);
      rewrite ?fetched_log_sleep, fetched_log_fetch, ?sleeps_log_sleep, sleeps_log_fetch;
      (split; [reflexivity|]; split; reflexivity).
  - destruct (attempt <? maxRetries cfg - 1)%nat;
      (eexists _, _; split; [reflexivity|]);
      rewrite ?fetched_log_sleep, fetched_log_fetch, ?sleeps_log_sleep, sleeps_log_fetch;
      (split; [reflexivity|]; split; reflexivity).
Qed.

Lemma retry_loop_shape cfg url e :
  forall n attempt lastError w,
    (attempt + n = maxRetries cfg)%nat ->
    exists o w' k ss,
      for_attempts (attempt_turn cfg url) n attempt lastError e w = (o, w')
      /\ (k <= n)%nat /\ (0 < n -> 0 < k)%nat
      /\ fetched (trace w') = fetched (trace w) ++ repeat url k
      /\ CURRENT_BATO_URL w' = CURRENT_BATO_URL w
      /\ sleeps (trace w') = sleeps (trace w) ++ ss
      /\ Forall2 backoff_of (seq attempt (k - 1)) ss
      /\ match o with
         | Returns r => exists j r0, remote e j url = Resolves r0
                                     /\ status r = status r0 /\ server r = server r0
         | Throws _ => k = n
         | Diverges => False
         end.
Proof.
  induction n as [|n IH]; intros attempt lastError w Hsum.
  - exists (Throws (default AllAttemptsFailed lastError)), w, 0%nat, [].
    cbn [for_attempts throw repeat]. rewrite !app_nil_r.
    repeat split; auto; try lia.
  - destruct (attempt_turn_shape cfg url attempt e w) as (t & w1 & Hturn & Hf1 & Hc1 & Ht).
    cbn [for_attempts]. unfold bind at 1. rewrite Hturn.
    assert (Hgo : forall lastError',
              (match t with TReturn _ => False | _ => True end) ->
              exists o w' k ss,
                for_attempts (attempt_turn cfg url) n (S attempt) lastError' e w1 = (o, w')
                /\ (k <= S n)%nat /\ (0 < S n -> 0 < k)%nat
                /\ fetched (trace w') = fetched (trace w) ++ repeat url k
                /\ CURRENT_BATO_URL w' = CURRENT_BATO_URL w
                /\ sleeps (trace w') = sleeps (trace w) ++ ss
                /\ Forall2 backoff_of (seq attempt (k - 1)) ss
                /\ match o with
                   | Returns r => exists j r0, remote e j url = Resolves r0
                                               /\ status r = status r0 /\ server r = server r0
                   | Throws _ => k = S n
                   | Diverges => False
                   end).
    { intros lastError' Hnot.
      destruct (IH (S attempt) lastError' w1) as (o & w' & k & ss & Hrun & Hk & Hk0 & Hf & Hc & Hs & Hb & Ho);
        [lia|].
      assert (Hsl : exists s1, sleeps (trace w1) = sleeps (trace w) ++ s1
                               /\ ((n = 0)%nat -> s1 = [])
                               /\ ((0 < n)%nat -> exists ms, s1 = [ms] /\ backoff_of attempt ms)).
      { destruct t as [r| |err]; [contradiction| |].
        - destruct Ht as [Hlt Hs1]. eexists. split; [exact Hs1|]. split; [lia|].
          intros _. eexists. split; [reflexivity|]. right. reflexivity.
        - destruct (attempt <? maxRetries cfg - 1)%nat eqn:Hlast.
          + apply Nat.ltb_lt in Hlast. eexists. split; [exact Ht|]. split; [lia|].
            intros _. eexists. split; [reflexivity|]. left. reflexivity.
          + apply Nat.ltb_ge in Hlast. exists []. rewrite app_nil_r. split; [exact Ht|].
            split; [reflexivity|]. lia. }
      destruct Hsl as (s1 & Hs1 & Hzero & Hpos).
      exists o, w', (S k), (s1 ++ ss). split; [exact Hrun|].
      split; [lia|]. split; [lia|].
      split; [rewrite Hf, Hf1, <- app_assoc; reflexivity|].
      split; [rewrite Hc, Hc1; reflexivity|].
      split; [rewrite Hs, Hs1, <- app_assoc; reflexivity|].
      split.
      - destruct n as [|n'].
        + rewrite (Hzero eq_refl). assert (k = 0%nat) by lia. subst k.
          cbn [Nat.sub seq app] in *. exact Hb.
        + destruct (Hpos ltac:(lia)) as (ms & -> & Hms).
          destruct k as [|k']; [lia|].
          replace (S (S k') - 1)%nat with (S (S k' - 1)) by lia.
          cbn [seq app]. constructor; [exact Hms|exact Hb].
      - destruct o as [r|err|]; [exact Ho|lia|exact Ho]. }
    destruct t as [r| |err].
    + exists (Returns r), w1, 1%nat, []. unfold ret. cbn [repeat Nat.sub seq].
      destruct Ht as (Hs1 & r0 & Hr0 & Hst & Hsv).
      rewrite app_nil_r.
      split; [reflexivity|]. split; [lia|]. split; [lia|]. split; [exact Hf1|].
      split; [exact Hc1|]. split; [exact Hs1|]. split; [constructor|].
      exists (fetch_count (trace w)), r0. repeat split; assumption.
    + apply Hgo. exact I.
    + apply Hgo. exact I.
Qed.


(** X13: Whatever the hosts answer, a call of [fetchWithRetry] ends: it sends
    between one and [maxRetries] requests, all to its URL, pauses once
    between two consecutive requests and never after the last one (after
    attempt [i]: [2^i] seconds after an error, [2^(i+1)] seconds after a
    challenge), and leaves [CURRENT_BATO_URL] alone. What it returns
    carries the status and [server] header of an answer a host gave; it
    throws only after all [maxRetries] attempts; with [maxRetries = 0] it
    throws at once without any request. *)
Theorem fetchWithRetry_effort_is_bounded (cfg : config) (url : jsstring) (e : env)
  (w : world) :
  (exists o w' k ss,
     fetchWithRetry url cfg e w = (o, w')
     /\ (k <= maxRetries cfg)%nat /\ (0 < maxRetries cfg -> 0 < k)%nat
     /\ fetched (trace w') = fetched (trace w) ++ repeat url k
     /\ sleeps (trace w') = sleeps (trace w) ++ ss
     /\ Forall2 backoff_of (seq 0 (k - 1)) ss
     /\ CURRENT_BATO_URL w' = CURRENT_BATO_URL w
     /\ match o with
        | Returns r => exists j r0, remote e j url = Resolves r0
                                    /\ status r = status r0 /\ server r = server r0
        | Throws _ => k = maxRetries cfg
        | Diverges => False
        end)
  /\ (maxRetries cfg = 0%nat -> fetchWithRetry url cfg e w = (Throws AllAttemptsFailed, w)).
Proof.
  split.
  - destruct (retry_loop_shape cfg url e (maxRetries cfg) 0 None w eq_refl)
      as (o & w' & k & ss & Hrun & Hk & Hk0 & Hf & Hc & Hs & Hb & Ho).
    exists o, w', k, ss. repeat split; assumption.
  - intros H0. unfold fetchWithRetry. rewrite H0. reflexivity.
Qed.

Lemma retry_loop_recovers cfg url e r :
  plain_answer cfg r ->
  forall k n attempt lastError w,
    (attempt + n = maxRetries cfg)%nat -> (k < n)%nat ->
    (forall i, (i < k)%nat ->
       exists err, failure_of (remote e (fetch_count (trace w) + i) url) = Some err) ->
    remote e (fetch_count (trace w) + k) url = Resolves r ->
    exists w',
      for_attempts (attempt_turn cfg url) n attempt lastError e w = (Returns r, w')
      /\ sleeps (trace w') = sleeps (trace w) ++ backoffs attempt k
      /\ fetched (trace w') = fetched (trace w) ++ repeat url (S k).
Proof.
  intros Hplain. induction k as [|k IH]; intros n attempt lastError w Hsum Hk Hfail Hr.
  - destruct n as [|n]; [lia|]. rewrite Nat.add_0_r in Hr.
    cbn [for_attempts]. unfold bind at 1.
    rewrite (attempt_turn_plain cfg url attempt e w r Hr Hplain).
    exists (log (EvFetch url) w). unfold ret.
    rewrite sleeps_log_fetch, fetched_log_fetch, app_nil_r. repeat split.
  - destruct n as [|n]; [lia|].
    destruct (Hfail 0%nat ltac:(lia)) as [err Herr]. rewrite Nat.add_0_r in Herr.
    cbn [for_attempts]. unfold bind at 1.
    rewrite (attempt_turn_fails cfg url attempt e w err Herr).
    replace (attempt <? maxRetries cfg - 1)%nat with true
      by (symmetry; apply Nat.ltb_lt; lia).
    destruct (IH n (S attempt) (Some err)
                 (log (EvSleep (2 ^ Z.of_nat attempt * 1000)) (log (EvFetch url) w)))
      as (w' & Hrun & Hs & Hf).
    + lia.
    + lia.
    + intros i Hi. rewrite fetch_count_log_sleep, fetch_count_log_fetch.
      destruct (Hfail (S i) ltac:(lia)) as [err' Herr']. exists err'.
      rewrite <- Herr'. f_equal. f_equal. lia.
    + rewrite fetch_count_log_sleep, fetch_count_log_fetch. rewrite <- Hr. f_equal. lia.
    + exists w'. split; [exact Hrun|].
      rewrite sleeps_log_sleep, sleeps_log_fetch in Hs.
      rewrite fetched_log_sleep, fetched_log_fetch in Hf.
      split.
      * rewrite Hs, backoffs_cons, <- app_assoc. reflexivity.
      * rewrite Hf, <- app_assoc. reflexivity.
Qed.

(** X14: Transient failures are ridden out: when the first [k] requests of a
    call get no answer ([k < maxRetries]) and the next one gets an answer
    that is not taken for a challenge, [fetchWithRetry] returns that
    answer after [k + 1] requests and pauses of 1 s, 2 s, ..., [2^(k-1)] s. *)
Theorem fetchWithRetry_recovers_after_failures (cfg : config) (url : jsstring) (e : env)
  (w : world) (k : nat) (r : response) :
  (k < maxRetries cfg)%nat ->
  (forall i, (i < k)%nat ->
     exists err, failure_of (remote e (fetch_count (trace w) + i) url) = Some err) ->
  remote e (fetch_count (trace w) + k) url = Resolves r ->
  plain_answer cfg r ->
  exists w',
    fetchWithRetry url cfg e w = (Returns r, w')
    /\ sleeps (trace w') = sleeps (trace w) ++ backoffs 0 k
    /\ fetched (trace w') = fetched (trace w) ++ repeat url (S k).
Proof.
  intros Hk Hfail Hr Hplain. unfold fetchWithRetry.
  apply (retry_loop_recovers cfg url e r Hplain k); auto.
Qed.

Lemma fetchWithRetry_recovers_after_failures_witness :
  exists w',
    fetchWithRetry sample_url default_config failing_twice Bato.initial_world
    = (Returns page200, w')
    /\ sleeps (trace w') = [1000; 2000]
    /\ fetched (trace w') = [sample_url; sample_url; sample_url].
Proof.
  apply (fetchWithRetry_recovers_after_failures default_config sample_url failing_twice
           Bato.initial_world 2 page200).
  - cbn. lia.
  - intros i Hi. exists (FetchError 7).
    destruct i as [|[|i]]; [reflexivity|reflexivity|lia].
  - reflexivity.
  - right. left. reflexivity.
Defined.

End RetryBounds.

(** ** The queue of the rate limiter *)

Section LimiterBounds.
Import NetworkUtils.

Lemma filter_is_sublist {A} (p : A -> bool) (l : list A) : sublist (List.filter p l) l.
Proof.
  induction l as [|x l IH]; [constructor|].
  cbn [List.filter]. destruct (p x); [apply sublist_skip|apply sublist_cons]; exact IH.
Qed.

Lemma run_acquires_queue times :
  forall l,
    0 < permits l -> Z.of_nat (length (requestQueue l)) <= permits l ->
    Z.of_nat (length (requestQueue (snd (run_acquires times l)))) <= permits l
    /\ permits (snd (run_acquires times l)) = permits l
    /\ periodMs (snd (run_acquires times l)) = periodMs l
    /\ sublist (fst (run_acquires times l)) times
    /\ sublist (requestQueue (snd (run_acquires times l)))
               (requestQueue l ++ fst (run_acquires times l)).
Proof.
  induction times as [|now times IH]; intros l Hp Hlen.
  - cbn [run_acquires fst snd]. rewrite app_nil_r. repeat split; auto; reflexivity.
  - pose proof (List.filter_length_le (fresh (periodMs l) now) (requestQueue l)) as Hfl.
    pose proof (filter_is_sublist (fresh (periodMs l) now) (requestQueue l)) as Hsub.
    destruct (acquire_once_cases now l Hp) as [[Hroom Hgrant]|(oldest & rest & Hq & Hfull & Hw & Hwait)].
    + cbn [run_acquires]. rewrite Hgrant.
      set (l1 := {| permits := permits l; periodMs := periodMs l;
                    requestQueue := List.filter (fresh (periodMs l) now) (requestQueue l)
                                    ++ [now] |}).
      destruct (IH l1) as (H1 & H2 & H3 & H4 & H5).
      * exact Hp.
      * cbn [l1 requestQueue permits]. rewrite length_app. cbn [length]. lia.
      * destruct (run_acquires times l1) as [g l2]. cbn [fst snd] in *.
        cbn [l1 permits periodMs requestQueue] in *.
        split; [exact H1|]. split; [exact H2|]. split; [exact H3|].
        split; [apply sublist_skip; exact H4|].
        etransitivity; [exact H5|].
        rewrite <- app_assoc. cbn [app]. apply sublist_app; [exact Hsub|reflexivity].
    + cbn [run_acquires]. rewrite Hwait.
      set (l1 := {| permits := permits l; periodMs := periodMs l;
                    requestQueue := List.filter (fresh (periodMs l) now) (requestQueue l) |}).
      destruct (IH l1) as (H1 & H2 & H3 & H4 & H5).
      * exact Hp.
      * cbn [l1 requestQueue permits]. lia.
      * cbn [l1 permits periodMs requestQueue] in *.
        split; [exact H1|]. split; [exact H2|]. split; [exact H3|].
        split; [apply sublist_cons; exact H4|].
        etransitivity; [exact H5|]. apply sublist_app; [exact Hsub|reflexivity].
Qed.

(** X15: A limiter with at least one permit never holds more than [permits]
    timestamps in its queue, whatever the clock readings of the calls
    (also readings that go back); its parameters never change; the calls
    that are granted are granted in the order of arrival, and the queue
    holds timestamps of granted calls only, in that order. *)
Theorem limiter_queue_is_bounded (N W : Z) (times : list Z) :
  0 < N ->
  let granted := fst (run_acquires times (new_limiter N W)) in
  let l := snd (run_acquires times (new_limiter N W)) in
  Z.of_nat (length (requestQueue l)) <= N
  /\ permits l = N /\ periodMs l = W
  /\ sublist granted times
  /\ sublist (requestQueue l) granted.
Proof.
  intros HN granted l.
  destruct (run_acquires_queue times (new_limiter N W)) as (H1 & H2 & H3 & H4 & H5).
  - exact HN.
  - cbn. lia.
  - repeat split; assumption.
Qed.

Lemma limiter_queue_is_bounded_witness :
  0 < 2
  /\ Z.of_nat (length (requestQueue
        (snd (run_acquires [0; 0; 10; 5; 1000; 999; 1005; 2500] (new_limiter 2 1000))))) <= 2.
Proof.
  assert (H0 : 0 < 2) by lia.
  split; [exact H0|].
  destruct (limiter_queue_is_bounded 2 1000 [0; 0; 10; 5; 1000; 999; 1005; 2500] H0)
    as [Hbound _].
  exact Hbound.
Defined.

End LimiterBounds.

(** ** The Bato service and its mirrors *)

Section MirrorFacts.
Import NetworkUtils Bato.

Lemma attempts_on_spec path domains :
  forall counts,
    Forall (fun k => 1 <= k <= 3)%nat counts ->
    (length (attempts_on path domains counts) <= 3 * length domains)%nat
    /\ Forall (fun u => exists d, d ∈ domains /\ u = d ++ path)
              (attempts_on path domains counts).
Proof.
  induction domains as [|d ds IH]; intros counts Hc.
  - cbn [attempts_on length]. split; [lia|constructor].
  - destruct counts as [|k ks]; [cbn [attempts_on length]; split; [lia|constructor]|].
    apply Forall_cons in Hc as [Hk Hks]. destruct (IH ks Hks) as [Hlen Hall].
    cbn [attempts_on]. split.
    + rewrite length_app, repeat_length. cbn [length]. unfold jsstring in *. lia.
    + apply Forall_app. split.
      * apply Forall_forall. intros u Hu. apply list_elem_of_In, repeat_spec in Hu. subst u.
        exists d. split; [left|reflexivity].
      * eapply Forall_impl; [exact Hall|]. intros u (d' & Hd' & ->).
        exists d'. split; [right; exact Hd'|reflexivity].
Qed.

Lemma mirror_request_mono paths paths' u :
  (forall p, p ∈ paths -> p ∈ paths') -> mirror_request paths u -> mirror_request paths' u.
Proof. intros Hsub (d & p & Hd & Hp & ->). exists d, p. auto. Qed.

Lemma tryBatoDomains_mirrors path e w :
  exists o w',
    tryBatoDomains path e w = (o, w')
    /\ o <> Diverges
    /\ (CURRENT_BATO_URL w' = CURRENT_BATO_URL w \/ CURRENT_BATO_URL w' ∈ BATO_DOMAINS)
    /\ (forall r, o = Returns r -> ok r = true /\ CURRENT_BATO_URL w' ∈ BATO_DOMAINS
                                   /\ exists j url, remote e j url = Resolves r)
    /\ (forall err, o = Throws err -> CURRENT_BATO_URL w' = CURRENT_BATO_URL w)
    /\ exists urls,
         fetched (trace w') = fetched (trace w) ++ urls
         /\ (1 <= length urls <= 9)%nat
         /\ Forall (mirror_request [path]) urls.
Proof.
  destruct (try_domains_shape path e BATO_DOMAINS w)
    as (o & w' & counts & Hrun & Hf & Hlen & Hall & Ho).
  exists o, w'. split; [exact Hrun|].
  destruct (attempts_on_spec path BATO_DOMAINS counts Hall) as [Hl Hm].
  assert (Hcur : forall r, o = Returns r -> ok r = true /\ CURRENT_BATO_URL w' ∈ BATO_DOMAINS
                                            /\ exists j url, remote e j url = Resolves r).
  { intros r ->. destruct Ho as (Hok & Hfrom & d & Hd & _ & Hc). split; [exact Hok|].
    split; [|exact Hfrom]. rewrite Hc. apply list_elem_of_lookup. eauto. }
  split; [intros ->; exact Ho|].
  split.
  { destruct o as [r|err|]; [right; apply (Hcur r eq_refl)|left; apply Ho|contradiction]. }
  split; [exact Hcur|].
  split; [intros err ->; apply Ho|].
  exists (attempts_on path BATO_DOMAINS counts). split; [exact Hf|]. split.
  - split; [|cbn [BATO_DOMAINS length] in Hl; lia].
    assert (Hne : counts <> []).
    { destruct o as [r|err|]; [destruct Ho as (_ & _ & d & _ & Hne & _); exact Hne| |contradiction].
      destruct Ho as (_ & Hl' & _). intros ->. discriminate Hl'. }
    destruct counts as [|k counts]; [congruence|].
    apply Forall_cons in Hall as [Hk _]. cbn [BATO_DOMAINS attempts_on].
    rewrite length_app, repeat_length. lia.
  - eapply Forall_impl; [exact Hm|]. intros u (d & Hd & ->).
    exists d, path. split; [exact Hd|]. split; [left|reflexivity].
Qed.


Lemma fetch_paths_mirrors e paths :
  forall html w,
    exists h w',
      fetch_paths paths html e w = (Returns h, w')
      /\ (CURRENT_BATO_URL w' = CURRENT_BATO_URL w \/ CURRENT_BATO_URL w' ∈ BATO_DOMAINS)
      /\ exists urls,
           fetched (trace w') = fetched (trace w) ++ urls
           /\ (length urls <= 9 * length paths)%nat
           /\ Forall (mirror_request paths) urls.
Proof.
  induction paths as [|path rest IH]; intros html w.
  - exists html, w. split; [reflexivity|]. split; [left; reflexivity|].
    exists []. rewrite app_nil_r. split; [reflexivity|]. split; [cbn; lia|constructor].
  - cbn [fetch_paths]. unfold bind at 1, try_catch, bind.
    destruct (tryBatoDomains_mirrors path e w)
      as (o & w1 & Hrun & Hend & Hcur & _ & _ & urls & Hf & Hlen & Hall).
    rewrite Hrun.
    assert (Hhere : Forall (mirror_request (path :: rest)) urls).
    { eapply Forall_impl; [exact Hall|]. intros u. apply mirror_request_mono.
      intros p Hp. apply list_elem_of_singleton in Hp as ->. left. }
    assert (Hstop :
      (CURRENT_BATO_URL w1 = CURRENT_BATO_URL w \/ CURRENT_BATO_URL w1 ∈ BATO_DOMAINS)
      /\ exists urls0,
           fetched (trace w1) = fetched (trace w) ++ urls0
           /\ (length urls0 <= 9 * length (path :: rest))%nat
           /\ Forall (mirror_request (path :: rest)) urls0).
    { split; [exact Hcur|]. exists urls. split; [exact Hf|].
      split; [cbn [length]; lia|exact Hhere]. }
    assert (Hnext : forall h0,
      exists h w',
        fetch_paths rest h0 e w1 = (Returns h, w')
        /\ (CURRENT_BATO_URL w' = CURRENT_BATO_URL w \/ CURRENT_BATO_URL w' ∈ BATO_DOMAINS)
        /\ exists urls0,
             fetched (trace w') = fetched (trace w) ++ urls0
             /\ (length urls0 <= 9 * length (path :: rest))%nat
             /\ Forall (mirror_request (path :: rest)) urls0).
    { intros h0. destruct (IH h0 w1) as (h & w' & Hrest & Hcur' & urls' & Hf' & Hlen' & Hall').
      exists h, w'. split; [exact Hrest|]. split.
      - destruct Hcur' as [Hsame|Hin]; [rewrite Hsame; exact Hcur|right; exact Hin].
      - exists (urls ++ urls'). split; [rewrite Hf', Hf, <- app_assoc; reflexivity|].
        split; [rewrite length_app; cbn [length]; lia|].
        apply Forall_app. split; [exact Hhere|].
        eapply Forall_impl; [exact Hall'|]. intros u. apply mirror_request_mono.
        intros p Hp. right. exact Hp. }
    destruct o as [r|err|]; [|unfold ret; apply Hnext|congruence].
    unfold response_text. destruct (text r) as [t|].
    + unfold ret. destruct (1000 <? length t)%nat; [|apply Hnext].
      exists t, w1. split; [reflexivity|]. exact Hstop.
    + unfold throw, ret. apply Hnext.
Qed.

(** A continuation that leaves the world alone. *)
Lemma stays_on_mirrors_fetch_paths {A} (c : M A) paths e w :
  (forall h w1, fetch_paths paths [] e w = (Returns h, w1) -> snd (c e w) = w1) ->
  stays_on_mirrors c paths e w.
Proof.
  intros Hc. destruct (fetch_paths_mirrors e paths [] w) as (h & w1 & Hrun & Hcur & Hurls).
  unfold stays_on_mirrors. rewrite (Hc h w1 Hrun). split; [exact Hcur|exact Hurls].
Qed.

(** X16: The Bato service talks to the mirror domains only. Each of its entry
    points requests nothing but its own paths on the domains of
    [BATO_DOMAINS], at most nine requests a path (three domains, three
    attempts each), and [CURRENT_BATO_URL] is afterwards what it was or
    one of the mirror domains. A query that cannot be encoded costs no
    request at all. *)
Theorem bato_service_talks_to_the_mirrors_only (query chapterId : jsstring) (e : env)
  (w : world) :
  stays_on_mirrors testBatoConnection [js "/"] e w
  /\ stays_on_mirrors getBatoPopularManga
       [js "/browse"; js "/browse?sort=views"; js "/browse?sort=popular"; js "/popular";
        js "/"] e w
  /\ stays_on_mirrors getBatoLatestUpdates
       [js "/browse?sort=update"; js "/latest"; js "/recent"] e w
  /\ stays_on_mirrors (getBatoChapterPages chapterId)
       [js "/chapter/" ++ chapterId; js "/read/" ++ chapterId] e w
  /\ (forall q, encodeURIComponent e query = Some q ->
        stays_on_mirrors (searchBatoManga query) [js "/search?word=" ++ q] e w)
  /\ (encodeURIComponent e query = None -> searchBatoManga query e w = (Returns [], w)).
Proof.
  assert (Hone : forall {A} (c : M A) path,
            (forall o w1, tryBatoDomains path e w = (o, w1) -> snd (c e w) = w1) ->
            stays_on_mirrors c [path] e w).
  { intros A c path Hc.
    destruct (tryBatoDomains_mirrors path e w)
      as (o & w1 & Hrun & _ & Hcur & _ & _ & urls & Hf & Hlen & Hall).
    unfold stays_on_mirrors. rewrite (Hc o w1 Hrun). split; [exact Hcur|].
    exists urls. split; [exact Hf|]. split; [cbn [length]; lia|exact Hall]. }
  split; [|split; [|split; [|split; [|split]]]].
  - apply Hone. intros o w1 Hrun. unfold testBatoConnection, try_catch, bind.
    rewrite Hrun. destruct o; reflexivity.
  - apply stays_on_mirrors_fetch_paths. intros h w1 Hrun.
    unfold getBatoPopularManga, try_catch, bind. rewrite Hrun.
    destruct (str_truthy h); cbn [negb]; [|reflexivity].
    unfold read_current, lift.
    destruct (listing_records (CURRENT_BATO_URL w1) h); reflexivity.
  - apply stays_on_mirrors_fetch_paths. intros h w1 Hrun.
    unfold getBatoLatestUpdates, try_catch, bind. rewrite Hrun.
    unfold read_current, lift.
    destruct (latest_records (CURRENT_BATO_URL w1) h); reflexivity.
  - apply stays_on_mirrors_fetch_paths. intros h w1 Hrun.
    unfold getBatoChapterPages, try_catch, bind. rewrite Hrun.
    unfold ask_env, read_current, lift.
    destruct (page_records (JSON_parse e) (CURRENT_BATO_URL w1) h); reflexivity.
  - intros q Hq. apply Hone. intros o w1 Hrun.
    unfold searchBatoManga, try_catch, bind, encode, bind, ask_env. rewrite Hq.
    unfold ret. rewrite Hrun. destruct o as [r|err|]; [|reflexivity|reflexivity].
    unfold response_text. destruct (text r) as [t|]; [|reflexivity].
    unfold ret, read_current, lift.
    destruct (listing_records (CURRENT_BATO_URL w1) t); reflexivity.
  - intros Hq. unfold searchBatoManga, try_catch, bind, encode, bind, ask_env.
    rewrite Hq. reflexivity.
Qed.

Lemma fetch_count_fetched (t : list event) : fetch_count t = length (fetched t).
Proof.
  unfold fetch_count, fetched.
  induction t as [|ev t IH]; [reflexivity|].
  destruct ev; cbn [List.filter is_fetch flat_map length app]; rewrite ?IH; reflexivity.
Qed.

(** The response that [cloudflareBypassFetch] returns is the answer to
    the last request of the call. *)
Lemma bypass_loop_answer url e n :
  forall attempt lastError w r w',
    for_attempts (cloudflare_turn url) n attempt lastError e w = (Returns r, w') ->
    exists j,
      (fetch_count (trace w) <= j)%nat
      /\ fetch_count (trace w') = S j
      /\ fetched (trace w') !! j = Some url
      /\ remote e j url = Resolves r
      /\ (ok r = true \/ status r = 404).
Proof.
  induction n as [|n IH]; intros attempt lastError w r w' Hrun.
  - cbn [for_attempts throw] in Hrun. discriminate Hrun.
  - destruct (cloudflare_turn_shape url attempt e w) as (t & w1 & Hturn & Hf1 & _ & Hret).
    cbn [for_attempts] in Hrun. unfold bind at 1 in Hrun. rewrite Hturn in Hrun.
    assert (Hc1 : fetch_count (trace w1) = S (fetch_count (trace w))).
    { rewrite !fetch_count_fetched, Hf1, length_app. cbn [length]. lia. }
    destruct t as [r1| |err].
    + unfold ret in Hrun. injection Hrun as <- <-.
      destruct (Hret r1 eq_refl) as [Hfrom Hkind].
      exists (fetch_count (trace w)). split; [lia|]. split; [exact Hc1|].
      split; [|split; assumption].
      rewrite Hf1, fetch_count_fetched. apply list_lookup_middle. reflexivity.
    + destruct (IH _ _ _ _ _ Hrun) as (j & Hj & Hlast & Hurl & Hfrom & Hkind).
      exists j. split; [lia|]. repeat split; assumption.
    + destruct (IH _ _ _ _ _ Hrun) as (j & Hj & Hlast & Hurl & Hfrom & Hkind).
      exists j. split; [lia|]. repeat split; assumption.
Qed.

Lemma bypass_requests_grow url e w o w' :
  cloudflareBypassFetch url e w = (o, w') ->
  (fetch_count (trace w) <= fetch_count (trace w'))%nat.
Proof.
  intros Hrun. unfold cloudflareBypassFetch in Hrun.
  destruct (bypass_loop_shape url e 3 0%nat None w) as (o1 & w1 & k & Hrun1 & _ & _ & Hf & _).
  rewrite Hrun in Hrun1. injection Hrun1 as <- <-.
  rewrite !fetch_count_fetched, Hf, length_app. lia.
Qed.

(** The response that [tryBatoDomains] returns is the ok answer of a
    domain of the list to the last request of the call, and that domain
    is the current one afterwards. *)
Lemma try_domains_answer path e domains :
  forall w r w',
    try_domains domains path e w = (Returns r, w') ->
    exists domain j,
      domain ∈ domains
      /\ (fetch_count (trace w) <= j)%nat
      /\ fetch_count (trace w') = S j
      /\ fetched (trace w') !! j = Some (domain ++ path)
      /\ remote e j (domain ++ path) = Resolves r
      /\ ok r = true
      /\ CURRENT_BATO_URL w' = domain.
Proof.
  induction domains as [|domain rest IH]; intros w r w' Hrun.
  - cbn [try_domains throw] in Hrun. discriminate Hrun.
  - rewrite try_domains_step in Hrun.
    destruct (cloudflareBypassFetch (domain ++ path) e w) as [[response|err|] w1] eqn:Hfetch;
      [| |discriminate Hrun].
    + destruct (ok response) eqn:Hok.
      * injection Hrun as <- <-.
        destruct (bypass_loop_answer _ _ _ _ _ _ _ _ Hfetch)
          as (j & Hj & Hlast & Hurl & Hfrom & _).
        exists domain, j. cbn [trace CURRENT_BATO_URL].
        split; [left|]. repeat split; assumption.
      * pose proof (bypass_requests_grow _ _ _ _ _ Hfetch) as Hgrow.
        destruct (IH _ _ _ Hrun) as (d & j & Hd & Hj & Hlast & Hurl & Hfrom & Hokr & Hcur).
        exists d, j. split; [right; exact Hd|]. split; [lia|]. repeat split; assumption.
    + pose proof (bypass_requests_grow _ _ _ _ _ Hfetch) as Hgrow.
      destruct (IH _ _ _ Hrun) as (d & j & Hd & Hj & Hlast & Hurl & Hfrom & Hokr & Hcur).
      exists d, j. split; [right; exact Hd|]. split; [lia|]. repeat split; assumption.
Qed.

(** X17: [testBatoConnection] answers in every environment. It answers
    true only when a mirror domain gave an ok response to a request of
    this call for its root path: the last request of the call, and that
    domain is then [CURRENT_BATO_URL]. It answers false only when
    [tryBatoDomains] found no domain and threw, which leaves
    [CURRENT_BATO_URL] as it was; when no host answers it answers
    false. *)
Theorem testBatoConnection_reports_a_working_mirror (e : env) (w : world) :
  exists b w',
    testBatoConnection e w = (Returns b, w')
    /\ (b = true ->
        exists domain j r,
          domain ∈ BATO_DOMAINS
          /\ (fetch_count (trace w) <= j)%nat
          /\ fetch_count (trace w') = S j
          /\ fetched (trace w') !! j = Some (domain ++ js "/")
          /\ remote e j (domain ++ js "/") = Resolves r
          /\ ok r = true
          /\ CURRENT_BATO_URL w' = domain)
    /\ (b = false ->
        CURRENT_BATO_URL w' = CURRENT_BATO_URL w
        /\ exists w0, tryBatoDomains (js "/") e w = (Throws AllDomainsFailed, w0))
    /\ (offline e -> b = false).
Proof.
  unfold testBatoConnection, try_catch, bind.
  destruct (tryBatoDomains_mirrors (js "/") e w)
    as (o & w1 & Hrun & Hend & Hcur & Hret & Hthr & _).
  pose proof (C := try_domains_shape (js "/") e BATO_DOMAINS w).
  destruct C as (o' & w1' & counts & Hrun' & _ & _ & _ & Ho').
  unfold tryBatoDomains in Hrun. rewrite Hrun in Hrun'. injection Hrun' as <- <-.
  unfold tryBatoDomains. rewrite Hrun.
  destruct o as [r|err|]; [| |congruence].
  - destruct (try_domains_answer _ _ _ _ _ _ Hrun)
      as (domain & j & Hd & Hj & Hlast & Hurl & Hfrom & Hok & Hdom).
    exists (ok r), w1. unfold ret. split; [reflexivity|]. rewrite Hok.
    split; [intros _; exists domain, j, r; repeat split; assumption|].
    split; [discriminate|].
    intros Hoff. destruct (Hoff (domain ++ js "/") j) as [x Hx].
    rewrite Hfrom in Hx. discriminate Hx.
  - exists false, w1. unfold ret. split; [reflexivity|].
    split; [discriminate|]. split; [|reflexivity].
    intros _. split; [apply (Hthr err eq_refl)|].
    destruct Ho' as [-> _]. exists w1. reflexivity.
Qed.

End MirrorFacts.

(** ** The bypass loop and the URLs of a listing *)

Section BypassFacts.
Import Regex NetworkUtils Bato.

Lemma cloudflare_turn_challenged url attempt e w r t :
  remote e (fetch_count (trace w)) url = Resolves r ->
  edge_answer r = true -> text r = Some t -> challenge_markers t = true ->
  cloudflare_turn url attempt e w
  = (Returns TContinue, log (EvSleep (2000 * (Z.of_nat attempt + 1))) (log (EvFetch url) w)).
Proof.
  intros Hr He Ht Hm. unfold cloudflare_turn, try_catch, bind, fetch.
  rewrite Hr, He. unfold response_text. rewrite Ht. unfold ret. rewrite Hm. reflexivity.
Qed.

(** X18: What [cloudflareBypassFetch] can return is a 2xx or a 404 answer
    that a host gave to one of its one to three requests for the URL;
    any other answer ends in a throw, never in a returned error page. The
    call does not write [CURRENT_BATO_URL]. *)
Theorem cloudflareBypassFetch_returns_ok_or_404_only (url : jsstring) (e : env) (w : world) :
  exists o w' k,
    cloudflareBypassFetch url e w = (o, w')
    /\ (1 <= k <= 3)%nat
    /\ fetched (trace w') = fetched (trace w) ++ repeat url k
    /\ CURRENT_BATO_URL w' = CURRENT_BATO_URL w
    /\ match o with
       | Returns r => (exists j, remote e j url = Resolves r)
                      /\ (ok r = true \/ status r = 404)
       | Throws _ => True
       | Diverges => False
       end.
Proof.
  unfold cloudflareBypassFetch.
  destruct (bypass_loop_shape url e 3 0 None w) as (o & w' & k & Hrun & Hk & Hk0 & Hf & Hc & Ho).
  exists o, w', k. split; [exact Hrun|]. split; [lia|]. repeat split; assumption.
Qed.

(** X19: When every answer for the URL is a challenge page, the call makes its
    three requests, pauses 2 s, 4 s and 6 s (also after the last
    request) and then throws the error that all attempts failed, since no
    attempt has thrown. *)
Theorem cloudflareBypassFetch_under_challenge (url : jsstring) (e : env) (w : world) :
  challenged e url ->
  exists w',
    cloudflareBypassFetch url e w = (Throws AllAttemptsFailed, w')
    /\ sleeps (trace w') = sleeps (trace w) ++ [2000; 4000; 6000]
    /\ fetched (trace w') = fetched (trace w) ++ [url; url; url].
Proof.
  intros Hch. unfold cloudflareBypassFetch.
  assert (Hturn : forall attempt w0,
            cloudflare_turn url attempt e w0
            = (Returns TContinue,
               log (EvSleep (2000 * (Z.of_nat attempt + 1))) (log (EvFetch url) w0))).
  { intros attempt w0. destruct (Hch (fetch_count (trace w0))) as (r & t & Hr & He & Ht & Hm).
    apply (cloudflare_turn_challenged url attempt e w0 r t Hr He Ht Hm). }
  exists (log (EvSleep 6000) (log (EvFetch url)
            (log (EvSleep 4000) (log (EvFetch url)
               (log (EvSleep 2000) (log (EvFetch url) w)))))).
  split.
  - cbn [for_attempts]. unfold bind.
    rewrite Hturn. cbv beta iota. rewrite Hturn. cbv beta iota. rewrite Hturn. reflexivity.
  - repeat (rewrite sleeps_log_sleep || rewrite sleeps_log_fetch
            || rewrite fetched_log_sleep || rewrite fetched_log_fetch).
    rewrite <- !app_assoc. split; reflexivity.
Qed.

Lemma cloudflareBypassFetch_under_challenge_witness :
  challenged always_challenged sample_url
  /\ exists w',
       cloudflareBypassFetch sample_url always_challenged initial_world
       = (Throws AllAttemptsFailed, w')
       /\ sleeps (trace w') = [2000; 4000; 6000].
Proof.
  assert (H : challenged always_challenged sample_url).
  { intros k. exists challenge503, challenge_body. repeat split; reflexivity. }
  split; [exact H|].
  destruct (cloudflareBypassFetch_under_challenge sample_url always_challenged initial_world H)
    as (w' & Hrun & Hs & _).
  exists w'. split; [exact Hrun|exact Hs].
Defined.

Lemma card_urls_absolute current html manga :
  startsWith current (js "http") = true ->
  parseMangaCard current html = Some manga ->
  (forall u, card_url manga = Some u -> startsWith u (js "http") = true)
  /\ (forall u, card_coverUrl manga = Some u -> u = [] \/ startsWith u (js "http") = true).
Proof.
  intros Hc H. unfold parseMangaCard in H. cbv zeta in H.
  match type of H with
  | (let '(id, url) := ?X in _) = _ => destruct X as [id url]
  end.
  apply (inj Some) in H. subst manga. cbn [card_url card_coverUrl]. split.
  - intros u Hu. destruct url as [g|]; [|discriminate].
    destruct (str_truthy g); [|discriminate]. injection Hu as <-.
    destruct (startsWith g (js "http")) eqn:Hg; [exact Hg|].
    apply startsWith_prepend. exact Hc.
  - intros u Hu.
    destruct (first_match [re_src_cover; re_img_data_src; re_img_src] html) as [cm|];
      [|discriminate].
    destruct (str_truthy (group1 cm)) eqn:Ht; cbn [andb] in Hu.
    + destruct (startsWith (group1 cm) (js "http")) eqn:Hg; cbn [negb] in Hu.
      * injection Hu as <-. right. exact Hg.
      * injection Hu as <-. right.
        destruct (startsWith (group1 cm) (js "/")); apply startsWith_prepend; exact Hc.
    + injection Hu as <-. left. destruct (group1 cm); [reflexivity|discriminate].
Qed.

Lemma parseMangaCard_some current html :
  exists manga, parseMangaCard current html = Some manga.
Proof.
  unfold parseMangaCard. cbv zeta.
  match goal with
  | |- context [let '(id, url) := ?X in _] => destruct X as [id url]
  end.
  eexists. reflexivity.
Qed.

(** X20: When [CURRENT_BATO_URL] is an absolute URL, every URL that
    [parseMangaCard] puts into a card is absolute (a cover URL may also be
    the empty string); and the listing extraction returns at most 20
    records, each with a non-empty id and a cover URL of that kind. *)
Theorem listing_urls_are_absolute (current html : jsstring) :
  startsWith current (js "http") = true ->
  (exists manga,
     parseMangaCard current html = Some manga
     /\ (forall u, card_url manga = Some u -> startsWith u (js "http") = true)
     /\ (forall u, card_coverUrl manga = Some u ->
           u = [] \/ startsWith u (js "http") = true))
  /\ exists records,
       listing_records current html = Returns records
       /\ (length records <= 20)%nat
       /\ Forall (fun rec =>
                    r_id rec <> []
                    /\ forall u, r_coverUrl rec = Some u ->
                                 u = [] \/ startsWith u (js "http") = true) records.
Proof.
  intros Hc. split.
  - destruct (parseMangaCard_some current html) as [manga Hp].
    exists manga. split; [exact Hp|]. apply (card_urls_absolute current html manga Hc Hp).
  - destruct (listing_records_spec current html) as (cards & _ & Hl).
    eexists. split; [exact Hl|]. split; [rewrite length_firstn; lia|].
    apply Forall_forall. intros rec Hin.
    apply elem_of_take in Hin as (i & Hi & _).
    assert (Hrec : rec ∈ omap (card_result current) cards)
      by (apply list_elem_of_lookup; eauto).
    apply list_elem_of_omap in Hrec as (cm & _ & Hcm).
    unfold card_result in Hcm.
    destruct (parseMangaCard current (m_text cm)) as [manga|] eqn:Hp; [|discriminate].
    destruct (card_id manga) as [id|]; [|discriminate].
    destruct (str_truthy id) eqn:Hid; [|discriminate].
    injection Hcm as <-. cbn [r_id r_coverUrl]. split.
    + intros ->. discriminate Hid.
    + apply (card_urls_absolute current (m_text cm) manga Hc Hp).
Qed.

Lemma listing_urls_are_absolute_witness :
  startsWith bato (js "http") = true
  /\ exists records,
       listing_records bato three_and_one = Returns records
       /\ (length records <= 20)%nat.
Proof.
  assert (H : startsWith bato (js "http") = true) by reflexivity.
  split; [exact H|].
  destruct (listing_urls_are_absolute bato three_and_one H) as [_ (records & Hl & Hn & _)].
  exists records. split; [exact Hl|exact Hn].
Defined.

End BypassFacts.

(** ** Chapter pages *)

Section PageFacts.
Import Regex NetworkUtils Bato.

Lemma absolute_http current u :
  startsWith current (js "http") = true -> startsWith (absolute current u) (js "http") = true.
Proof.
  intros Hc. unfold absolute. destruct (startsWith u (js "http")) eqn:Hu; [exact Hu|].
  apply startsWith_prepend. exact Hc.
Qed.

Lemma image_pages_numbered current items :
  forall index pages,
    image_pages current items index = Returns pages ->
    List.map p_page pages = seq (index + 1) (length pages)
    /\ length pages = length items
    /\ (startsWith current (js "http") = true ->
        Forall (fun p => startsWith (p_url p) (js "http") = true) pages).
Proof.
  induction items as [|item items IH]; intros index pages H; cbn [image_pages] in H.
  - injection H as <-. repeat split. constructor.
  - destruct (image_page current item index) as [p|err|] eqn:Hp; try discriminate.
    destruct (image_pages current items (S index)) as [ps|err|] eqn:Hps; try discriminate.
    injection H as <-. destruct (IH (S index) ps Hps) as (Hn & Hl & Ha).
    assert (Hpage : p_page p = (index + 1)%nat
                    /\ (startsWith current (js "http") = true ->
                        startsWith (p_url p) (js "http") = true)).
    { unfold image_page in Hp.
      match type of Hp with
      | match ?U with _ => _ end = _ => destruct U as [[| | | |u| | |]|err|]; try discriminate
      end.
      injection Hp as <-. cbn [p_page p_url]. split; [reflexivity|].
      intros Hc. apply absolute_http. exact Hc. }
    destruct Hpage as [Hpg Hpu]. cbn [List.map length seq]. split; [|split].
    + rewrite Hpg, Hn. replace (S index + 1)%nat with (S (index + 1)) by lia. reflexivity.
    + rewrite Hl. reflexivity.
    + intros Hc. constructor; [apply Hpu; exact Hc|apply Ha; exact Hc].
Qed.

Lemma match_pages_numbered current matches :
  List.map p_page (match_pages current matches) = seq 1 (length (match_pages current matches))
  /\ length (match_pages current matches) = length matches
  /\ (startsWith current (js "http") = true ->
      Forall (fun p => startsWith (p_url p) (js "http") = true) (match_pages current matches)).
Proof.
  unfold match_pages. rewrite length_imap. split; [|split; [reflexivity|]].
  - change (List.map p_page) with (fmap (M := list) p_page). rewrite fmap_imap.
    rewrite (imap_ext _ (fun j _ => (j + 1)%nat)) by reflexivity.
    rewrite imap_seq_0. rewrite <- fmap_S_seq. apply list_fmap_ext.
    intros i x _. lia.
  - intros Hc. apply Forall_forall. intros p Hp.
    apply elem_of_lookup_imap in Hp as (i & mr & -> & _). cbn [p_url].
    apply absolute_http. exact Hc.
Qed.


Lemma method1_numbered parse current html patterns pages :
  method1 parse current html patterns = Some pages -> numbered_pages current pages.
Proof.
  induction patterns as [|pattern rest IH]; cbn [method1]; [discriminate|].
  destruct (js_data_pages parse current html pattern) as [ps|] eqn:Hjs; [|exact IH].
  intros [= <-]. unfold js_data_pages in Hjs.
  destruct (str_match true pattern html) as [dataMatch|]; [|discriminate].
  match type of Hjs with
  | match ?P with _ => _ end = _ => destruct P as [[| | | | |[|item items]| |]|]; try discriminate
  end.
  destruct (image_pages current (item :: items) 0) as [pages0|err|] eqn:Hp; try discriminate.
  injection Hjs as <-.
  destruct (image_pages_numbered current _ 0%nat pages0 Hp) as (Hn & _ & Ha).
  split; assumption.
Qed.

Lemma method2_numbered current html patterns pages :
  method2 current html patterns = Returns (Some pages) -> numbered_pages current pages.
Proof.
  induction patterns as [|pattern rest IH]; cbn [method2]; [discriminate|].
  destruct (extractAll html pattern) as [[|mr matches]|err|]; try discriminate; [exact IH|].
  intros [= <-].
  destruct (match_pages_numbered current (mr :: matches)) as (Hn & _ & Ha).
  split; assumption.
Qed.

Lemma page_records_numbered parse current html :
  exists pages,
    page_records parse current html = Returns pages /\ numbered_pages current pages.
Proof.
  destruct (page_records_returns parse current html) as [pages Hp].
  exists pages. split; [exact Hp|]. unfold page_records in Hp.
  destruct (method1 parse current html jsPatterns) as [ps|] eqn:H1.
  - injection Hp as <-. apply (method1_numbered _ _ _ _ _ H1).
  - destruct (method2 current html imgPatterns) as [[ps|]|err|] eqn:H2; try discriminate.
    + injection Hp as <-. apply (method2_numbered _ _ _ _ H2).
    + unfold method3 in Hp.
      destruct (extractAll html re_img_src) as [ms|err|]; try discriminate.
      injection Hp as <-.
      destruct (match_pages_numbered current (List.filter looks_like_page ms)) as (Hn & _ & Ha).
      split; assumption.
Qed.

Lemma mirror_domains_are_absolute d :
  d ∈ BATO_DOMAINS -> startsWith d (js "http") = true.
Proof.
  unfold BATO_DOMAINS. intros H.
  repeat (apply elem_of_cons in H as [->|H]; [reflexivity|]).
  inversion H.
Qed.

(** X21: The pages that the chapter extraction returns are numbered 1, 2, 3,
    ... in the order of the list, whichever of the three methods found
    them, and when [CURRENT_BATO_URL] is an absolute URL so is the URL of
    every page. [getBatoChapterPages] returns such a list in every
    environment. *)
Theorem chapter_pages_are_numbered_from_one (chapterId : jsstring) (e : env) (w : world) :
  (forall parse current html,
     exists pages,
       page_records parse current html = Returns pages
       /\ List.map p_page pages = seq 1 (length pages)
       /\ (startsWith current (js "http") = true ->
           Forall (fun p => startsWith (p_url p) (js "http") = true) pages))
  /\ exists pages w',
       getBatoChapterPages chapterId e w = (Returns pages, w')
       /\ List.map p_page pages = seq 1 (length pages)
       /\ (startsWith (CURRENT_BATO_URL w) (js "http") = true ->
           Forall (fun p => startsWith (p_url p) (js "http") = true) pages).
Proof.
  split.
  - intros parse current html.
    destruct (page_records_numbered parse current html) as (pages & Hp & Hn & Ha).
    exists pages. repeat split; assumption.
  - unfold getBatoChapterPages, try_catch, bind.
    destruct (fetch_paths_mirrors e [js "/chapter/" ++ chapterId; js "/read/" ++ chapterId] [] w)
      as (h & w1 & Hf & Hcur & _).
    rewrite Hf. unfold ask_env, read_current, lift.
    destruct (page_records_numbered (JSON_parse e) (CURRENT_BATO_URL w1) h)
      as (pages & Hp & Hn & Ha).
    rewrite Hp. exists pages, w1. split; [reflexivity|]. split; [exact Hn|].
    intros Hw. apply Ha. destruct Hcur as [Hsame|Hin].
    + rewrite Hsame. exact Hw.
    + apply mirror_domains_are_absolute. exact Hin.
Qed.

End PageFacts.

(** ** The positions of the matches *)

Section MatchPositions.
Import Regex Bato.

(** A successful match hands its continuation a suffix of the input. *)
Lemma m_suffix icase r :
  forall s c k res,
    m icase r s c k = Some res ->
    exists pre s' c', k s' c' = Some res /\ s = pre ++ s'.
Proof.
  induction r as [ |a|neg items|r1 IH1 r2 IH2|r1 IH1 r2 IH2|greedy r1 IH1|i r1 IH1|r1 IH1| ];
    intros s c k res H; cbn [m] in *.
  - exists [], s, c. split; [exact H|reflexivity].
  - destruct s as [|x s']; [discriminate|].
    destruct (code_match icase a x); [|discriminate].
    exists [x], s', c. split; [exact H|reflexivity].
  - destruct s as [|x s']; [discriminate|].
    destruct (xorb neg (existsb (item_match icase x) items)); [|discriminate].
    exists [x], s', c. split; [exact H|reflexivity].
  - apply IH1 in H as (p1 & s1 & c1 & H1 & ->).
    apply IH2 in H1 as (p2 & s2 & c2 & H2 & ->).
    exists (p1 ++ p2), s2, c2. split; [exact H2|]. rewrite app_assoc. reflexivity.
  - unfold or_else in H. destruct (m icase r1 s c k) eqn:Hfirst.
    + injection H as <-. apply IH1 in Hfirst. exact Hfirst.
    + apply IH2 in H. exact H.
  - revert res H. generalize (length s) at 1. intros n. revert s c.
    induction n as [|n IHn]; intros s c res H; cbn [star_loop] in H;
      unfold or_else in H.
    + destruct greedy.
      * exists [], s, c. split; [exact H|reflexivity].
      * destruct (k s c) eqn:Hk; [|discriminate]. injection H as <-.
        exists [], s, c. split; [exact Hk|reflexivity].
    + assert (Hmore :
        forall res',
          m icase r1 s c
            (fun s1 c1 =>
               if (length s1 <? length s)%nat
               then star_loop (m icase r1) greedy k n s1 c1
               else None) = Some res' ->
          exists pre s' c', k s' c' = Some res' /\ s = pre ++ s').
      { intros res' Hm. apply IH1 in Hm as (p1 & s1 & c1 & Hm & ->).
        destruct (length s1 <? length (p1 ++ s1))%nat; [|discriminate].
        apply IHn in Hm as (p2 & s' & c' & Hk & ->).
        exists (p1 ++ p2), s', c'. split; [exact Hk|]. rewrite app_assoc. reflexivity. }
      destruct greedy.
      * match type of H with
        | match ?X with _ => _ end = _ => destruct X as [res'|] eqn:Hfirst
        end.
        -- injection H as <-. apply (Hmore _ eq_refl).
        -- exists [], s, c. split; [exact H|reflexivity].
      * destruct (k s c) eqn:Hk.
        -- injection H as <-. exists [], s, c. split; [exact Hk|reflexivity].
        -- apply (Hmore _ H).
  - apply IH1 in H as (p1 & s1 & c1 & H1 & ->).
    exists p1, s1, ((i, firstn (length (p1 ++ s1) - length s1) (p1 ++ s1)) :: c1).
    split; [exact H1|reflexivity].
  - destruct (m icase r1 s c (fun s1 c1 => Some (s1, c1))) as [[s1 c1]|]; [|discriminate].
    exists [], s, c1. split; [exact H|reflexivity].
  - destruct s; [|discriminate]. exists [], [], c. split; [exact H|reflexivity].
Qed.

Lemma exec_at_splits icase r skipped s mr :
  exec_at icase r skipped s = Some mr ->
  m_before mr = rev skipped /\ s = m_text mr ++ m_rest mr.
Proof.
  unfold exec_at. intros H.
  destruct (m icase r s [] (fun s1 c1 => Some (s1, c1))) as [[s1 c1]|] eqn:Hm; [|discriminate].
  injection H as <-. cbn [m_before m_text m_rest]. split; [reflexivity|].
  apply m_suffix in Hm as (pre & s' & c' & Hk & ->). injection Hk as <- <-.
  rewrite length_app, Nat.add_sub, firstn_app, Nat.sub_diag, firstn_all. cbn [firstn].
  rewrite app_nil_r. reflexivity.
Qed.

Lemma search_from_splits icase r s :
  forall skipped mr,
    search_from icase r skipped s = Some mr ->
    rev skipped ++ s = m_before mr ++ m_text mr ++ m_rest mr.
Proof.
  induction s as [|x s IH]; intros skipped mr H; cbn [search_from] in H.
  - destruct (exec_at icase r skipped []) eqn:He; [|discriminate].
    injection H as <-. apply exec_at_splits in He as [-> <-]. reflexivity.
  - destruct (exec_at icase r skipped (x :: s)) eqn:He.
    + injection H as <-. apply exec_at_splits in He as [-> <-]. reflexivity.
    + apply IH in H. rewrite <- H. cbn [rev]. rewrite <- app_assoc. reflexivity.
Qed.

Lemma search_splits icase r s mr :
  search icase r s = Some mr -> s = m_before mr ++ m_text mr ++ m_rest mr.
Proof. intros H. apply search_from_splits in H. exact H. Qed.


Lemma exec_at_text_nonempty r skipped s mr :
  consumes r = true -> exec_at true r skipped s = Some mr -> m_text mr <> [].
Proof.
  intros Hc He. pose proof (exec_at_splits _ _ _ _ _ He) as [_ Hsplit].
  apply exec_at_progress in He as [_ Hlt]. specialize (Hlt Hc).
  intros Hnil. rewrite Hnil in Hsplit. cbn [app] in Hsplit. subst s. lia.
Qed.

Lemma search_from_text_nonempty r s :
  consumes r = true ->
  forall skipped mr, search_from true r skipped s = Some mr -> m_text mr <> [].
Proof.
  intros Hc. induction s as [|x s IH]; intros skipped mr H; cbn [search_from] in H.
  - destruct (exec_at true r skipped []) eqn:He; [|discriminate].
    injection H as <-. apply (exec_at_text_nonempty r skipped [] _ Hc He).
  - destruct (exec_at true r skipped (x :: s)) eqn:He.
    + injection H as <-. apply (exec_at_text_nonempty r skipped _ _ Hc He).
    + apply (IH _ _ H).
Qed.

Lemma search_text_nonempty r s mr :
  consumes r = true -> search true r s = Some mr -> m_text mr <> [].
Proof. intros Hc H. apply (search_from_text_nonempty r s Hc [] mr H). Qed.

Lemma extractAll_loop_splits pattern :
  consumes pattern = true ->
  forall fuel s matches,
    extractAll_loop fuel pattern s = Returns matches ->
    exists tail,
      s = flat_map (fun mr => m_before mr ++ m_text mr) matches ++ tail
      /\ search true pattern tail = None
      /\ Forall (fun mr => m_text mr <> []) matches
      /\ (length matches <= length s)%nat.
Proof.
  intros Hc. induction fuel as [|fuel IH]; intros s matches H; [discriminate|].
  cbn [extractAll_loop] in H. destruct (search true pattern s) as [mr|] eqn:Hs.
  - destruct (extractAll_loop fuel pattern (m_rest mr)) as [ms|err|] eqn:Hrest; try discriminate.
    injection H as <-. destruct (IH _ _ Hrest) as (tail & Hsplit & Hnone & Hne & Hlen).
    exists tail. cbn [flat_map]. split; [|split; [exact Hnone|split]].
    + rewrite (search_splits _ _ _ _ Hs) at 1. rewrite Hsplit at 1.
      rewrite <- !app_assoc. reflexivity.
    + constructor; [apply (search_text_nonempty pattern s mr Hc Hs)|exact Hne].
    + apply search_progress in Hs as [_ Hlt]. specialize (Hlt Hc). cbn [length]. lia.
  - injection H as <-. exists s. cbn [flat_map app length].
    split; [reflexivity|]. split; [exact Hs|]. split; [constructor|lia].
Qed.

(** X22: For a pattern that cannot match the empty string, [extractAll]
    returns the matches in the order of their positions and without
    overlap: the markup is the skipped text and the matched text of the
    first match, then those of the second, and so on, followed by a rest
    in which the pattern matches nowhere; no match is empty, so there are
    at most as many matches as code units. *)
Theorem extractAll_cuts_the_markup_in_order (html : jsstring) (pattern : regex) :
  consumes pattern = true ->
  exists matches tail,
    extractAll html pattern = Returns matches
    /\ html = flat_map (fun mr => m_before mr ++ m_text mr) matches ++ tail
    /\ search true pattern tail = None
    /\ Forall (fun mr => m_text mr <> []) matches
    /\ (length matches <= length html)%nat.
Proof.
  intros Hc. destruct (extractAll_returns html pattern Hc) as [matches Hm].
  destruct (extractAll_loop_splits pattern Hc _ _ _ Hm) as (tail & H).
  exists matches, tail. split; [exact Hm|exact H].
Qed.

Lemma extractAll_cuts_the_markup_in_order_witness :
  consumes re_article = true
  /\ exists matches tail,
       extractAll two_articles re_article = Returns matches
       /\ two_articles = flat_map (fun mr => m_before mr ++ m_text mr) matches ++ tail
       /\ search true re_article tail = None.
Proof.
  assert (Hc : consumes re_article = true) by reflexivity.
  split; [exact Hc|].
  destruct (extractAll_cuts_the_markup_in_order two_articles re_article Hc)
    as (matches & tail & H1 & H2 & H3 & _).
  exists matches, tail. split; [exact H1|]. split; [exact H2|exact H3].
Defined.

End MatchPositions.

(** ** The Xbato API *)

Section XbatoApiFacts.
Import NetworkUtils Xbato.

Lemma parseJSON_pure r e w :
  exists o, parseJSON r e w = (o, w) /\ o <> Diverges.
Proof.
  unfold parseJSON. destruct (negb (ok r)); [eexists; split; [reflexivity|discriminate]|].
  unfold bind, response_text. destruct (text r) as [t|];
    [|eexists; split; [reflexivity|discriminate]].
  unfold ret. destruct (negb (str_truthy t) || (length (trim t) =? 0)%nat);
    [eexists; split; [reflexivity|discriminate]|].
  unfold ask_env. destruct (JSON_parse e t); eexists; (split; [reflexivity|discriminate]).
Qed.

(** A call of the Xbato API: at most two requests, all to [url]. *)
Lemma fetchXbatoApi_shape url e w :
  exists o w' k,
    fetchXbatoApi url e w = (o, w')
    /\ o <> Diverges
    /\ (1 <= k <= 2)%nat
    /\ fetched (trace w') = fetched (trace w) ++ repeat url k
    /\ CURRENT_BATO_URL w' = CURRENT_BATO_URL w.
Proof.
  unfold fetchXbatoApi, bind, GET, fetchWithRetry.
  destruct (retry_loop_shape {| maxRetries := 2; checkCloudflare := false |} url e 2 0 None w
              eq_refl) as (o & w' & k & ss & Hrun & Hk & Hk0 & Hf & Hc & _ & _ & Ho).
  cbn [maxRetries]. rewrite Hrun.
  destruct o as [r|err|]; [|exists (Throws err), w', k|contradiction].
  - destruct (parseJSON_pure r e w') as (o & Hp & Hend). rewrite Hp.
    exists o, w', k. split; [reflexivity|]. split; [exact Hend|].
    split; [lia|]. split; assumption.
  - split; [reflexivity|]. split; [discriminate|]. split; [lia|]. split; assumption.
Qed.

Lemma map_items_length items records :
  map_items items = Returns records ->
  length records = length items
  /\ Forall2 (fun item record => map_item item = Returns record) items records.
Proof.
  revert records. induction items as [|item rest IH]; intros records H; cbn [map_items] in H.
  - injection H as <-. split; [reflexivity|constructor].
  - unfold obind in H. destruct (map_item item) as [r|err|] eqn:Hi; try discriminate.
    destruct (map_items rest) as [rs|err|] eqn:Hr; try discriminate.
    injection H as <-. destruct (IH rs eq_refl) as [Hl Hall].
    cbn [length]. split; [rewrite Hl; reflexivity|constructor; assumption].
Qed.

(** Reading a property of anything but null and undefined does not throw. *)
Lemma get_prop_returns item name :
  item <> VNull -> item <> VUndefined -> exists v, get_prop item name = Returns v.
Proof.
  intros Hn Hu. destruct item; try congruence; cbn [get_prop]; eexists; reflexivity.
Qed.

Lemma props_or_returns item names fallback :
  item <> VNull -> item <> VUndefined -> exists v, props_or item names fallback = Returns v.
Proof.
  intros Hn Hu. induction names as [|n rest IH]; cbn [props_or]; [eexists; reflexivity|].
  destruct (get_prop_returns item (js n) Hn Hu) as [v Hv]. rewrite Hv.
  destruct (truthy v); [eexists; reflexivity|exact IH].
Qed.

Lemma props_or2_returns item a b :
  item <> VNull -> item <> VUndefined -> exists v, props_or2 item a b = Returns v.
Proof.
  intros Hn Hu. unfold props_or2.
  destruct (get_prop_returns item (js a) Hn Hu) as [v Hv]. rewrite Hv.
  destruct (truthy v); [eexists; reflexivity|apply get_prop_returns; assumption].
Qed.

Lemma map_item_returns item :
  item <> VNull -> item <> VUndefined ->
  exists record, map_item item = Returns record
                 /\ props_or2 item "url" "link" = Returns (x_id record)
                 /\ x_originalUrl record = x_id record.
Proof.
  intros Hn Hu. unfold map_item.
  destruct (props_or2_returns item "url" "link" Hn Hu) as [i Hi]. rewrite Hi.
  destruct (props_or2_returns item "title" "name" Hn Hu) as [t Ht]. rewrite Ht.
  destruct (props_or_returns item ["description"; "synopsis"] (VStr []) Hn Hu) as [d Hd].
  rewrite Hd.
  destruct (props_or_returns item ["image"; "thumbnail"; "cover"] VNull Hn Hu) as [c Hc].
  rewrite Hc.
  destruct (props_or_returns item ["author"] VNull Hn Hu) as [a Ha]. rewrite Ha.
  destruct (props_or_returns item ["status"] (VStr (js "unknown")) Hn Hu) as [s Hs].
  rewrite Hs.
  destruct (props_or_returns item ["type"] (VStr (js "manga")) Hn Hu) as [ty Hty].
  rewrite Hty. cbn [obind]. eexists. split; [reflexivity|]. split; reflexivity.
Qed.

Lemma map_items_returns items :
  Forall (fun item => item <> VNull /\ item <> VUndefined) items ->
  exists records, map_items items = Returns records.
Proof.
  induction items as [|item rest IH]; intros Hall; [eexists; reflexivity|].
  apply Forall_cons in Hall as [[Hn Hu] Hrest]. cbn [map_items].
  destruct (map_item_returns item Hn Hu) as (r & Hr & _). rewrite Hr.
  destruct (IH Hrest) as [rs Hrs]. rewrite Hrs. eexists; reflexivity.
Qed.

Lemma get_prop_ends item name : get_prop item name <> Diverges.
Proof. destruct item; discriminate. Qed.

Lemma props_or_ends item names fallback : props_or item names fallback <> Diverges.
Proof.
  induction names as [|n rest IH]; cbn [props_or]; [discriminate|].
  pose proof (get_prop_ends item (js n)) as Hg.
  destruct (get_prop item (js n)) as [v|err|]; [|discriminate|congruence].
  destruct (truthy v); [discriminate|exact IH].
Qed.

Lemma props_or2_ends item a b : props_or2 item a b <> Diverges.
Proof.
  unfold props_or2. pose proof (get_prop_ends item (js a)) as Hg.
  destruct (get_prop item (js a)) as [v|err|]; [|discriminate|congruence].
  destruct (truthy v); [discriminate|apply get_prop_ends].
Qed.

Lemma map_item_ends item : map_item item <> Diverges.
Proof.
  unfold map_item.
  pose proof (props_or2_ends item "url" "link") as H1.
  destruct (props_or2 item "url" "link") as [i|err|]; [|discriminate|congruence].
  cbn [obind].
  pose proof (props_or2_ends item "title" "name") as H2.
  destruct (props_or2 item "title" "name") as [t|err|]; [|discriminate|congruence].
  cbn [obind].
  pose proof (props_or_ends item ["description"; "synopsis"] (VStr [])) as H3.
  destruct (props_or item ["description"; "synopsis"] (VStr [])) as [d|err|];
    [|discriminate|congruence].
  cbn [obind].
  pose proof (props_or_ends item ["image"; "thumbnail"; "cover"] VNull) as H4.
  destruct (props_or item ["image"; "thumbnail"; "cover"] VNull) as [c|err|];
    [|discriminate|congruence].
  cbn [obind].
  pose proof (props_or_ends item ["author"] VNull) as H5.
  destruct (props_or item ["author"] VNull) as [a|err|]; [|discriminate|congruence].
  cbn [obind].
  pose proof (props_or_ends item ["status"] (VStr (js "unknown"))) as H6.
  destruct (props_or item ["status"] (VStr (js "unknown"))) as [s|err|];
    [|discriminate|congruence].
  cbn [obind].
  pose proof (props_or_ends item ["type"] (VStr (js "manga"))) as H7.
  destruct (props_or item ["type"] (VStr (js "manga"))) as [ty|err|];
    [|discriminate|congruence].
  cbn [obind]. discriminate.
Qed.

Lemma map_items_ends items : map_items items <> Diverges.
Proof.
  induction items as [|item rest IH]; cbn [map_items]; [discriminate|].
  pose proof (map_item_ends item) as Hi.
  destruct (map_item item) as [r|err|]; [|discriminate|congruence].
  cbn [obind]. destruct (map_items rest) as [rs|err|]; [discriminate|discriminate|congruence].
Qed.

Lemma map_items_null items :
  VNull ∈ items -> exists err, map_items items = Throws err.
Proof.
  induction items as [|item rest IH]; intros Hin; [inversion Hin|].
  apply elem_of_cons in Hin as [<-|Hin].
  - cbn. eexists; reflexivity.
  - cbn [map_items]. pose proof (map_item_ends item) as Hi.
    destruct (map_item item) as [r|err|]; [|eexists; reflexivity|congruence].
    cbn [obind]. destruct (IH Hin) as [err Herr]. rewrite Herr. eexists; reflexivity.
Qed.

(** X23: [searchXbatoManga] answers a list in every environment, after at most
    two requests, all of them for the search URL of the encoded query on
    the API host; it never touches [CURRENT_BATO_URL]. When the query
    cannot be encoded nothing is requested. *)
Theorem searchXbatoManga_ends_within_two_requests (query : jsstring) (e : env) (w : world) :
  exists records w' urls,
    searchXbatoManga query e w = (Returns records, w')
    /\ fetched (trace w') = fetched (trace w) ++ urls
    /\ (length urls <= 2)%nat
    /\ (forall u, u ∈ urls ->
          exists q, encodeURIComponent e query = Some q
                    /\ u = XBATO_API_BASE ++ js "/search?query=" ++ q)
    /\ CURRENT_BATO_URL w' = CURRENT_BATO_URL w.
Proof.
  unfold searchXbatoManga, try_catch.
  destruct (length (trim query) <? 3)%nat.
  { exists [], w, []. rewrite app_nil_r. unfold ret. repeat split; auto.
    intros u Hu. inversion Hu. }
  unfold bind at 1, encode, bind, ask_env.
  destruct (encodeURIComponent e query) as [q|] eqn:Hq.
  2:{ exists [], w, []. rewrite app_nil_r. unfold throw, ret. repeat split; auto.
      intros u Hu. inversion Hu. }
  unfold ret at 1. unfold bind.
  destruct (fetchXbatoApi_shape (XBATO_API_BASE ++ js "/search?query=" ++ q) e w)
    as (o & w' & k & Hrun & Hend & Hk & Hf & Hc).
  rewrite Hrun.
  assert (Hshape :
      fetched (trace w') = fetched (trace w)
                           ++ repeat (XBATO_API_BASE ++ js "/search?query=" ++ q) k
      /\ (length (repeat (XBATO_API_BASE ++ js "/search?query=" ++ q) k) <= 2)%nat
      /\ (forall u, u ∈ repeat (XBATO_API_BASE ++ js "/search?query=" ++ q) k ->
            exists q0, Some q = Some q0 /\ u = XBATO_API_BASE ++ js "/search?query=" ++ q0)
      /\ CURRENT_BATO_URL w' = CURRENT_BATO_URL w).
  { split; [exact Hf|]. split; [rewrite repeat_length; lia|]. split; [|exact Hc].
    intros u Hu. apply list_elem_of_In, repeat_spec in Hu. exists q. split; [reflexivity|exact Hu]. }
  destruct o as [data|err|]; [| |congruence].
  - destruct data as [| | | | |items| |];
      try (exists [], w', (repeat (XBATO_API_BASE ++ js "/search?query=" ++ q) k);
           split; [reflexivity|exact Hshape]).
    unfold lift. pose proof (map_items_ends items) as Hi.
    destruct (map_items items) as [records|err|]; [| |congruence].
    + exists records, w', (repeat (XBATO_API_BASE ++ js "/search?query=" ++ q) k).
      split; [reflexivity|exact Hshape].
    + exists [], w', (repeat (XBATO_API_BASE ++ js "/search?query=" ++ q) k).
      split; [reflexivity|exact Hshape].
  - exists [], w', (repeat (XBATO_API_BASE ++ js "/search?query=" ++ q) k).
    split; [reflexivity|exact Hshape].
Qed.


Lemma map_items_in_order items :
  Forall (fun item => item <> VNull /\ item <> VUndefined) items ->
  forall records,
    map_items items = Returns records ->
    Forall2 (fun item record =>
               map_item item = Returns record
               /\ props_or2 item "url" "link" = Returns (x_id record))
            items records.
Proof.
  induction items as [|item rest IH]; intros Hall records Hrec; cbn [map_items] in Hrec.
  - injection Hrec as <-. constructor.
  - apply Forall_cons in Hall as [[Hn Hu] Hrest].
    destruct (map_item_returns item Hn Hu) as (rec & Hitem & Hid & _).
    rewrite Hitem in Hrec. cbn [obind] in Hrec.
    destruct (map_items rest) as [rs|err|] eqn:Hrs; try discriminate.
    injection Hrec as <-. constructor; [split; assumption|].
    apply IH; auto.
Qed.

(** X24: When the API answers the search with a JSON array, the result has one
    record for each item, in the order of the array, and the record's id
    is the item's [url], or else its [link]; but a single null item makes
    the mapping throw, and the whole result is then the empty list. *)
Theorem searchXbatoManga_maps_every_item (query q : jsstring) (e : env) (w : world)
  (r : response) (t : jsstring) (items : list jsvalue) :
  (3 <= length (trim query))%nat ->
  encodeURIComponent e query = Some q ->
  remote e (fetch_count (trace w)) (XBATO_API_BASE ++ js "/search?query=" ++ q) = Resolves r ->
  ok r = true -> text r = Some t -> trim t <> [] ->
  JSON_parse e t = Some (VArr items) ->
  let w' := log (EvFetch (XBATO_API_BASE ++ js "/search?query=" ++ q)) w in
  (Forall (fun item => item <> VNull /\ item <> VUndefined) items ->
     exists records,
       searchXbatoManga query e w = (Returns records, w')
       /\ Forall2 (fun item record =>
                     map_item item = Returns record
                     /\ props_or2 item "url" "link" = Returns (x_id record))
                  items records)
  /\ (VNull ∈ items -> searchXbatoManga query e w = (Returns [], w')).
Proof.
  intros Hlong Hq Hr Hok Ht Htrim Hjson w'.
  assert (Hapi : fetchXbatoApi (XBATO_API_BASE ++ js "/search?query=" ++ q) e w
                 = (Returns (VArr items), w')).
  { unfold fetchXbatoApi, bind, GET.
    rewrite (fetchWithRetry_plain _ _ e w r); [|cbn; lia|exact Hr|left; reflexivity].
    fold w'. unfold parseJSON. rewrite Hok. cbn [negb].
    unfold bind, response_text. rewrite Ht. unfold ret.
    assert (Htext : negb (str_truthy t) || (length (trim t) =? 0)%nat = false).
    { apply orb_false_iff. split.
      - destruct t as [|x t]; [exfalso; apply Htrim; reflexivity|reflexivity].
      - apply Nat.eqb_neq. destruct (trim t); [congruence|discriminate]. }
    rewrite Htext. unfold ask_env. rewrite Hjson. reflexivity. }
  assert (Hrun : searchXbatoManga query e w
                 = match map_items items with
                   | Returns records => (Returns records, w')
                   | Throws _ => (Returns [], w')
                   | Diverges => (Diverges, w')
                   end).
  { unfold searchXbatoManga, try_catch.
    replace (length (trim query) <? 3)%nat with false
      by (symmetry; apply Nat.ltb_ge; exact Hlong).
    unfold bind at 1, encode, bind, ask_env. rewrite Hq. unfold ret at 1.
    unfold bind. rewrite Hapi. unfold lift.
    destruct (map_items items); reflexivity. }
  split.
  - intros Hall. destruct (map_items_returns items Hall) as [records Hrec].
    exists records. rewrite Hrun, Hrec. split; [reflexivity|].
    apply map_items_in_order; assumption.
  - intros Hnull. destruct (map_items_null items Hnull) as [err Herr].
    rewrite Hrun, Herr. reflexivity.
Qed.

Lemma searchXbatoManga_maps_every_item_witness :
  exists records,
    searchXbatoManga (js "one") api_env Bato.initial_world
    = (Returns records,
       log (EvFetch (XBATO_API_BASE ++ js "/search?query=one")) Bato.initial_world)
    /\ length records = 2%nat.
Proof.
  destruct (searchXbatoManga_maps_every_item (js "one") (js "one") api_env Bato.initial_world
              api_response api_text api_items) as [Hall _].
  - vm_compute. lia.
  - reflexivity.
  - reflexivity.
  - reflexivity.
  - reflexivity.
  - vm_compute. discriminate.
  - reflexivity.
  - destruct Hall as (records & Hrun & Hmap).
    + repeat (apply Forall_cons; split; [split; discriminate|]). apply Forall_nil. exact I.
    + exists records. split; [exact Hrun|].
      apply Forall2_length in Hmap. symmetry. exact Hmap.
Defined.

End XbatoApiFacts.

Section XbatoPageFacts.
Import NetworkUtils Xbato.

Variable encodeBase64 : jsstring -> jsstring + error.

Lemma numbered_spec images :
  List.map xp_page (numbered images) = seq 1 (length images)
  /\ List.map xp_url (numbered images) = images
  /\ length (numbered images) = length images.
Proof.
  unfold numbered. split; [|split].
  - change (List.map xp_page) with (fmap (M := list) xp_page). rewrite fmap_imap.
    rewrite (imap_ext _ (fun j _ => (j + 1)%nat)) by reflexivity.
    rewrite imap_seq_0, <- fmap_S_seq. apply list_fmap_ext. intros i x _. lia.
  - change (List.map xp_url) with (fmap (M := list) xp_url). rewrite fmap_imap.
    rewrite (imap_ext _ (const id)) by reflexivity.
    rewrite imap_const. apply list_fmap_id.
  - apply length_imap.
Qed.

(** X25: [getXbatoChapterPages] answers a list in every environment, after at
    most two requests, and its pages are numbered 1, 2, 3, .... When the
    API answers with an array, or with an object whose [images] property
    is an array, the pages carry the items of that array, in its order. *)
Theorem xbato_pages_follow_the_api_array (chapterUrl : jsstring) (e : env) (w : world) :
  (exists pages w' urls,
     getXbatoChapterPages encodeBase64 chapterUrl e w = (Returns pages, w')
     /\ List.map xp_page pages = seq 1 (length pages)
     /\ fetched (trace w') = fetched (trace w) ++ urls
     /\ (length urls <= 2)%nat
     /\ CURRENT_BATO_URL w' = CURRENT_BATO_URL w)
  /\ (forall encodedUrl data images w1,
        encodeBase64 chapterUrl = inl encodedUrl ->
        fetchXbatoApi (XBATO_API_BASE ++ js "/images/" ++ encodedUrl) e w = (Returns data, w1) ->
        data = VArr images
        \/ (exists fields, data = VObj fields /\ field_lookup (js "images") fields = VArr images) ->
        exists pages,
          getXbatoChapterPages encodeBase64 chapterUrl e w = (Returns pages, w1)
          /\ List.map xp_url pages = images
          /\ List.map xp_page pages = seq 1 (length images)).
Proof.
  split.
  - unfold getXbatoChapterPages, try_catch. unfold bind at 1.
    destruct (encodeBase64 chapterUrl) as [enc|err] eqn:Henc.
    + unfold ret at 1. unfold bind.
      destruct (fetchXbatoApi_shape (XBATO_API_BASE ++ js "/images/" ++ enc) e w)
        as (o & w' & k & Hrun & Hend & Hk & Hf & Hc).
      rewrite Hrun.
      assert (Hrest : forall pages,
                List.map xp_page pages = seq 1 (length pages) ->
                exists pages0 w0 urls,
                  (Returns pages, w') = (Returns pages0, w0)
                  /\ List.map xp_page pages0 = seq 1 (length pages0)
                  /\ fetched (trace w0) = fetched (trace w) ++ urls
                  /\ (length urls <= 2)%nat
                  /\ CURRENT_BATO_URL w0 = CURRENT_BATO_URL w).
      { intros pages Hp. exists pages, w', (repeat (XBATO_API_BASE ++ js "/images/" ++ enc) k).
        split; [reflexivity|]. split; [exact Hp|]. split; [exact Hf|].
        split; [rewrite repeat_length; lia|exact Hc]. }
      assert (Hnum : forall images,
                List.map xp_page (numbered images) = seq 1 (length (numbered images))).
      { intros images. destruct (numbered_spec images) as (H1 & _ & H3).
        rewrite H3. exact H1. }
      destruct o as [data|err|]; [| |congruence].
      * destruct (truthy data) eqn:Htruthy; cbn [negb]; [|apply Hrest; reflexivity].
        unfold ret, lift.
        destruct data as [| |b|z|s|images|fields|]; try discriminate Htruthy;
          cbn [get_prop];
          try (apply Hrest; reflexivity).
        -- apply Hrest, Hnum.
        -- destruct (field_lookup (js "images") fields); try (apply Hrest; reflexivity).
           apply Hrest, Hnum.
      * unfold ret. apply Hrest. reflexivity.
    + exists [], w, []. rewrite app_nil_r. unfold throw, ret. repeat split; auto.
  - intros enc data images w1 Henc Hapi Hdata.
    exists (numbered images). destruct (numbered_spec images) as (H1 & H2 & _).
    split; [|split; assumption].
    unfold getXbatoChapterPages, try_catch. unfold bind at 1. rewrite Henc.
    unfold ret at 1. unfold bind. rewrite Hapi.
    destruct Hdata as [->|(fields & -> & Hfield)].
    + reflexivity.
    + cbn [truthy negb]. unfold lift. cbn [get_prop]. rewrite Hfield. reflexivity.
Qed.

End XbatoPageFacts.

(** ** Challenge detection and the routing test *)

Section DetectionFacts.
Import NetworkUtils Bato SourceManager MangaService.

Lemma startsWith_weaken (s p q : jsstring) :
  startsWith s (p ++ q) = true -> startsWith s p = true.
Proof.
  revert s. induction p as [|c p IH]; intros s H; [destruct s; reflexivity|].
  destruct s as [|x s]; [discriminate H|].
  cbn [app startsWith] in *. apply andb_true_iff in H as [H1 H2].
  rewrite H1. cbn [andb]. apply IH. exact H2.
Qed.

Lemma includes_weaken (s p q : jsstring) :
  includes s (p ++ q) = true -> includes s p = true.
Proof.
  induction s as [|x s IH]; intros H.
  - cbn [includes] in *. rewrite orb_false_r in *. apply (startsWith_weaken _ _ q). exact H.
  - cbn [includes] in *. apply orb_true_iff in H as [H|H].
    + rewrite (startsWith_weaken _ _ q H). reflexivity.
    + rewrite (IH H). apply orb_true_r.
Qed.

Lemma includes_longer_is_redundant (s p q : jsstring) :
  includes s p || includes s (p ++ q) = includes s p.
Proof.
  destruct (includes s p) eqn:Hp; [reflexivity|]. cbn [orb].
  destruct (includes s (p ++ q)) eqn:Hq; [|reflexivity].
  rewrite (includes_weaken s p q Hq) in Hp. discriminate Hp.
Qed.

Lemma edge_answer_spec r :
  edge_answer r
  = ((status r =? 403) || (status r =? 503))
    && includes (toLowerCase (default [] (server r))) (js "cloudflare").
Proof.
  unfold edge_answer. f_equal.
  apply (includes_longer_is_redundant _ (js "cloudflare") (js "-nginx")).
Qed.

(** X26: The two challenge detectors of the repository agree on the status
    and the [server] header, where the test for cloudflare-nginx adds
    nothing to the test for cloudflare. [isCloudflareChallenge] accepts
    one more body marker, cf_clearance: every answer that the loop of
    [cloudflareBypassFetch] takes for a challenge is one for
    [fetchWithRetry] too, and the converse holds for every body without
    that marker. *)
Theorem bato_challenges_are_transport_challenges (r : response) (t : jsstring) :
  edge_answer r
  = ((status r =? 403) || (status r =? 503))
    && includes (toLowerCase (default [] (server r))) (js "cloudflare")
  /\ isCloudflareChallenge r t
     = edge_answer r && (challenge_markers t || includes t (js "cf_clearance"))
  /\ (edge_answer r = true -> challenge_markers t = true -> isCloudflareChallenge r t = true)
  /\ (includes t (js "cf_clearance") = false ->
      isCloudflareChallenge r t = edge_answer r && challenge_markers t).
Proof.
  assert (Hdet : isCloudflareChallenge r t
                 = edge_answer r && (challenge_markers t || includes t (js "cf_clearance"))).
  { unfold isCloudflareChallenge, edge_answer, challenge_markers.
    destruct (((status r =? 403) || (status r =? 503))
              && (includes (toLowerCase (default [] (server r))) (js "cloudflare")
                  || includes (toLowerCase (default [] (server r))) (js "cloudflare-nginx")));
      reflexivity. }
  split; [apply edge_answer_spec|]. split; [exact Hdet|]. split.
  - intros He Hm. rewrite Hdet, He, Hm. reflexivity.
  - intros Hno. rewrite Hdet, Hno, orb_false_r. reflexivity.
Qed.

Lemma includes_app_l (a b p : jsstring) : includes a p = true -> includes (a ++ b) p = true.
Proof.
  induction a as [|x a IH]; intros H.
  - cbn [includes] in H. rewrite orb_false_r in H.
    destruct p; [destruct b; reflexivity|discriminate H].
  - cbn [app includes] in *. apply orb_true_iff in H as [H|H].
    + pose proof (startsWith_prepend (x :: a) b p H) as Hs. cbn [app] in Hs.
      rewrite Hs. reflexivity.
    + rewrite (IH H). apply orb_true_r.
Qed.

Lemma includes_app_r (a b p : jsstring) : includes b p = true -> includes (a ++ b) p = true.
Proof.
  intros H. induction a as [|x a IH]; [exact H|].
  cbn [app includes]. rewrite IH. apply orb_true_r.
Qed.

(** X27: [isBatoSource] looks at the base URL only, whatever the case of its
    letters, and its test for batocc.com adds nothing to its test for
    bato. A source without base URL is no Bato source; every source
    whose base URL contains bato is one, so the built-in Xbato source is
    routed to the Bato service like the built-in Bato source, while
    MangaDex is not; and of the three mirror domains of the Bato service,
    battwo.com is not recognized. *)
Theorem isBatoSource_reads_the_base_url (s : Source) (before after : jsstring) :
  isBatoSource None = false
  /\ (baseUrl s = [] -> isBatoSource (Some s) = false)
  /\ (baseUrl s <> [] ->
      isBatoSource (Some s)
      = (includes (toLowerCase (baseUrl s)) (js "bato")
         || includes (toLowerCase (baseUrl s)) (js "ruru.to")
         || includes (toLowerCase (baseUrl s)) (js "xdxd.to")
         || includes (toLowerCase (baseUrl s)) (js "mto.to")))
  /\ (toLowerCase (baseUrl s) = before ++ js "bato" ++ after -> isBatoSource (Some s) = true)
  /\ List.map (fun d => isBatoSource (Some (enrich d))) BUILT_IN_SOURCES = [true; true; false]
  /\ List.map (fun domain => isBatoSource (Some (source_at domain))) BATO_DOMAINS
     = [true; false; true].
Proof.
  split; [reflexivity|].
  split; [intros H; unfold isBatoSource; rewrite H; reflexivity|].
  assert (Hgen : baseUrl s <> [] ->
            isBatoSource (Some s)
            = (includes (toLowerCase (baseUrl s)) (js "bato")
               || includes (toLowerCase (baseUrl s)) (js "ruru.to")
               || includes (toLowerCase (baseUrl s)) (js "xdxd.to")
               || includes (toLowerCase (baseUrl s)) (js "mto.to"))).
  { intros Hne. unfold isBatoSource.
    destruct (baseUrl s) as [|x u] eqn:Hu; [congruence|]. cbn [str_truthy negb].
    set (url := toLowerCase (x :: u)).
    destruct (includes url (js "bato")) eqn:Hb; [reflexivity|]. cbn [orb].
    replace (includes url (js "batocc.com")) with false; [rewrite orb_false_r; reflexivity|].
    symmetry. destruct (includes url (js "batocc.com")) eqn:Hc; [|reflexivity].
    rewrite (includes_weaken url (js "bato") (js "cc.com") Hc) in Hb. discriminate Hb. }
  split; [exact Hgen|].
  split.
  - intros Hurl.
    assert (Hne : baseUrl s <> []).
    { intros H0. rewrite H0 in Hurl. destruct before; discriminate Hurl. }
    rewrite (Hgen Hne), Hurl.
    rewrite (includes_app_r before _ (js "bato")); [reflexivity|].
    apply includes_app_l. reflexivity.
  - split; vm_compute; reflexivity.
Qed.

End DetectionFacts.
